(** * Constant heat-flux TEG optimisation tool: the numeric kernel

    A shallow embedding of [TEG_Optimizertion_Tool.py].

    Numbers.  Python floats and [np.float64] values are idealised as real
    numbers.  Two kinds of division occur in the source and are kept
    apart: a division between two Python floats raises
    [ZeroDivisionError] on a zero divisor ([py_div]); a division in which
    a NumPy scalar or array takes part never raises and is the total
    division of [R].

    Libraries.  The SciPy routines ([quad], [fsolve], [root_scalar]) and
    the least-squares core of [np.polyfit] are not code of the tool; they
    are taken as the fields of a record and every definition that calls
    them receives that record. *)

From Stdlib Require Import Reals Lra Lia List String Ascii Bool Arith ZArith.
From Stdlib Require Import ClassicalEpsilon.
Import ListNotations.
Open Scope R_scope.

(** ** Exceptions *)

Inductive exn : Type :=
| ValueError (msg : string)
| TypeError (msg : string)
| ZeroDivisionError
| EvalError (msg : string).

Inductive result (A : Type) : Type :=
| Ok (a : A)
| Raise (e : exn).

Arguments Ok {A} a.
Arguments Raise {A} e.

Definition bind {A B : Type} (r : result A) (k : A -> result B) : result B :=
  match r with
  | Ok a => k a
  | Raise e => Raise e
  end.

Notation "x <- r ;; k" := (bind r (fun x => k))
  (at level 61, r at next level, right associativity).

Definition fmap {A B : Type} (f : A -> B) (r : result A) : result B :=
  x <- r ;; Ok (f x).

(** Division of a Python float by a Python float. *)
Definition py_div (x y : R) : result R :=
  if Req_dec_T y 0 then Raise ZeroDivisionError else Ok (x / y).

(** ** NumPy polynomial helpers

    A polynomial is its coefficient list, highest degree first. *)

Module Np.

Definition poly := list R.

(** [np.polyval]: Horner's rule, starting from 0. *)
Definition polyval (p : poly) (x : R) : R :=
  fold_left (fun y c => y * x + c) p 0.

(** [np.polyint]: coefficient [i] divided by [len p - i], constant 0 appended. *)
Fixpoint polyint_coeffs (p : poly) : poly :=
  match p with
  | [] => []
  | c :: q => c / INR (List.length p) :: polyint_coeffs q
  end.

Definition polyint (p : poly) : poly := polyint_coeffs p ++ [0].

(** [np.polyder]: [p[:-1] * arange(len p - 1, 0, -1)]. *)
Fixpoint polyder (p : poly) : poly :=
  match p with
  | [] => []
  | c :: q =>
      match q with
      | [] => []
      | _ :: _ => c * INR (List.length q) :: polyder q
      end
  end.

(** Coefficient-wise sum of two lists aligned at the front. *)
Fixpoint add_front (a b : list R) : list R :=
  match a, b with
  | [], _ => b
  | _, [] => a
  | x :: a', y :: b' => (x + y) :: add_front a' b'
  end.

Fixpoint convolve_full (a v : list R) : list R :=
  match a with
  | [] => []
  | x :: a' => add_front (map (Rmult x) v) (0 :: convolve_full a' v)
  end.

(** [np.convolve]: raises [ValueError] when an argument is empty. *)
Definition convolve (a v : list R) : result (list R) :=
  match a, v with
  | [], _ => Raise (ValueError "a cannot be empty")
  | _, [] => Raise (ValueError "v cannot be empty")
  | _, _ => Ok (convolve_full a v)
  end.

(** [np.linspace (start, stop, num)] for [num >= 2]. *)
Definition linspace (start stop : R) (num : nat) : list R :=
  map (fun i => start + INR i * ((stop - start) / INR (num - 1))) (seq 0 num).

End Np.

Import Np.

(** ** The SciPy routines the tool calls *)

Record Scipy : Type := {
  (** [quad(f, a, b)[0]]: the value of the quadrature. *)
  quad : (R -> R) -> R -> R -> R;
  (** [fsolve(f, x0)[0]]: the last iterate; [fsolve] warns but does not
      raise when it has not converged. *)
  fsolve : (R -> R) -> R -> R;
  (** [root_scalar(f, method='brentq', bracket=[a, b])]: [Some root] when
      the call returns with [converged] set, [None] when it raises or
      returns unconverged. *)
  root_scalar : (R -> R) -> R -> R -> option R
}.

(** ** Floored thermal conductivity *)

Definition k_min_default : R := 1e-5.

Definition safe_polyval_k (p : poly) (T k_min : R) : R :=
  Rmax (polyval p T) k_min.

Definition safe_polyint_k (sp : Scipy) (p : poly) (T1 T2 k_min : R) : R :=
  quad sp (fun T => safe_polyval_k p T k_min) T1 T2.

(** The nested integral [quad(lambda T: polyval(P, Th) - polyval(P, T), Tc, Th)]. *)
Definition nested_int (sp : Scipy) (P : poly) (Tc Th : R) : R :=
  quad sp (fun T => polyval P Th - polyval P T) Tc Th.

(** ** Single-leg optimiser *)

Section Single.

Variable sp : Scipy.
Variables p_st p_kt p_rt : poly.
Variables Qin Tc Tmax L gamma_c_h gamma_c_c : R.

(** The local variables of [run_calc_single], in the order the source
    assigns them. *)
Record single_locals : Type := {
  sl_deltaT : R; sl_effc : R;
  sl_SengP : R; sl_KengP : R; sl_RengP : R; sl_RengP1 : R;
  sl_ZT_eng : R; sl_int_taut : R; sl_int_rt : R;
  sl_a0 : R; sl_a1 : R; sl_a2 : R;
  sl_m : R; sl_eff : R; sl_den : R; sl_alpha : R; sl_Vopt : R;
  sl_R_star_opt : R; sl_R_L_opt : R;
  sl_Th_sc : R; sl_dt_sc : R; sl_SengP_sc : R; sl_RengP_sc : R;
  sl_RengP1_sc : R; sl_R_star_sc : R; sl_Isc : R
}.

(** The guarded characteristic resistance
    [(1 / alpha) * (1 / dT) * R1 if (alpha != 0 and dT != 0) else 0].
    [alpha] is a NumPy scalar; [dT] is a Python float at the design point,
    so [1 / dT] is written as the division that can raise. *)
Definition R_star_of (alpha dT R1 : R) : result R :=
  if Req_dec_T alpha 0 then Ok 0
  else if Req_dec_T dT 0 then Ok 0
  else inv_dT <- py_div 1 dT ;; Ok ((1 / alpha) * inv_dT * R1).

(** The nested function [sc_eq] of [run_calc_single]; [fsolve] calls it
    on arrays, so its divisions are NumPy's. *)
Definition sc_eq_single (Sum_st Sum_rt Sum_taut : poly) (alpha : R) (Th_sc : R) : R :=
  let dt := Th_sc - Tc in
  if Rle_dec dt 0 then Qin
  else
    let SengP_sc := polyval Sum_st Th_sc - polyval Sum_st Tc in
    let KengP_sc := safe_polyint_k sp p_kt Tc Th_sc k_min_default in
    let RengP_sc := polyval Sum_rt Th_sc - polyval Sum_rt Tc in
    let RengP1_sc := RengP_sc + dt * (gamma_c_h + gamma_c_c) / L in
    let int_taut_sc := nested_int sp Sum_taut Tc Th_sc in
    let int_rt_sc := nested_int sp Sum_rt Tc Th_sc in
    let den_sc :=
      KengP_sc
      + (dt * SengP_sc * Th_sc * polyval p_st Th_sc - SengP_sc * int_taut_sc) / RengP1_sc
      - SengP_sc ^ 2 * (int_rt_sc + dt ^ 2 * gamma_c_h / L) / (RengP1_sc ^ 2) in
    alpha * den_sc - Qin.

(** The body of [run_calc_single].  [deltaT / Tmax] and the first
    [... / L] are divisions of Python floats; once the latter has
    succeeded [L] is not zero and the later divisions by [L] cannot raise. *)
Definition run_calc_single_locals : result single_locals :=
  let Sum_st := polyint p_st in
  let Sum_rt := polyint p_rt in
  p_taut <- convolve (polyder p_st) [1; 0] ;;
  let Sum_taut := polyint p_taut in
  let deltaT := Tmax - Tc in
  effc <- py_div deltaT Tmax ;;
  let SengP := polyval Sum_st Tmax - polyval Sum_st Tc in
  let KengP := safe_polyint_k sp p_kt Tc Tmax k_min_default in
  let RengP := polyval Sum_rt Tmax - polyval Sum_rt Tc in
  contact <- py_div (deltaT * (gamma_c_h + gamma_c_c)) L ;;
  let RengP1 := RengP + contact in
  let ZT_eng := SengP ^ 2 * deltaT / KengP / RengP1 in
  let int_taut := nested_int sp Sum_taut Tc Tmax in
  let int_rt := nested_int sp Sum_rt Tc Tmax in
  let a0 := polyval p_st Tmax * deltaT / SengP - int_taut / (SengP * deltaT) * effc in
  let a1 := a0 - effc * (int_rt + deltaT ^ 2 * gamma_c_h / L) / RengP1 / deltaT in
  let a2 := a0 - 2 * effc * (int_rt + deltaT ^ 2 * gamma_c_h / L) / RengP1 / deltaT in
  let m := sqrt (1 + ZT_eng * a1 / effc) in
  let eff := effc * (sqrt (1 + ZT_eng * a1 / effc) - 1)
             / (a0 * sqrt (1 + ZT_eng * a1 / effc) + a2) in
  let den :=
    KengP
    + 1 / (1 + m) * (deltaT * SengP * Tmax * polyval p_st Tmax - SengP * int_taut) / RengP1
    - 1 / (1 + m) ^ 2 * SengP ^ 2 * (int_rt + deltaT ^ 2 * gamma_c_h / L) / (RengP1 ^ 2) in
  let alpha := Qin / den in
  let Vopt := Rabs (SengP * m / (1 + m)) in
  R_star_opt <- R_star_of alpha deltaT RengP1 ;;
  let R_L_opt := m * R_star_opt in
  let Th_sc := fsolve sp (sc_eq_single Sum_st Sum_rt Sum_taut alpha) (Tc + 20) in
  let dt_sc := Th_sc - Tc in
  let SengP_sc := polyval Sum_st Th_sc - polyval Sum_st Tc in
  let RengP_sc := polyval Sum_rt Th_sc - polyval Sum_rt Tc in
  let RengP1_sc := RengP_sc + dt_sc * (gamma_c_h + gamma_c_c) / L in
  R_star_sc <- R_star_of alpha dt_sc RengP1_sc ;;
  let Isc := if Req_dec_T R_star_sc 0 then 0 else Rabs (SengP_sc / R_star_sc) in
  Ok {| sl_deltaT := deltaT; sl_effc := effc;
        sl_SengP := SengP; sl_KengP := KengP; sl_RengP := RengP; sl_RengP1 := RengP1;
        sl_ZT_eng := ZT_eng; sl_int_taut := int_taut; sl_int_rt := int_rt;
        sl_a0 := a0; sl_a1 := a1; sl_a2 := a2;
        sl_m := m; sl_eff := eff; sl_den := den; sl_alpha := alpha; sl_Vopt := Vopt;
        sl_R_star_opt := R_star_opt; sl_R_L_opt := R_L_opt;
        sl_Th_sc := Th_sc; sl_dt_sc := dt_sc; sl_SengP_sc := SengP_sc;
        sl_RengP_sc := RengP_sc; sl_RengP1_sc := RengP1_sc;
        sl_R_star_sc := R_star_sc; sl_Isc := Isc |}.

(** [return eff, m, alpha, Vopt, Th_sc, Isc, R_star_opt, R_L_opt] *)
Definition single_return (l : single_locals) : R * R * R * R * R * R * R * R :=
  (sl_eff l, sl_m l, sl_alpha l, sl_Vopt l, sl_Th_sc l, sl_Isc l,
   sl_R_star_opt l, sl_R_L_opt l).


End Single.

(** ** Couple optimiser *)

Section Couple.

Variable sp : Scipy.
Variables Qin Tc Th L rc_nh rc_nc rc_ph rc_pc : R.
Variables p_st p_kt p_rt n_st n_kt n_rt : poly.

Record couple_locals : Type := {
  cl_deltaT : R; cl_effc : R;
  cl_SengP : R; cl_KengP : R; cl_RengP : R;
  cl_SengN : R; cl_KengN : R; cl_RengN : R;
  cl_RengP1 : R; cl_RengN1 : R;
  cl_beta : R; cl_ZT_eng : R;
  cl_int_ptaut : R; cl_int_ntaut : R; cl_int_prt : R; cl_int_nrt : R;
  cl_a0 : R; cl_a1 : R; cl_a2 : R;
  cl_m : R; cl_eff : R; cl_denP : R; cl_denN : R;
  cl_alphaP : R; cl_alphaN : R; cl_alpha : R; cl_Pmax : R; cl_Vopt : R;
  cl_R_star_opt : R; cl_R_L_opt : R;
  cl_Th_sc : R; cl_dt_sc : R; cl_SengP_sc : R; cl_SengN_sc : R;
  cl_RengP1_sc : R; cl_RengN1_sc : R; cl_R_star_sc : R; cl_Isc : R
}.

(** [0.0 if dT == 0 or alphaP == 0 or alphaN == 0
     else (RP1 / alphaP + RN1 / alphaN) / dT] *)
Definition R_star_couple_of (alphaP alphaN dT RP1 RN1 : R) : R :=
  if Req_dec_T dT 0 then 0
  else if Req_dec_T alphaP 0 then 0
  else if Req_dec_T alphaN 0 then 0
  else (RP1 / alphaP + RN1 / alphaN) / dT.

(** The nested function [sc_eq] of [run_calc_Couple].  The last term of
    [denN_sc] reads [SengP] (the design-point value) where the P-leg
    terms read [SengP_sc]; it is kept as the source has it. *)
Definition sc_eq_couple (Sum_pst Sum_prt Sum_ptaut Sum_nst Sum_nrt Sum_ntaut : poly)
    (SengP beta alphaP : R) (Th_sc : R) : R :=
  let dt := Th_sc - Tc in
  if Rle_dec dt 0 then Qin
  else
    let KengP_sc := safe_polyint_k sp p_kt Tc Th_sc k_min_default in
    let KengN_sc := safe_polyint_k sp n_kt Tc Th_sc k_min_default in
    let SengP_sc := polyval Sum_pst Th_sc - polyval Sum_pst Tc in
    let SengN_sc := polyval Sum_nst Th_sc - polyval Sum_nst Tc in
    let RengP_sc := polyval Sum_prt Th_sc - polyval Sum_prt Tc in
    let RengN_sc := polyval Sum_nrt Th_sc - polyval Sum_nrt Tc in
    let RengP1_sc := RengP_sc + dt * (rc_ph + rc_pc) / L in
    let RengN1_sc := RengN_sc + dt * (rc_nh + rc_nc) / L in
    let int_ptaut_sc := nested_int sp Sum_ptaut Tc Th_sc in
    let int_ntaut_sc := nested_int sp Sum_ntaut Tc Th_sc in
    let int_prt_sc := nested_int sp Sum_prt Tc Th_sc in
    let int_nrt_sc := nested_int sp Sum_nrt Tc Th_sc in
    let denP_sc :=
      KengP_sc
      + ((SengP_sc - SengN_sc) * Th_sc * polyval p_st Th_sc * dt
         - (SengP_sc - SengN_sc) * int_ptaut_sc) / (RengP1_sc + / beta * RengN1_sc)
      - (SengP_sc - SengN_sc) ^ 2 * (int_prt_sc + dt ^ 2 * rc_ph / L)
        / (RengP1_sc + / beta * RengN1_sc) ^ 2 in
    let denN_sc :=
      KengN_sc
      - ((SengP_sc - SengN_sc) * Th_sc * polyval n_st Th_sc * dt
         - (SengP_sc - SengN_sc) * int_ntaut_sc) / (beta * RengP1_sc + RengN1_sc)
      - (SengP - SengN_sc) ^ 2 * (int_nrt_sc + dt ^ 2 * rc_nh / L)
        / (beta * RengP1_sc + RengN1_sc) ^ 2 in
    alphaP * (denP_sc + beta * denN_sc) - Qin.

(** The body of [run_calc_Couple]. *)
Definition run_calc_Couple_locals : result couple_locals :=
  let Sum_pst := polyint p_st in
  let Sum_prt := polyint p_rt in
  p_taut <- convolve (polyder p_st) [1; 0] ;;
  let Sum_ptaut := polyint p_taut in
  let Sum_nst := polyint n_st in
  let Sum_nrt := polyint n_rt in
  n_taut <- convolve (polyder n_st) [1; 0] ;;
  let Sum_ntaut := polyint n_taut in
  let deltaT := Th - Tc in
  effc <- py_div deltaT Th ;;
  let SengP := polyval Sum_pst Th - polyval Sum_pst Tc in
  let KengP := safe_polyint_k sp p_kt Tc Th k_min_default in
  let RengP := polyval Sum_prt Th - polyval Sum_prt Tc in
  let SengN := polyval Sum_nst Th - polyval Sum_nst Tc in
  let KengN := safe_polyint_k sp n_kt Tc Th k_min_default in
  let RengN := polyval Sum_nrt Th - polyval Sum_nrt Tc in
  contactP <- py_div (deltaT * (rc_ph + rc_pc)) L ;;
  let RengP1 := RengP + contactP in
  contactN <- py_div (deltaT * (rc_nh + rc_nc)) L ;;
  let RengN1 := RengN + contactN in
  let beta :=
    if Req_dec_T (RengP1 * KengN) 0 then 1
    else sqrt (RengN1 * KengP / (RengP1 * KengN)) in
  let ZT_eng := (SengP - SengN) ^ 2 * deltaT
                / (sqrt (KengP * RengP1) + sqrt (KengN * RengN1)) ^ 2 in
  let int_ptaut := nested_int sp Sum_ptaut Tc Th in
  let int_ntaut := nested_int sp Sum_ntaut Tc Th in
  let int_prt := nested_int sp Sum_prt Tc Th in
  let int_nrt := nested_int sp Sum_nrt Tc Th in
  let a0 := (polyval p_st Th - polyval n_st Th) * deltaT / (SengP - SengN)
            - (int_ptaut - int_ntaut) / ((SengP - SengN) * deltaT) * effc in
  let a1 := a0 - effc * (int_prt + beta * int_nrt + deltaT ^ 2 * (rc_ph + beta * rc_nh) / L)
                 / (RengP1 + beta * RengN1) / deltaT in
  let a2 := a0 - 2 * effc * (int_prt + beta * int_nrt + deltaT ^ 2 * (rc_ph + beta * rc_nh) / L)
                 / (RengP1 + beta * RengN1) / deltaT in
  let m := sqrt (1 + ZT_eng * a1 / effc) in
  let eff := effc * (sqrt (1 + ZT_eng * a1 / effc) - 1)
             / (a0 * sqrt (1 + ZT_eng * a1 / effc) + a2) in
  let denP :=
    KengP
    + ((SengP - SengN) * Th * polyval p_st Th * deltaT - (SengP - SengN) * int_ptaut)
      / (1 + m) / (RengP1 + / beta * RengN1)
    - (SengP - SengN) ^ 2 * (int_prt + deltaT ^ 2 * rc_ph / L)
      / (1 + m) ^ 2 / (RengP1 + / beta * RengN1) ^ 2 in
  let denN :=
    KengN
    - ((SengP - SengN) * Th * polyval n_st Th * deltaT - (SengP - SengN) * int_ntaut)
      / (1 + m) / (beta * RengP1 + RengN1)
    - (SengP - SengN) ^ 2 * (int_nrt + deltaT ^ 2 * rc_nh / L)
      / (1 + m) ^ 2 / (beta * RengP1 + RengN1) ^ 2 in
  let alphaP := Qin / (denP + beta * denN) in
  let alphaN := beta * alphaP in
  let alpha := alphaN + alphaP in
  let Pmax := Qin * eff in
  let Vopt := (SengP - SengN) * m / (1 + m) in
  let R_star_opt := R_star_couple_of alphaP alphaN deltaT RengP1 RengN1 in
  let R_L_opt := m * R_star_opt in
  let Th_sc := fsolve sp (sc_eq_couple Sum_pst Sum_prt Sum_ptaut Sum_nst Sum_nrt Sum_ntaut
                            SengP beta alphaP) (Tc + 20) in
  let dt_sc := Th_sc - Tc in
  let SengP_sc := polyval Sum_pst Th_sc - polyval Sum_pst Tc in
  let SengN_sc := polyval Sum_nst Th_sc - polyval Sum_nst Tc in
  let RengP_sc := polyval Sum_prt Th_sc - polyval Sum_prt Tc in
  let RengN_sc := polyval Sum_nrt Th_sc - polyval Sum_nrt Tc in
  let RengP1_sc := RengP_sc + dt_sc * (rc_ph + rc_pc) / L in
  let RengN1_sc := RengN_sc + dt_sc * (rc_nh + rc_nc) / L in
  let R_star_sc := R_star_couple_of alphaP alphaN dt_sc RengP1_sc RengN1_sc in
  let Isc := if Req_dec_T R_star_sc 0 then 0 else (SengP_sc - SengN_sc) / R_star_sc in
  Ok {| cl_deltaT := deltaT; cl_effc := effc;
        cl_SengP := SengP; cl_KengP := KengP; cl_RengP := RengP;
        cl_SengN := SengN; cl_KengN := KengN; cl_RengN := RengN;
        cl_RengP1 := RengP1; cl_RengN1 := RengN1;
        cl_beta := beta; cl_ZT_eng := ZT_eng;
        cl_int_ptaut := int_ptaut; cl_int_ntaut := int_ntaut;
        cl_int_prt := int_prt; cl_int_nrt := int_nrt;
        cl_a0 := a0; cl_a1 := a1; cl_a2 := a2;
        cl_m := m; cl_eff := eff; cl_denP := denP; cl_denN := denN;
        cl_alphaP := alphaP; cl_alphaN := alphaN; cl_alpha := alpha;
        cl_Pmax := Pmax; cl_Vopt := Vopt;
        cl_R_star_opt := R_star_opt; cl_R_L_opt := R_L_opt;
        cl_Th_sc := Th_sc; cl_dt_sc := dt_sc;
        cl_SengP_sc := SengP_sc; cl_SengN_sc := SengN_sc;
        cl_RengP1_sc := RengP1_sc; cl_RengN1_sc := RengN1_sc;
        cl_R_star_sc := R_star_sc; cl_Isc := Isc |}.

(** [return eff, m, alpha, beta, alphaP, alphaN, Qin*eff, Vopt, Th_sc, Isc,
    R_star_opt, R_L_opt] *)
Definition couple_return (l : couple_locals)
  : R * R * R * R * R * R * R * R * R * R * R * R :=
  (cl_eff l, cl_m l, cl_alpha l, cl_beta l, cl_alphaP l, cl_alphaN l,
   Qin * cl_eff l, cl_Vopt l, cl_Th_sc l, cl_Isc l, cl_R_star_opt l, cl_R_L_opt l).

Definition run_calc_Couple : result (R * R * R * R * R * R * R * R * R * R * R * R) :=
  fmap couple_return run_calc_Couple_locals.

End Couple.

(** ** [TEGFrame]: the optimisation run ([on_calc]) *)

(** [_solve_Th_I_at_m_single] *)
Definition solve_Th_I_at_m_single (sp : Scipy)
    (m Tc Qin Lmax gamma_c_h gamma_c_c : R) (s_poly k_poly r_poly : poly) (alpha : R)
  : result (R * R) :=
  let Sum_st := polyint s_poly in
  let Sum_rt := polyint r_poly in
  p_taut <- convolve (polyder s_poly) [1; 0] ;;
  let Sum_taut := polyint p_taut in
  let heat_balance := fun Th : R =>
    if Rle_dec Th (Tc + 1e-6) then - Qin
    else
      let dt := Th - Tc in
      let SengP := polyval Sum_st Th - polyval Sum_st Tc in
      let KengP := safe_polyint_k sp k_poly Tc Th k_min_default in
      let RengP := polyval Sum_rt Th - polyval Sum_rt Tc in
      let RengP1 := RengP + dt * (gamma_c_h + gamma_c_c) / Lmax in
      let int_taut := nested_int sp Sum_taut Tc Th in
      let int_rt := nested_int sp Sum_rt Tc Th in
      let den_m :=
        KengP
        + 1 / (1 + m) * (dt * SengP * Th * polyval s_poly Th - SengP * int_taut) / RengP1
        - 1 / (1 + m) ^ 2 * SengP ^ 2 * (int_rt + dt ^ 2 * gamma_c_h / Lmax) / (RengP1 ^ 2) in
      alpha * den_m - Qin in
  let Th_opt := fsolve sp heat_balance (Tc + 50) in
  let dt := Th_opt - Tc in
  let SengP := polyval Sum_st Th_opt - polyval Sum_st Tc in
  let RengP := polyval Sum_rt Th_opt - polyval Sum_rt Tc in
  let RengP1 := RengP + dt * (gamma_c_h + gamma_c_c) / Lmax in
  R_star <- R_star_of alpha dt RengP1 ;;
  let I := if Req_dec_T R_star 0 then 0 else Rabs (SengP / (R_star * (1 + m))) in
  Ok (Th_opt, I).

(** The residual that [heat_balance] of [_solve_Th_I_at_m_Couple] and
    [heat_balance_eq] of [_generate_Couple_curve_data] share once their
    guards are passed. *)
Definition couple_balance (sp : Scipy)
    (Sum_pst Sum_prt Sum_ptaut Sum_nst Sum_nrt Sum_ntaut p_s n_s : poly)
    (Tc Qin Lmax rc_nh rc_ph beta alphaP : R) (m Th : R)
    (KengP KengN RengP1 RengN1 : R) : R :=
  let dt := Th - Tc in
  let SengP := polyval Sum_pst Th - polyval Sum_pst Tc in
  let SengN := polyval Sum_nst Th - polyval Sum_nst Tc in
  let int_ptaut := nested_int sp Sum_ptaut Tc Th in
  let int_ntaut := nested_int sp Sum_ntaut Tc Th in
  let int_prt := nested_int sp Sum_prt Tc Th in
  let int_nrt := nested_int sp Sum_nrt Tc Th in
  let den_common := (1 + m) * (RengP1 + / beta * RengN1) in
  let den_common_sq := (1 + m) ^ 2 * (RengP1 + / beta * RengN1) ^ 2 in
  let S_diff := SengP - SengN in
  let denP := KengP + (S_diff * Th * polyval p_s Th * dt - S_diff * int_ptaut) / den_common
              - S_diff ^ 2 * (int_prt + dt ^ 2 * rc_ph / Lmax) / den_common_sq in
  let denN := KengN
              - (S_diff * Th * polyval n_s Th * dt - S_diff * int_ntaut)
                / ((1 + m) * (beta * RengP1 + RengN1))
              - S_diff ^ 2 * (int_nrt + dt ^ 2 * rc_nh / Lmax)
                / ((1 + m) ^ 2 * (beta * RengP1 + RengN1) ^ 2) in
  alphaP * (denP + beta * denN) - Qin.

(** [_solve_Th_I_at_m_Couple] *)
Definition solve_Th_I_at_m_Couple (sp : Scipy)
    (m beta Tc Qin Lmax rc_nh rc_nc rc_ph rc_pc : R)
    (p_s p_k p_r n_s n_k n_r : poly) (alphaP : R) : result (R * R) :=
  let Sum_pst := polyint p_s in
  let Sum_prt := polyint p_r in
  let Sum_nst := polyint n_s in
  let Sum_nrt := polyint n_r in
  p_taut <- convolve (polyder p_s) [1; 0] ;;
  let Sum_ptaut := polyint p_taut in
  n_taut <- convolve (polyder n_s) [1; 0] ;;
  let Sum_ntaut := polyint n_taut in
  let heat_balance := fun Th : R =>
    if Rle_dec Th (Tc + 1e-6) then - Qin
    else
      let dt := Th - Tc in
      let KengP := safe_polyint_k sp p_k Tc Th k_min_default in
      let KengN := safe_polyint_k sp n_k Tc Th k_min_default in
      let RengP := polyval Sum_prt Th - polyval Sum_prt Tc in
      let RengN := polyval Sum_nrt Th - polyval Sum_nrt Tc in
      let RengP1 := RengP + dt * (rc_ph + rc_pc) / Lmax in
      let RengN1 := RengN + dt * (rc_nh + rc_nc) / Lmax in
      couple_balance sp Sum_pst Sum_prt Sum_ptaut Sum_nst Sum_nrt Sum_ntaut p_s n_s
        Tc Qin Lmax rc_nh rc_ph beta alphaP m Th KengP KengN RengP1 RengN1 in
  let Th_opt := fsolve sp heat_balance (Tc + 50) in
  let dt := Th_opt - Tc in
  let SengP := polyval Sum_pst Th_opt - polyval Sum_pst Tc in
  let SengN := polyval Sum_nst Th_opt - polyval Sum_nst Tc in
  let RengP := polyval Sum_prt Th_opt - polyval Sum_prt Tc in
  let RengN := polyval Sum_nrt Th_opt - polyval Sum_nrt Tc in
  let RengP1 := RengP + dt * (rc_ph + rc_pc) / Lmax in
  let RengN1 := RengN + dt * (rc_nh + rc_nc) / Lmax in
  let alphaN := alphaP * beta in
  let R_star := R_star_couple_of alphaP alphaN dt RengP1 RengN1 in
  let Voc_local := SengP - SengN in
  let I := if Req_dec_T R_star 0 then 0 else Voc_local / (R_star * (1 + m)) in
  Ok (Th_opt, I).

(** The dictionary [last_results] that [on_calc] stores in single-leg mode. *)
Record single_results : Type := {
  sr_s_poly : poly; sr_k_poly : poly; sr_r_poly : poly;
  sr_Qin : R; sr_Tc : R; sr_Tmax : R; sr_Lmax : R;
  sr_gamma_c_h : R; sr_gamma_c_c : R;
  sr_alpha : R; sr_m_opt : R; sr_Th_sc : R; sr_Th_oc : R; sr_Voc : R;
  sr_eff : R; sr_Vopt : R; sr_Isc : R; sr_R_star_opt : R; sr_R_L_opt : R;
  sr_Th_opt : R; sr_I_opt : R
}.

(** ... and in couple mode. *)
Record couple_results : Type := {
  cr_p_s_poly : poly; cr_p_k_poly : poly; cr_p_r_poly : poly;
  cr_n_s_poly : poly; cr_n_k_poly : poly; cr_n_r_poly : poly;
  cr_Qin : R; cr_Tc : R; cr_Tmax : R; cr_Lmax : R;
  cr_rc_ph : R; cr_rc_pc : R; cr_rc_nh : R; cr_rc_nc : R;
  cr_alpha : R; cr_alphaP : R; cr_alphaN : R; cr_beta : R;
  cr_m_opt : R; cr_Th_sc : R; cr_Th_oc : R; cr_Voc : R;
  cr_eff : R; cr_Pmax : R; cr_Vopt : R; cr_Isc : R;
  cr_R_star_opt : R; cr_R_L_opt : R; cr_Th_opt : R; cr_I_opt : R
}.

(** The open-circuit residual of single-leg mode:
    [lambda Th: alpha * safe_polyint_k(k_poly, Tc, Th) - Qin if Th > Tc else Qin] *)
Definition eq_oc_single (sp : Scipy) (alpha : R) (k_poly : poly) (Tc Qin : R) (Th : R) : R :=
  if Rlt_dec Tc Th then alpha * safe_polyint_k sp k_poly Tc Th k_min_default - Qin
  else Qin.

(** The open-circuit residual of couple mode, [eq_oc_Couple]. *)
Definition eq_oc_Couple (sp : Scipy) (alphaP alphaN : R) (p_k_poly n_k_poly : poly)
    (Tc Qin : R) (Th : R) : R :=
  if Rle_dec Th Tc then Qin
  else (alphaP * safe_polyint_k sp p_k_poly Tc Th k_min_default
        + alphaN * safe_polyint_k sp n_k_poly Tc Th k_min_default) - Qin.

(** [on_calc], single-leg branch, from the parsed inputs on: the three
    polynomials are the values of [parse_input], the temperatures and
    lengths are already converted to kelvin and metres. *)
Definition on_calc_single (sp : Scipy) (s_poly k_poly r_poly : poly)
    (Tmax Tc Qin : R) (use_resist : bool) (L_entry gamma_h_entry gamma_c_entry : R)
  : result single_results :=
  let Lmax := if use_resist then L_entry else 1 in
  let gamma_c_h := if use_resist then gamma_h_entry else 0 in
  let gamma_c_c := if use_resist then gamma_c_entry else 0 in
  l <- run_calc_single_locals sp s_poly k_poly r_poly Qin Tc Tmax Lmax gamma_c_h gamma_c_c ;;
  let '(eff, m_opt, alpha, Vopt, Th_sc, Isc, R_star_opt, R_L_opt) := single_return l in
  let Th_oc := fsolve sp (eq_oc_single sp alpha k_poly Tc Qin) Tmax in
  let Voc := Rabs (polyval (polyint s_poly) Th_oc - polyval (polyint s_poly) Tc) in
  ti <- solve_Th_I_at_m_single sp m_opt Tc Qin Lmax gamma_c_h gamma_c_c
          s_poly k_poly r_poly alpha ;;
  let '(Th_opt, Iopt) := ti in
  Ok {| sr_s_poly := s_poly; sr_k_poly := k_poly; sr_r_poly := r_poly;
        sr_Qin := Qin; sr_Tc := Tc; sr_Tmax := Tmax; sr_Lmax := Lmax;
        sr_gamma_c_h := gamma_c_h; sr_gamma_c_c := gamma_c_c;
        sr_alpha := alpha; sr_m_opt := m_opt; sr_Th_sc := Th_sc; sr_Th_oc := Th_oc;
        sr_Voc := Voc; sr_eff := eff; sr_Vopt := Vopt; sr_Isc := Isc;
        sr_R_star_opt := R_star_opt; sr_R_L_opt := R_L_opt;
        sr_Th_opt := Th_opt; sr_I_opt := Iopt |}.

(** [on_calc], couple branch. *)
Definition on_calc_Couple (sp : Scipy)
    (p_s_poly p_k_poly p_r_poly n_s_poly n_k_poly n_r_poly : poly)
    (Tmax Tc Qin : R) (use_resist : bool)
    (L_entry gamma_ph_entry gamma_pc_entry gamma_nh_entry gamma_nc_entry : R)
  : result couple_results :=
  let Lmax := if use_resist then L_entry else 1 in
  let rc_ph := if use_resist then gamma_ph_entry else 0 in
  let rc_pc := if use_resist then gamma_pc_entry else 0 in
  let rc_nh := if use_resist then gamma_nh_entry else 0 in
  let rc_nc := if use_resist then gamma_nc_entry else 0 in
  l <- run_calc_Couple_locals sp Qin Tc Tmax Lmax rc_nh rc_nc rc_ph rc_pc
         p_s_poly p_k_poly p_r_poly n_s_poly n_k_poly n_r_poly ;;
  let '(eff, m_opt, alpha, beta, alphaP, alphaN, Pmax, Vopt, Th_sc, Isc,
        R_star_opt, R_L_opt) := couple_return Qin l in
  let Th_oc := fsolve sp (eq_oc_Couple sp alphaP alphaN p_k_poly n_k_poly Tc Qin) Tmax in
  let Sum_pst := polyint p_s_poly in
  let Sum_nst := polyint n_s_poly in
  let Voc := (polyval Sum_pst Th_oc - polyval Sum_pst Tc)
             - (polyval Sum_nst Th_oc - polyval Sum_nst Tc) in
  ti <- solve_Th_I_at_m_Couple sp m_opt beta Tc Qin Lmax rc_nh rc_nc rc_ph rc_pc
          p_s_poly p_k_poly p_r_poly n_s_poly n_k_poly n_r_poly alphaP ;;
  let '(Th_opt, Iopt) := ti in
  Ok {| cr_p_s_poly := p_s_poly; cr_p_k_poly := p_k_poly; cr_p_r_poly := p_r_poly;
        cr_n_s_poly := n_s_poly; cr_n_k_poly := n_k_poly; cr_n_r_poly := n_r_poly;
        cr_Qin := Qin; cr_Tc := Tc; cr_Tmax := Tmax; cr_Lmax := Lmax;
        cr_rc_ph := rc_ph; cr_rc_pc := rc_pc; cr_rc_nh := rc_nh; cr_rc_nc := rc_nc;
        cr_alpha := alpha; cr_alphaP := alphaP; cr_alphaN := alphaN; cr_beta := beta;
        cr_m_opt := m_opt; cr_Th_sc := Th_sc; cr_Th_oc := Th_oc; cr_Voc := Voc;
        cr_eff := eff; cr_Pmax := Pmax; cr_Vopt := Vopt; cr_Isc := Isc;
        cr_R_star_opt := R_star_opt; cr_R_L_opt := R_L_opt;
        cr_Th_opt := Th_opt; cr_I_opt := Iopt |}.

(** ** [TEGFrame]: the load-curve sampler *)

(** The dictionary of lists [results] that the sampling loop fills and
    the endpoint block closes. *)
Record curve : Type := {
  c_th : list R; c_v_load : list R; c_eta : list R;
  c_m : list R; c_i : list R; c_rstar : list R
}.

Definition empty_curve : curve :=
  {| c_th := []; c_v_load := []; c_eta := []; c_m := []; c_i := []; c_rstar := [] |}.

(** The six [append] calls that end a loop iteration. *)
Definition append_sample (r : curve) (Th_val V_load eta m_val I R_star : R) : curve :=
  {| c_th := c_th r ++ [Th_val]; c_v_load := c_v_load r ++ [V_load];
     c_eta := c_eta r ++ [eta]; c_m := c_m r ++ [m_val];
     c_i := c_i r ++ [I]; c_rstar := c_rstar r ++ [R_star] |}.

(** The block under [if len(results['th']) >= 1]. *)
Definition close_curve (r : curve) (Th_sc Th_oc Voc Isc R_star_opt : R) : curve :=
  match c_th r with
  | [] => r
  | _ :: _ =>
      {| c_v_load := [0] ++ c_v_load r ++ [Voc];
         c_eta := [0] ++ c_eta r ++ [0];
         c_th := [Th_sc] ++ c_th r ++ [Th_oc];
         c_m := [0] ++ c_m r ++ [1e9];
         c_i := [Isc] ++ c_i r ++ [0];
         c_rstar := [R_star_opt] ++ c_rstar r ++ [R_star_opt] |}
  end.

(** The bracket handed to [brentq] and the number of swept samples. *)
Definition bracket_lo : R := 1e-12.
Definition bracket_hi : R := 1e7.
Definition n_samples : nat := 50.

Section SingleCurve.

Variable sp : Scipy.
Variable p : single_results.

Let s_poly := sr_s_poly p.
Let k_poly := sr_k_poly p.
Let r_poly := sr_r_poly p.
Let Qin := sr_Qin p.
Let Tc := sr_Tc p.
Let Lmax := sr_Lmax p.
Let gamma_c_h := sr_gamma_c_h p.
Let gamma_c_c := sr_gamma_c_c p.
Let alpha := sr_alpha p.

(** [heat_balance_eq] of [_generate_single_leg_curve_data] *)
Definition heat_balance_eq_single (Sum_st Sum_rt Sum_taut : poly) (m Th : R) : R :=
  if Rlt_dec m 0 then Qin
  else if Rle_dec Th (Tc + 1e-6) then - Qin
  else
    let dt := Th - Tc in
    let SengP := polyval Sum_st Th - polyval Sum_st Tc in
    let KengP := safe_polyint_k sp k_poly Tc Th k_min_default in
    let RengP := polyval Sum_rt Th - polyval Sum_rt Tc in
    let RengP1 := RengP + dt * (gamma_c_h + gamma_c_c) / Lmax in
    if Rlt_dec (Rabs RengP1) 1e-12 then alpha * KengP - Qin
    else
      let int_taut := nested_int sp Sum_taut Tc Th in
      let int_rt := nested_int sp Sum_rt Tc Th in
      let den_m :=
        KengP
        + 1 / (1 + m) * (dt * SengP * Th * polyval s_poly Th - SengP * int_taut) / RengP1
        - 1 / (1 + m) ^ 2 * SengP ^ 2 * (int_rt + dt ^ 2 * gamma_c_h / Lmax) / (RengP1 ^ 2) in
      let q_in_calc := alpha * den_m in
      q_in_calc - Qin.

(** One iteration of the sampling loop: every [continue] and the
    [except Exception: continue] leave [results] as it was. *)
Definition sample_step_single (Sum_st Sum_rt Sum_taut : poly)
    (results : curve) (Th_val : R) : curve :=
  match root_scalar sp (fun m => heat_balance_eq_single Sum_st Sum_rt Sum_taut m Th_val)
          bracket_lo bracket_hi with
  | None => results
  | Some m_val =>
      let dt := Th_val - Tc in
      if Rle_dec dt 0 then results
      else
        let SengP := polyval Sum_st Th_val - polyval Sum_st Tc in
        let RengP := polyval Sum_rt Th_val - polyval Sum_rt Tc in
        let RengP1 := RengP + dt * (gamma_c_h + gamma_c_c) / Lmax in
        match R_star_of alpha dt RengP1 with
        | Raise _ => results
        | Ok R_star =>
            if Rle_dec R_star 0 then results
            else
              let I := Rabs (SengP / (R_star * (1 + m_val))) in
              let V_load := I * m_val * R_star in
              let P_out := I * V_load in
              let eta := P_out / sr_Qin p * 100 in
              append_sample results Th_val V_load eta m_val I R_star
        end
  end.

(** The swept samples, before the endpoints are added. *)
Definition sweep_single (Sum_st Sum_rt Sum_taut : poly) : curve :=
  fold_left (sample_step_single Sum_st Sum_rt Sum_taut)
    (linspace (sr_Th_sc p) (sr_Th_oc p) n_samples) empty_curve.

(** [_generate_single_leg_curve_data] *)
Definition generate_single_leg_curve_data : result curve :=
  let Sum_st := polyint s_poly in
  let Sum_rt := polyint r_poly in
  p_taut <- convolve (polyder s_poly) [1; 0] ;;
  let Sum_taut := polyint p_taut in
  let results := sweep_single Sum_st Sum_rt Sum_taut in
  Ok (close_curve results (sr_Th_sc p) (sr_Th_oc p) (sr_Voc p) (sr_Isc p) (sr_R_star_opt p)).

End SingleCurve.

Section CoupleCurve.

Variable sp : Scipy.
Variable p : couple_results.

Let p_s := cr_p_s_poly p.
Let p_k := cr_p_k_poly p.
Let p_r := cr_p_r_poly p.
Let n_s := cr_n_s_poly p.
Let n_k := cr_n_k_poly p.
Let n_r := cr_n_r_poly p.
Let Qin := cr_Qin p.
Let Tc := cr_Tc p.
Let Lmax := cr_Lmax p.
Let alphaP := cr_alphaP p.
Let beta_opt := cr_beta p.
Let rc_ph := cr_rc_ph p.
Let rc_pc := cr_rc_pc p.
Let rc_nh := cr_rc_nh p.
Let rc_nc := cr_rc_nc p.

(** [heat_balance_eq] of [_generate_Couple_curve_data] *)
Definition heat_balance_eq_Couple
    (Sum_pst Sum_prt Sum_ptaut Sum_nst Sum_nrt Sum_ntaut : poly) (m Th : R) : R :=
  if Rlt_dec m 0 then Qin
  else if Rle_dec Th (Tc + 1e-6) then - Qin
  else
    let dt := Th - Tc in
    let KengP := safe_polyint_k sp p_k Tc Th k_min_default in
    let KengN := safe_polyint_k sp n_k Tc Th k_min_default in
    let RengP := polyval Sum_prt Th - polyval Sum_prt Tc in
    let RengN := polyval Sum_nrt Th - polyval Sum_nrt Tc in
    let RengP1 := RengP + dt * (rc_ph + rc_pc) / Lmax in
    let RengN1 := RengN + dt * (rc_nh + rc_nc) / Lmax in
    if Rlt_dec (Rabs (RengP1 + / beta_opt * RengN1)) 1e-12
    then alphaP * (KengP + beta_opt * KengN) - Qin
    else
      couple_balance sp Sum_pst Sum_prt Sum_ptaut Sum_nst Sum_nrt Sum_ntaut p_s n_s
        Tc Qin Lmax rc_nh rc_ph beta_opt alphaP m Th KengP KengN RengP1 RengN1.

Definition sample_step_Couple
    (Sum_pst Sum_prt Sum_ptaut Sum_nst Sum_nrt Sum_ntaut : poly)
    (results : curve) (Th_val : R) : curve :=
  match root_scalar sp
          (fun m => heat_balance_eq_Couple Sum_pst Sum_prt Sum_ptaut
                      Sum_nst Sum_nrt Sum_ntaut m Th_val)
          bracket_lo bracket_hi with
  | None => results
  | Some m_val =>
      let dt := Th_val - Tc in
      if Rle_dec dt 0 then results
      else
        let SengP := polyval Sum_pst Th_val - polyval Sum_pst Tc in
        let SengN := polyval Sum_nst Th_val - polyval Sum_nst Tc in
        let RengP1 := polyval Sum_prt Th_val - polyval Sum_prt Tc
                      + dt * (rc_ph + rc_pc) / Lmax in
        let RengN1 := polyval Sum_nrt Th_val - polyval Sum_nrt Tc
                      + dt * (rc_nh + rc_nc) / Lmax in
        let alphaN := alphaP * beta_opt in
        let R_star := R_star_couple_of alphaP alphaN dt RengP1 RengN1 in
        if Rle_dec R_star 0 then results
        else
          let Voc_local := SengP - SengN in
          let I := Voc_local / (R_star * (1 + m_val)) in
          let V_load := I * m_val * R_star in
          let P_out := I * V_load in
          let eta := P_out / cr_Qin p * 100 in
          append_sample results Th_val V_load eta m_val I R_star
  end.

Definition sweep_Couple
    (Sum_pst Sum_prt Sum_ptaut Sum_nst Sum_nrt Sum_ntaut : poly) : curve :=
  fold_left (sample_step_Couple Sum_pst Sum_prt Sum_ptaut Sum_nst Sum_nrt Sum_ntaut)
    (linspace (cr_Th_sc p) (cr_Th_oc p) n_samples) empty_curve.

(** [_generate_Couple_curve_data] *)
Definition generate_Couple_curve_data : result curve :=
  let Sum_pst := polyint p_s in
  let Sum_prt := polyint p_r in
  let Sum_nst := polyint n_s in
  let Sum_nrt := polyint n_r in
  p_taut <- convolve (polyder p_s) [1; 0] ;;
  let Sum_ptaut := polyint p_taut in
  n_taut <- convolve (polyder n_s) [1; 0] ;;
  let Sum_ntaut := polyint n_taut in
  let results := sweep_Couple Sum_pst Sum_prt Sum_ptaut Sum_nst Sum_nrt Sum_ntaut in
  Ok (close_curve results (cr_Th_sc p) (cr_Th_oc p) (cr_Voc p) (cr_Isc p) (cr_R_star_opt p)).

End CoupleCurve.

(** [last_results]: [None], or the dictionary of the last successful run
    with its ["mode"]. *)
Inductive last_results : Type :=
| NoResults
| SingleMode (p : single_results)
| CoupleMode (p : couple_results).





(** ** Curve fitter: [extract_data_from_text] and [parse_input] *)

(** What the fitter takes from the Python runtime and from NumPy. *)
Record Runtime : Type := {
  (** [float(s)] on a token: the value, or [ValueError]. *)
  py_float : string -> result R;
  (** [eval(expr, {'T': x, 't': x, 'np': np})] *)
  py_eval : string -> R -> result R;
  (** the least-squares solve inside [np.polyfit], once its argument
      checks have passed *)
  lstsq_fit : list R -> list R -> nat -> poly
}.

Module Parse.

Local Open Scope string_scope.
Local Open Scope char_scope.

(** *** Strings *)

Definition is_space (c : ascii) : bool :=
  let n := nat_of_ascii c in
  ((9 <=? n) && (n <=? 13) || (28 <=? n) && (n <=? 32))%nat.

Definition is_digit (c : ascii) : bool :=
  let n := nat_of_ascii c in ((48 <=? n) && (n <=? 57))%nat.

(** [s.replace(c, '')] for a one-character [c] *)
Fixpoint remove_char (c : ascii) (s : string) : string :=
  match s with
  | EmptyString => EmptyString
  | String a s' => if Ascii.eqb a c then remove_char c s' else String a (remove_char c s')
  end.

(** [s.replace(c, t)] for a one-character [c] *)
Fixpoint replace_char (c : ascii) (t : string) (s : string) : string :=
  match s with
  | EmptyString => EmptyString
  | String a s' =>
      if Ascii.eqb a c then append t (replace_char c t s')
      else String a (replace_char c t s')
  end.

(** [c in s] *)
Fixpoint mem_char (c : ascii) (s : string) : bool :=
  match s with
  | EmptyString => false
  | String a s' => Ascii.eqb a c || mem_char c s'
  end.

Fixpoint lstrip (s : string) : string :=
  match s with
  | String a s' => if is_space a then lstrip s' else s
  | EmptyString => EmptyString
  end.

Fixpoint rev_string (s acc : string) : string :=
  match s with
  | EmptyString => acc
  | String a s' => rev_string s' (String a acc)
  end.

(** [s.strip()] *)
Definition strip (s : string) : string :=
  rev_string (lstrip (rev_string (lstrip s) EmptyString)) EmptyString.

(** [s.split()]: the maximal runs of non-space characters. *)
Fixpoint split_ws (s : string) (cur : string) : list string :=
  match s with
  | EmptyString =>
      match cur with EmptyString => [] | _ => [rev_string cur EmptyString] end
  | String a s' =>
      if is_space a then
        match cur with
        | EmptyString => split_ws s' EmptyString
        | _ => rev_string cur EmptyString :: split_ws s' EmptyString
        end
      else split_ws s' (String a cur)
  end.

Definition split (s : string) : list string := split_ws s EmptyString.

Definition startswith (c : ascii) (s : string) : bool :=
  match s with String a _ => Ascii.eqb a c | EmptyString => false end.

Definition endswith (c : ascii) (s : string) : bool :=
  startswith c (rev_string s EmptyString).

(** [s[1:-1]] *)
Definition slice_1_m1 (s : string) : string :=
  match s with
  | EmptyString => EmptyString
  | String _ s' =>
      match rev_string s' EmptyString with
      | EmptyString => EmptyString
      | String _ r => rev_string r EmptyString
      end
  end.


(** *** The regular expressions of [extract_data_from_text]

    Each of the four patterns is a sequence of literals and of greedy
    repetitions of one character class, two of them inside a capturing
    group; [re.search] tries the start positions from the left and, at
    each, the longest repetitions first. *)

Inductive quant : Type := Star | Plus.

Inductive re_item : Type :=
| Lit (s : string)
| Rep (q : quant) (cls : ascii -> bool)
| Cap (q : quant) (cls : ascii -> bool).

Fixpoint strip_prefix (l s : string) : option string :=
  match l, s with
  | EmptyString, _ => Some s
  | String a l', String b s' => if Ascii.eqb a b then strip_prefix l' s' else None
  | String _ _, EmptyString => None
  end.

(** Greedy repetition with backtracking: [taken] holds the characters
    consumed so far, last first. *)
Fixpoint greedy {A : Type} (cls : ascii -> bool) (s : string) (taken : string)
    (k : string -> string -> option A) : option A :=
  match s with
  | EmptyString => k (rev_string taken EmptyString) s
  | String a s' =>
      if cls a then
        match greedy cls s' (String a taken) k with
        | Some r => Some r
        | None => k (rev_string taken EmptyString) s
        end
      else k (rev_string taken EmptyString) s
  end.

Definition at_least (q : quant) (consumed : string) : bool :=
  match q, consumed with
  | Plus, EmptyString => false
  | _, _ => true
  end.

(** A match anchored at the start of [s]: the captured groups, in order. *)
Fixpoint match_here (r : list re_item) (s : string) : option (list string) :=
  match r with
  | [] => Some []
  | Lit l :: r' =>
      match strip_prefix l s with
      | Some s' => match_here r' s'
      | None => None
      end
  | Rep q cls :: r' =>
      greedy cls s EmptyString
        (fun consumed rest => if at_least q consumed then match_here r' rest else None)
  | Cap q cls :: r' =>
      greedy cls s EmptyString
        (fun consumed rest =>
           if at_least q consumed
           then option_map (cons consumed) (match_here r' rest)
           else None)
  end.

(** [re.search]: the groups of the leftmost match. *)
Fixpoint search (r : list re_item) (s : string) : option (list string) :=
  match match_here r s with
  | Some g => Some g
  | None =>
      match s with
      | EmptyString => None
      | String _ s' => search r s'
      end
  end.

(** [\s], [[-\d\.eE]] and [[^\]]] *)
Definition cls_factor (c : ascii) : bool :=
  Ascii.eqb c "-" || is_digit c || Ascii.eqb c "." || Ascii.eqb c "e" || Ascii.eqb c "E".

Definition cls_not_rbracket (c : ascii) : bool := negb (Ascii.eqb c "]").

Definition ws : re_item := Rep Star is_space.

(** [r'%s\s*=\s*([-\d\.eE]+)\s*\*\s*\[([^\]]+)\]' % varname] *)
Definition re_scaled (varname : string) : list re_item :=
  [Lit varname; ws; Lit "="; ws; Cap Plus cls_factor; ws; Lit "*"; ws; Lit "[";
   Cap Plus cls_not_rbracket; Lit "]"].

(** [r'%s\s*=\s*1\./\s*\[([^\]]+)\]' % varname] *)
Definition re_reciprocal (varname : string) : list re_item :=
  [Lit varname; ws; Lit "="; ws; Lit "1./"; ws; Lit "["; Cap Plus cls_not_rbracket; Lit "]"].

(** [r'%s\s*=\s*-\s*\[([^\]]+)\]' % varname] *)
Definition re_negated (varname : string) : list re_item :=
  [Lit varname; ws; Lit "="; ws; Lit "-"; ws; Lit "["; Cap Plus cls_not_rbracket; Lit "]"].

(** [r'%s\s*=\s*\[([^\]]+)\]' % varname] *)
Definition re_plain (varname : string) : list re_item :=
  [Lit varname; ws; Lit "="; ws; Lit "["; Cap Plus cls_not_rbracket; Lit "]"].

(** *** The fitter *)

Section Fitter.

Variable rt : Runtime.

Fixpoint map_result {A B : Type} (f : A -> result B) (l : list A) : result (list B) :=
  match l with
  | [] => Ok []
  | a :: l' => b <- f a ;; bs <- map_result f l' ;; Ok (b :: bs)
  end.

(** [[float(x.replace('E','e')) for x in g.replace(',', ' ').split()]] *)
Definition floats_of_group (g : string) : result (list R) :=
  map_result (fun x => py_float rt (replace_char "E" "e" x))
    (split (replace_char "," " " g)).

(** [extract_data_from_text]: [Ok None] is the final [return None]. *)
Definition extract_data_from_text (txt varname : string) : result (option (list R)) :=
  let txt := remove_char ";" (remove_char "010" txt) in
  match search (re_scaled varname) txt with
  | Some [g1; g2] =>
      factor <- py_float rt g1 ;;
      arr <- floats_of_group g2 ;;
      Ok (Some (map (fun x => x * factor)%R arr))
  | _ =>
  match search (re_reciprocal varname) txt with
  | Some [g1] =>
      arr <- floats_of_group g1 ;;
      Ok (Some (map (fun x => 1 / x)%R arr))
  | _ =>
  match search (re_negated varname) txt with
  | Some [g1] =>
      arr <- floats_of_group g1 ;;
      Ok (Some (map Ropp arr))
  | _ =>
  match search (re_plain varname) txt with
  | Some [g1] =>
      arr <- floats_of_group g1 ;;
      Ok (Some arr)
  | _ => Ok None
  end end end end.

(** [np.polyfit(x, y, deg)]: the argument checks that can fail on two
    one-dimensional arrays, then the least-squares solve. *)
Definition polyfit (x y : list R) (deg : nat) : result poly :=
  if (List.length x =? 0)%nat then Raise (TypeError "expected non-empty vector for x")
  else if negb (List.length x =? List.length y)%nat
       then Raise (TypeError "expected x and y to have same length")
       else Ok (lstsq_fit rt x y deg).

Definition failed_to_parse (varname : string) : string :=
  append "Failed to parse " (append varname " input").

(** The temperature and value arrays [arrx, arry] that [parse_input]
    looks for, by property. *)
Definition extract_pair (txt varname : string)
  : result (option (list R) * option (list R)) :=
  if String.eqb varname "S" then
    ax <- extract_data_from_text txt "Ts" ;;
    ay <- extract_data_from_text txt "s_t" ;; Ok (ax, ay)
  else if String.eqb varname "k" then
    ax <- extract_data_from_text txt "Tk" ;;
    ay <- extract_data_from_text txt "k_t" ;; Ok (ax, ay)
  else if String.eqb varname "rho" then
    ax <- extract_data_from_text txt "Tr" ;;
    ay <- extract_data_from_text txt "r_t" ;; Ok (ax, ay)
  else Ok (None, None).

(** [txt.startswith('[') and txt.endswith(']')] *)
Definition bracketed (txt : string) : bool :=
  startswith "[" txt && endswith "]" txt.

(** [('T' in txt or 't' in txt) and ('=' not in txt)] *)
Definition is_formula (txt : string) : bool :=
  (mem_char "T" txt || mem_char "t" txt) && negb (mem_char "=" txt).

(** [parse_input(txt, varname, deg=4)] *)
Definition parse_input (txt varname : string) (deg : nat) : result poly :=
  let txt := strip txt in
  arrs <- extract_pair txt varname ;;
  match arrs with
  | (Some arrx, Some arry) => polyfit arrx arry deg
  | _ =>
      if bracketed txt then
        map_result (py_float rt)
          (split (replace_char "," " " (remove_char ";" (slice_1_m1 txt))))
      else if is_formula txt then
        let expr := replace_char "^" "**" txt in
        let xs := linspace 300 900 13 in
        ys <- map_result (py_eval rt expr) xs ;;
        polyfit xs ys deg
      else Raise (ValueError (failed_to_parse varname))
  end.

End Fitter.

(** The default [deg=4] of [parse_input]. *)
Definition default_deg : nat := 4.

End Parse.

(** ** What is assumed of the library routines *)

(** A quadrature with non-negative weights that integrates constants
    exactly, like the exact integral, bounds the integral of a continuous
    integrand from below by the integral of any constant under it. *)
Definition quad_lower_bound (q : (R -> R) -> R -> R -> R) : Prop :=
  forall (f : R -> R) (c a b : R),
    a <= b ->
    (forall x, a <= x <= b -> continuity_pt f x) ->
    (forall x, a <= x <= b -> c <= f x) ->
    c * (b - a) <= q f a b.

(** [brentq] returns a point of its bracket. *)
Definition brentq_in_bracket (rs : (R -> R) -> R -> R -> option R) : Prop :=
  forall (f : R -> R) (a b r : R), a <= b -> rs f a b = Some r -> a <= r <= b.

(** [brentq] raises [ValueError] when [f(a)] and [f(b)] have the same sign. *)
Definition brentq_needs_sign_change (rs : (R -> R) -> R -> R -> option R) : Prop :=
  forall (f : R -> R) (a b : R), 0 < f a * f b -> rs f a b = None.

(** A root finder has converged at [x] when the residual vanishes there. *)
Definition converged (f : R -> R) (x : R) : Prop := f x = 0.

(** ** Reference instances of the library routines *)

(** Simpson's rule: positive weights, exact up to degree three. *)
Definition simpson (f : R -> R) (a b : R) : R :=
  (b - a) / 6 * (f a + 4 * f ((a + b) / 2) + f b).

(** A root finder that returns a root whenever the residual has one. *)
Definition ideal_fsolve (f : R -> R) (x0 : R) : R :=
  epsilon (inhabits x0) (fun x => f x = 0).

(** [brentq] on an ideal machine: [ValueError] without a sign change;
    otherwise a point of the bracket, a root if the bracket holds one. *)
Definition ideal_brentq (f : R -> R) (a b : R) : option R :=
  if Rlt_dec 0 (f a * f b) then None
  else Some (epsilon (inhabits a)
               (fun r => a <= r <= b /\
                         ((exists z, a <= z <= b /\ f z = 0) -> f r = 0))).

Definition ref_scipy : Scipy :=
  {| quad := simpson; fsolve := ideal_fsolve; root_scalar := ideal_brentq |}.

(** [float] on the finite decimal literals
    [[+-] digits [. digits] [(e|E) [+-] digits]]. *)
Module Float.

Local Open Scope char_scope.

Fixpoint take_digits (s : string) (acc : Z) (n : nat) : Z * nat * string :=
  match s with
  | String a s' =>
      if Parse.is_digit a
      then take_digits s' (10 * acc + Z.of_nat (nat_of_ascii a - 48)) (S n)
      else (acc, n, s)
  | EmptyString => (acc, n, s)
  end.

Definition take_sign (s : string) : bool * string :=
  match s with
  | String a s' =>
      if Ascii.eqb a "-" then (true, s')
      else if Ascii.eqb a "+" then (false, s')
      else (false, s)
  | EmptyString => (false, s)
  end.

(** Mantissa and decimal exponent of a literal. *)
Definition scan (s : string) : option (Z * Z) :=
  let '(neg, s1) := take_sign s in
  let '(ip, ni, s2) := take_digits s1 0 0 in
  let '(mant, nf, s3) :=
    match s2 with
    | String a s2' => if Ascii.eqb a "." then take_digits s2' ip 0 else (ip, 0%nat, s2)
    | EmptyString => (ip, 0%nat, s2)
    end in
  if (ni + nf =? 0)%nat then None
  else
    let mant := if neg then (- mant)%Z else mant in
    match s3 with
    | EmptyString => Some (mant, (- Z.of_nat nf)%Z)
    | String a s3' =>
        if Ascii.eqb a "e" || Ascii.eqb a "E" then
          let '(eneg, s4) := take_sign s3' in
          let '(ev, ne, s5) := take_digits s4 0 0 in
          match ne, s5 with
          | S _, EmptyString =>
              Some (mant, ((if eneg then - ev else ev) - Z.of_nat nf)%Z)
          | _, _ => None
          end
        else None
    end.

Definition value (mant e : Z) : R :=
  if (0 <=? e)%Z then IZR (mant * 10 ^ e) else IZR mant / IZR (10 ^ (- e)).

Definition decimal_float (s : string) : result R :=
  match scan s with
  | Some (mant, e) => Ok (value mant e)
  | None =>
      Raise (ValueError (append "could not convert string to float: '" (append s "'")))
  end.

End Float.

(** A runtime whose [float] reads decimal literals. *)
Definition runtime_with (ev : string -> R -> result R)
    (fit : list R -> list R -> nat -> poly) : Runtime :=
  {| py_float := Float.decimal_float; py_eval := ev; lstsq_fit := fit |}.

(** ** Vocabulary of the statements *)




(** The number of samples the sweep kept. *)
Definition n_swept_single (sp : Scipy) (p : single_results) : nat :=
  List.length
    (c_th (sweep_single sp p (polyint (sr_s_poly p)) (polyint (sr_r_poly p))
             (polyint (convolve_full (polyder (sr_s_poly p)) [1; 0])))).

Definition n_swept_Couple (sp : Scipy) (p : couple_results) : nat :=
  List.length
    (c_th (sweep_Couple sp p
             (polyint (cr_p_s_poly p)) (polyint (cr_p_r_poly p))
             (polyint (convolve_full (polyder (cr_p_s_poly p)) [1; 0]))
             (polyint (cr_n_s_poly p)) (polyint (cr_n_r_poly p))
             (polyint (convolve_full (polyder (cr_n_s_poly p)) [1; 0])))).

(** The six lists of a curve grow together. *)
Definition aligned (r : curve) : Prop :=
  List.length (c_v_load r) = List.length (c_th r) /\
  List.length (c_eta r) = List.length (c_th r) /\
  List.length (c_m r) = List.length (c_th r) /\
  List.length (c_i r) = List.length (c_th r) /\
  List.length (c_rstar r) = List.length (c_th r).

(** A loop iteration either leaves [results] as it was or appends one
    sample, whose load voltage satisfies [Q]. *)
Definition appends_or_skips (Q : R -> Prop) (step : curve -> R -> curve) : Prop :=
  forall r th,
    step r th = r \/
    exists V eta m I Rs, step r th = append_sample r th V eta m I Rs /\ Q V.



(** ** Concrete inputs *)

(** Constant properties: S = 2e-4 V/K, kappa = 1.5 W/(m K), rho = 4e-6 Ohm m.
    The Seebeck polynomial has two coefficients, as [np.convolve] needs a
    non-empty derivative. *)
Definition s_const : poly := [0; 2e-4].
Definition s_const_neg : poly := [0; -2e-4].
Definition k_const : poly := [1.5].
Definition r_const : poly := [4e-6].

(** A stored single-leg result whose short-circuit temperature lies below
    [Tc], as [fsolve] leaves it when it stops short of a root: the sweep
    runs over 252, 253, ..., 301 K and only its last sample is above [Tc]. *)
Definition p_one : single_results :=
  {| sr_s_poly := s_const; sr_k_poly := k_const; sr_r_poly := r_const;
     sr_Qin := 3e-3; sr_Tc := 300; sr_Tmax := 600; sr_Lmax := 1;
     sr_gamma_c_h := 0; sr_gamma_c_c := 0;
     sr_alpha := 1e-3; sr_m_opt := 2; sr_Th_sc := 252; sr_Th_oc := 301;
     sr_Voc := 2e-4; sr_eff := 0.125; sr_Vopt := 0.04; sr_Isc := 0.05;
     sr_R_star_opt := 4e-3; sr_R_L_opt := 8e-3;
     sr_Th_opt := 301; sr_I_opt := 0.02 |}.

(** The same for a couple whose legs are swapped: the P leg carries the
    negative Seebeck coefficient, the N leg the positive one. *)
Definition p_swapped : couple_results :=
  {| cr_p_s_poly := s_const_neg; cr_p_k_poly := k_const; cr_p_r_poly := r_const;
     cr_n_s_poly := s_const; cr_n_k_poly := k_const; cr_n_r_poly := r_const;
     cr_Qin := 3e-3; cr_Tc := 300; cr_Tmax := 600; cr_Lmax := 1;
     cr_rc_ph := 0; cr_rc_pc := 0; cr_rc_nh := 0; cr_rc_nc := 0;
     cr_alpha := 1e-3; cr_alphaP := 5e-4; cr_alphaN := 5e-4; cr_beta := 1;
     cr_m_opt := 2; cr_Th_sc := 252; cr_Th_oc := 301; cr_Voc := -4e-4;
     cr_eff := 0.125; cr_Pmax := 3.75e-4; cr_Vopt := -0.08; cr_Isc := -0.025;
     cr_R_star_opt := 1.6e-2; cr_R_L_opt := 3.2e-2;
     cr_Th_opt := 301; cr_I_opt := -0.01 |}.

(** ** Vocabulary for the sampled curve *)

(** One sample of a curve: the entries the six lists hold at the same
    index. *)
Record sample : Type := {
  s_th : R; s_v_load : R; s_eta : R; s_m : R; s_i : R; s_rstar : R
}.

Definition sample_at (r : curve) (i : nat) : sample :=
  {| s_th := nth i (c_th r) 0; s_v_load := nth i (c_v_load r) 0;
     s_eta := nth i (c_eta r) 0; s_m := nth i (c_m r) 0;
     s_i := nth i (c_i r) 0; s_rstar := nth i (c_rstar r) 0 |}.

(** The samples of a curve, in order. *)
Definition samples (r : curve) : list sample :=
  map (sample_at r) (seq 0 (List.length (c_th r))).

(** [subseq l l']: [l] is [l'] with some elements left out, the others
    in the same order. *)
Inductive subseq {A : Type} : list A -> list A -> Prop :=
| subseq_nil : subseq [] []
| subseq_skip (x : A) (l l' : list A) : subseq l l' -> subseq l (x :: l')
| subseq_keep (x : A) (l l' : list A) : subseq l l' -> subseq (x :: l) (x :: l').

(** A loop iteration either leaves [results] as it was or appends one
    sample at the swept temperature, which satisfies [Q]. *)
Definition keeps_or_skips (Q : R -> sample -> Prop) (step : curve -> R -> curve) : Prop :=
  forall r th,
    step r th = r \/
    exists V eta m I Rs,
      step r th = append_sample r th V eta m I Rs /\
      Q th {| s_th := th; s_v_load := V; s_eta := eta; s_m := m; s_i := I; s_rstar := Rs |}.

(** ** [_plot_curves]: the efficiency curve at fixed [Th = Tmax]

    Only the numeric block between the two marker comments is modelled;
    it runs under [try ... except Exception: pass], so an exception
    leaves the plot without the dashed curve ([None]). *)

Definition plot_eps : R := 1e-16.

(** [self._dash_curve_export] *)
Record dash_curve : Type := {
  d_m : list R; d_v : list R; d_eta : list R; d_th : list R
}.

(** The element-wise lines that end both branches,
    [eta_dash = np.maximum(0.0, (m_arr / (1.0 + m_arr)) / np.maximum(bracket, eps)) * 100.0]
    and [v_dash = Voc_fixed * (m_arr / (1.0 + m_arr))], and the dictionary
    built from them. *)
Definition dash_points (Th_fix Voc_fixed : R) (bracket : R -> R) (m_arr : list R)
  : dash_curve :=
  let eta_dash := fun m => Rmax 0 (m / (1 + m) / Rmax (bracket m) plot_eps) * 100 in
  let v_dash := fun m => Voc_fixed * (m / (1 + m)) in
  {| d_m := m_arr; d_v := map v_dash m_arr; d_eta := map eta_dash m_arr;
     d_th := map (fun _ => Th_fix) m_arr |}.

(** The branch [lr['mode'] == 'single']. *)
Definition dash_curve_single (sp : Scipy) (lr : single_results) (data : curve)
  : option dash_curve :=
  let m_arr := c_m data in
  let Tc := sr_Tc lr in
  let Th_fix := sr_Tmax lr in
  let dT := Th_fix - Tc in
  if Rlt_dec 0 dT then
    if (2 <=? List.length m_arr)%nat then
      let s_poly := sr_s_poly lr in
      let k_poly := sr_k_poly lr in
      let r_poly := sr_r_poly lr in
      let Sum_s := polyint s_poly in
      let Sum_r := polyint r_poly in
      let Seng := polyval Sum_s Th_fix - polyval Sum_s Tc in
      let Keng := safe_polyint_k sp k_poly Tc Th_fix k_min_default in
      let Reng := polyval Sum_r Th_fix - polyval Sum_r Tc in
      match py_div (dT * (sr_gamma_c_h lr + sr_gamma_c_c lr)) (sr_Lmax lr) with
      | Raise _ => None
      | Ok contact =>
          let Reng_plus := Reng + contact in
          match convolve (polyder s_poly) [1; 0] with
          | Raise _ => None
          | Ok taut_poly =>
              let Sum_taut := polyint taut_poly in
              let I_tau := nested_int sp Sum_taut Tc Th_fix in
              let I_rho := nested_int sp Sum_r Tc Th_fix in
              let ZT_eng :=
                if Rlt_dec 0 Keng then
                  if Rlt_dec 0 Reng_plus then Seng ^ 2 * dT / (Keng * Reng_plus) else 0
                else 0 in
              let s_Th := polyval s_poly Th_fix in
              let gamma_h := sr_gamma_c_h lr in
              let Lmax := sr_Lmax lr in
              let Voc_fixed := Rabs Seng in
              let eps := plot_eps in
              let denom_common := fun m => dT * (1 + m) * (Reng_plus + 0) in
              let bracket := fun m =>
                (1 + m) / (ZT_eng + eps)
                + Th_fix * s_Th / (Seng + eps)
                - I_tau / (dT + eps) / (Seng + eps)
                - (I_rho + dT ^ 2 * gamma_h / Rmax Lmax eps) / Rmax (denom_common m) eps in
              Some (dash_points Th_fix Voc_fixed bracket m_arr)
          end
      end
    else None
  else None.

(** The branch for a couple. *)
Definition dash_curve_Couple (sp : Scipy) (lr : couple_results) (data : curve)
  : option dash_curve :=
  let m_arr := c_m data in
  let Tc := cr_Tc lr in
  let Th_fix := cr_Tmax lr in
  let dT := Th_fix - Tc in
  if Rlt_dec 0 dT then
    if (2 <=? List.length m_arr)%nat then
      let p_s := cr_p_s_poly lr in
      let p_k := cr_p_k_poly lr in
      let p_r := cr_p_r_poly lr in
      let n_s := cr_n_s_poly lr in
      let n_k := cr_n_k_poly lr in
      let n_r := cr_n_r_poly lr in
      let Sum_ps := polyint p_s in
      let Sum_pr := polyint p_r in
      let Sum_ns := polyint n_s in
      let Sum_nr := polyint n_r in
      let SengP := polyval Sum_ps Th_fix - polyval Sum_ps Tc in
      let SengN := polyval Sum_ns Th_fix - polyval Sum_ns Tc in
      let KengP := safe_polyint_k sp p_k Tc Th_fix k_min_default in
      let KengN := safe_polyint_k sp n_k Tc Th_fix k_min_default in
      let RengP := polyval Sum_pr Th_fix - polyval Sum_pr Tc in
      let RengN := polyval Sum_nr Th_fix - polyval Sum_nr Tc in
      match py_div (dT * (cr_rc_ph lr + cr_rc_pc lr)) (cr_Lmax lr),
            py_div (dT * (cr_rc_nh lr + cr_rc_nc lr)) (cr_Lmax lr) with
      | Ok contactP, Ok contactN =>
          let RengP_plus := RengP + contactP in
          let RengN_plus := RengN + contactN in
          match convolve (polyder p_s) [1; 0], convolve (polyder n_s) [1; 0] with
          | Ok p_taut, Ok n_taut =>
              let Sum_ptaut := polyint p_taut in
              let Sum_ntaut := polyint n_taut in
              let I_tau_P := nested_int sp Sum_ptaut Tc Th_fix in
              let I_tau_N := nested_int sp Sum_ntaut Tc Th_fix in
              let I_rho_P := nested_int sp Sum_pr Tc Th_fix in
              let I_rho_N := nested_int sp Sum_nr Tc Th_fix in
              let dS := SengP - SengN in
              let denom_Z :=
                (sqrt (Rmax KengP 0 * Rmax RengP_plus 0)
                 + sqrt (Rmax KengN 0 * Rmax RengN_plus 0)) ^ 2 in
              let ZT_eng := if Rlt_dec 0 denom_Z then dS ^ 2 * dT / denom_Z else 0 in
              let beta := cr_beta lr in
              let sp_Th := polyval p_s Th_fix in
              let sn_Th := polyval n_s Th_fix in
              let Lmax := cr_Lmax lr in
              let gamma_ph := cr_rc_ph lr in
              let gamma_nh := cr_rc_nh lr in
              let Voc_fixed := Rabs dS in
              let eps := plot_eps in
              let denom_common := fun m => dT * (1 + m) * (RengP_plus + beta * RengN_plus) in
              let bracket := fun m =>
                (1 + m) / (ZT_eng + eps)
                + Th_fix * (sp_Th - sn_Th) / (dS + eps)
                - (I_tau_P - I_tau_N) / (dT + eps) / (dS + eps)
                - (I_rho_P + beta * I_rho_N
                   + dT ^ 2 * (gamma_ph + beta * gamma_nh) / Rmax Lmax eps)
                  / Rmax (denom_common m) eps in
              Some (dash_points Th_fix Voc_fixed bracket m_arr)
          | _, _ => None
          end
      | _, _ => None
      end
    else None
  else None.

(** ** [_export_plot_data]: the table copied to the clipboard

    The table is modelled before its cells are formatted with
    [f"{x:.10g}"] and joined with tabs.  The whole body runs under
    [try], so an [IndexError] ends in the "Export failed" box ([None]). *)






(** A curve of three samples: the two endpoint samples and, between
    them, a sample at load ratio 2. *)
Definition demo_data : curve :=
  {| c_th := [484; 600; 967]; c_v_load := [0; 0.04; 0.13]; c_eta := [0; 25; 0];
     c_m := [0; 2; 1e9]; c_i := [12; 5; 0]; c_rstar := [4e-3; 4e-3; 4e-3] |}.

(** ** Unit conversion *)

Section Units.

Variable rt : Runtime.

Local Open Scope string_scope.

Definition unit_convert_temp (val unit : string) : result R :=
  if String.eqb unit "K" then py_float rt val
  else if String.eqb unit "°C" then v <- py_float rt val ;; Ok (v + 273.15)
  else Raise (ValueError "Unsupported temperature unit").

Definition unit_convert_length (val unit : string) : result R :=
  if String.eqb unit "m" then py_float rt val
  else if String.eqb unit "mm" then v <- py_float rt val ;; Ok (v / 1000)
  else Raise (ValueError "Unsupported length unit").

Definition unit_convert_resist (val unit : string) : result R :=
  v <- py_float rt val ;;
  if String.eqb unit "Ω·m²" then Ok v
  else if String.eqb unit "Ω·cm²" then Ok (v * 1e-4)
  else if String.eqb unit "Ω·mm²" then Ok (v * 1e-6)
  else Raise (ValueError "Unsupported contact resistivity unit").

End Units.

(** ** [TEGFrame.on_calc]: from the widgets to the stored results *)

(** The entries and variables [on_calc] reads outside the
    contact-resistance area; the three material boxes of each leg hold
    the pasted texts. *)
Record inputs : Type := {
  mode_var : string;
  tmax_entry : string; tmax_unit_var : string;
  tc_entry : string; tc_unit_var : string;
  qin_entry : string;
  use_resist_var : string;
  single_S : string; single_k : string; single_rho : string;
  p_S : string; p_k : string; p_rho : string;
  n_S : string; n_k : string; n_rho : string
}.

(** The widgets of the contact-resistance area ([build_resist_inputs]). *)
Record resist_inputs : Type := {
  l_entry : string; lmax_unit_var : string;
  gamma_h_entry : string; gamma_h_unit_var : string;
  gamma_c_entry : string; gamma_c_unit_var : string;
  gamma_ph_entry : string; gamma_ph_unit_var : string;
  gamma_pc_entry : string; gamma_pc_unit_var : string;
  gamma_nh_entry : string; gamma_nh_unit_var : string;
  gamma_nc_entry : string; gamma_nc_unit_var : string
}.

(** The body of the [try] of [on_calc], up to the assignment of
    [self.last_results]; the text shown afterwards is display. *)
Definition on_calc_run (rt : Runtime) (sp : Scipy) (f : inputs) (c : resist_inputs)
  : result last_results :=
  Tmax <- unit_convert_temp rt (tmax_entry f) (tmax_unit_var f) ;;
  Tc <- unit_convert_temp rt (tc_entry f) (tc_unit_var f) ;;
  Qin <- py_float rt (qin_entry f) ;;
  let use_resist := String.eqb (use_resist_var f) "Yes" in
  Lmax <- (if use_resist then unit_convert_length rt (l_entry c) (lmax_unit_var c)
           else Ok 1) ;;
  if String.eqb (mode_var f) "single" then
    s_poly <- Parse.parse_input rt (single_S f) "S" Parse.default_deg ;;
    k_poly <- Parse.parse_input rt (single_k f) "k" Parse.default_deg ;;
    r_poly <- Parse.parse_input rt (single_rho f) "rho" Parse.default_deg ;;
    gammas <- (if use_resist then
                 gh <- unit_convert_resist rt (gamma_h_entry c) (gamma_h_unit_var c) ;;
                 gc <- unit_convert_resist rt (gamma_c_entry c) (gamma_c_unit_var c) ;;
                 Ok (gh, gc)
               else Ok (0, 0)) ;;
    let '(gamma_c_h, gamma_c_c) := gammas in
    res <- on_calc_single sp s_poly k_poly r_poly Tmax Tc Qin use_resist Lmax
             gamma_c_h gamma_c_c ;;
    Ok (SingleMode res)
  else
    p_s_poly <- Parse.parse_input rt (p_S f) "S" Parse.default_deg ;;
    p_k_poly <- Parse.parse_input rt (p_k f) "k" Parse.default_deg ;;
    p_r_poly <- Parse.parse_input rt (p_rho f) "rho" Parse.default_deg ;;
    n_s_poly <- Parse.parse_input rt (n_S f) "S" Parse.default_deg ;;
    n_k_poly <- Parse.parse_input rt (n_k f) "k" Parse.default_deg ;;
    n_r_poly <- Parse.parse_input rt (n_rho f) "rho" Parse.default_deg ;;
    rcs <- (if use_resist then
              rc_ph <- unit_convert_resist rt (gamma_ph_entry c) (gamma_ph_unit_var c) ;;
              rc_pc <- unit_convert_resist rt (gamma_pc_entry c) (gamma_pc_unit_var c) ;;
              rc_nh <- unit_convert_resist rt (gamma_nh_entry c) (gamma_nh_unit_var c) ;;
              rc_nc <- unit_convert_resist rt (gamma_nc_entry c) (gamma_nc_unit_var c) ;;
              Ok (rc_ph, rc_pc, rc_nh, rc_nc)
            else Ok (0, 0, 0, 0)) ;;
    let '(rc_ph, rc_pc, rc_nh, rc_nc) := rcs in
    res <- on_calc_Couple sp p_s_poly p_k_poly p_r_poly n_s_poly n_k_poly n_r_poly
             Tmax Tc Qin use_resist Lmax rc_ph rc_pc rc_nh rc_nc ;;
    Ok (CoupleMode res).

(** [self.last_results] after [on_calc]: set to [None] first, assigned by
    a run that raises nothing, and set to [None] again by the handler. *)
Definition on_calc (rt : Runtime) (sp : Scipy) (f : inputs) (c : resist_inputs)
  : last_results :=
  match on_calc_run rt sp f c with
  | Ok lr => lr
  | Raise _ => NoResults
  end.

(** ** The custom material library *)

Section CustomLib.

(** A material is a JSON object; [name_key m] is [m["name"]] when the
    key is present. *)
Variable material : Type.
Variable name_key : material -> option string.

(** [m.get("name", "")] *)
Definition get_name (m : material) : string :=
  match name_key m with
  | Some n => n
  | None => EmptyString
  end.

(** [names.index(x)] *)
Fixpoint list_index (x : string) (names : list string) : option nat :=
  match names with
  | [] => None
  | n :: names' =>
      if String.eqb n x then Some O else option_map S (list_index x names')
  end.

(** [mats[i] = entry] *)
Fixpoint set_item (mats : list material) (i : nat) (entry : material)
  : option (list material) :=
  match mats, i with
  | [], _ => None
  | _ :: mats', O => Some (entry :: mats')
  | m :: mats', S i' => option_map (cons m) (set_item mats' i' entry)
  end.

(** [save_material_to_custom_lib(entry)]: from the list
    [load_custom_materials] returns to the list written back; [None]
    when a lookup raises. *)
Definition save_material_to_custom_lib (entry : material) (mats : list material)
  : option (list material) :=
  let names := map get_name mats in
  match name_key entry with
  | None => None
  | Some entry_name =>
      if existsb (String.eqb entry_name) names then
        match list_index entry_name names with
        | Some i => set_item mats i entry
        | None => None
        end
      else Some (mats ++ [entry])
  end.

End CustomLib.

(** ** Concrete inputs of a run *)

Section DemoInputs.

Local Open Scope string_scope.

(** A single-leg run on constant properties between 300 K and 600 K,
    without contact resistance. *)
Definition demo_inputs : inputs :=
  {| mode_var := "single";
     tmax_entry := "600"; tmax_unit_var := "K";
     tc_entry := "300"; tc_unit_var := "K";
     qin_entry := "1";
     use_resist_var := "No";
     single_S := "[0 2e-4]"; single_k := "[1.5]"; single_rho := "[4e-6]";
     p_S := ""; p_k := ""; p_rho := "";
     n_S := ""; n_k := ""; n_rho := "" |}.

(** The contact-resistance area left empty, and filled in. *)
Definition blank_resist : resist_inputs :=
  {| l_entry := ""; lmax_unit_var := "mm";
     gamma_h_entry := ""; gamma_h_unit_var := "Ω·m²";
     gamma_c_entry := ""; gamma_c_unit_var := "Ω·m²";
     gamma_ph_entry := ""; gamma_ph_unit_var := "Ω·m²";
     gamma_pc_entry := ""; gamma_pc_unit_var := "Ω·m²";
     gamma_nh_entry := ""; gamma_nh_unit_var := "Ω·m²";
     gamma_nc_entry := ""; gamma_nc_unit_var := "Ω·m²" |}.

Definition demo_resist : resist_inputs :=
  {| l_entry := "2"; lmax_unit_var := "mm";
     gamma_h_entry := "1e-9"; gamma_h_unit_var := "Ω·m²";
     gamma_c_entry := "1e-5"; gamma_c_unit_var := "Ω·cm²";
     gamma_ph_entry := "1e-9"; gamma_ph_unit_var := "Ω·m²";
     gamma_pc_entry := "1e-9"; gamma_pc_unit_var := "Ω·m²";
     gamma_nh_entry := "1e-9"; gamma_nh_unit_var := "Ω·m²";
     gamma_nc_entry := "1e-9"; gamma_nc_unit_var := "Ω·m²" |}.

End DemoInputs.

(** A runtime that reads decimal literals, has no [eval] and fits the
    zero polynomial. *)
Definition decimal_runtime : Runtime :=
  runtime_with (fun _ _ => Raise (EvalError "eval is not available"))
    (fun _ _ deg => repeat 0 (S deg)).

(** * Properties *)

(** ** The error monad *)

Lemma bind_Ok_inv {A B : Type} (r : result A) (k : A -> result B) (b : B) :
  bind r k = Ok b -> exists a, r = Ok a /\ k a = Ok b.
Proof.
  destruct r as [a | e]; simpl; intros H.
  - exists a. split; [reflexivity | exact H].
  - discriminate H.
Qed.

Lemma Ok_inj {A : Type} (a b : A) : Ok a = Ok b -> a = b.
Proof. intros H. injection H as H. exact H. Qed.

Lemma py_div_Ok_inv (x y v : R) :
  py_div x y = Ok v -> y <> 0 /\ v = x / y.
Proof.
  unfold py_div. destruct (Req_dec_T y 0) as [Hy | Hy]; intros H.
  - discriminate H.
  - injection H as <-. split; [exact Hy | reflexivity].
Qed.

Lemma py_div_nonzero (x y : R) : y <> 0 -> py_div x y = Ok (x / y).
Proof.
  intros Hy. unfold py_div. destruct (Req_dec_T y 0) as [H | H]; [contradiction | reflexivity].
Qed.

Lemma convolve_Ok_inv (a v c : list R) :
  convolve a v = Ok c -> a <> [] /\ v <> [] /\ c = convolve_full a v.
Proof.
  destruct a as [| x a]; [discriminate |].
  destruct v as [| y v]; [discriminate |].
  simpl. intros H. injection H as <-. repeat split; discriminate.
Qed.

Lemma convolve_nonempty (a v : list R) :
  a <> [] -> v <> [] -> convolve a v = Ok (convolve_full a v).
Proof.
  destruct a as [| x a]; [intros H; contradiction |].
  destruct v as [| y v]; [intros _ H; contradiction | reflexivity].
Qed.

(** ** The guarded characteristic resistance *)

Lemma R_star_of_value (alpha dT R1 : R) :
  R_star_of alpha dT R1 =
  Ok (if Req_dec_T alpha 0 then 0
      else if Req_dec_T dT 0 then 0 else (1 / alpha) * (1 / dT) * R1).
Proof.
  unfold R_star_of.
  destruct (Req_dec_T alpha 0); [reflexivity |].
  destruct (Req_dec_T dT 0) as [Hd | Hd]; [reflexivity |].
  rewrite (py_div_nonzero 1 dT Hd). reflexivity.
Qed.


Lemma R_star_of_Ok_inv (alpha dT R1 v : R) :
  R_star_of alpha dT R1 = Ok v ->
  v = (if Req_dec_T alpha 0 then 0
       else if Req_dec_T dT 0 then 0 else (1 / alpha) * (1 / dT) * R1).
Proof.
  rewrite R_star_of_value. intros H. injection H as <-. reflexivity.
Qed.


(** ** Single-leg optimiser *)

(** What a successful run of [run_calc_single] has established, local by
    local. *)
Lemma run_calc_single_locals_inv sp p_st p_kt p_rt Qin Tc Tmax L gh gc l :
  run_calc_single_locals sp p_st p_kt p_rt Qin Tc Tmax L gh gc = Ok l ->
  polyder p_st <> [] /\ Tmax <> 0 /\ L <> 0 /\
  sl_deltaT l = Tmax - Tc /\
  sl_effc l = (Tmax - Tc) / Tmax /\
  sl_KengP l = safe_polyint_k sp p_kt Tc Tmax k_min_default /\
  sl_RengP1 l = sl_RengP l + (Tmax - Tc) * (gh + gc) / L /\
  sl_ZT_eng l = sl_SengP l ^ 2 * sl_deltaT l / sl_KengP l / sl_RengP1 l /\
  sl_m l = sqrt (1 + sl_ZT_eng l * sl_a1 l / sl_effc l) /\
  sl_eff l = sl_effc l * (sqrt (1 + sl_ZT_eng l * sl_a1 l / sl_effc l) - 1)
             / (sl_a0 l * sqrt (1 + sl_ZT_eng l * sl_a1 l / sl_effc l) + sl_a2 l) /\
  sl_alpha l = Qin / sl_den l /\
  R_star_of (sl_alpha l) (sl_deltaT l) (sl_RengP1 l) = Ok (sl_R_star_opt l) /\
  R_star_of (sl_alpha l) (sl_dt_sc l) (sl_RengP1_sc l) = Ok (sl_R_star_sc l) /\
  sl_dt_sc l = sl_Th_sc l - Tc /\
  sl_Isc l = (if Req_dec_T (sl_R_star_sc l) 0 then 0
              else Rabs (sl_SengP_sc l / sl_R_star_sc l)) /\
  sl_R_L_opt l = sl_m l * sl_R_star_opt l.
Proof.
  unfold run_calc_single_locals. intros H.
  apply bind_Ok_inv in H. destruct H as [p_taut [Hc H]].
  apply convolve_Ok_inv in Hc. destruct Hc as [Hder [_ ->]].
  apply bind_Ok_inv in H. destruct H as [effc [He H]].
  apply py_div_Ok_inv in He. destruct He as [HT ->].
  apply bind_Ok_inv in H. destruct H as [contact [Hk H]].
  apply py_div_Ok_inv in Hk. destruct Hk as [HL ->].
  apply bind_Ok_inv in H. destruct H as [Rso [Hso H]].
  apply bind_Ok_inv in H. destruct H as [Rsc [Hsc H]].
  injection H as <-. cbn [sl_deltaT sl_effc sl_KengP sl_RengP1 sl_RengP sl_ZT_eng sl_SengP
    sl_m sl_a0 sl_a1 sl_a2 sl_eff sl_alpha sl_den sl_R_star_opt sl_R_star_sc sl_dt_sc
    sl_RengP1_sc sl_Th_sc sl_Isc sl_SengP_sc sl_R_L_opt].
  repeat split; try assumption; try reflexivity.
Qed.

(** [run_calc_single] returns whenever the Seebeck polynomial has at
    least two coefficients and neither [Tmax] nor [L] is zero. *)
Lemma run_calc_single_locals_returns sp p_st p_kt p_rt Qin Tc Tmax L gh gc :
  polyder p_st <> [] -> Tmax <> 0 -> L <> 0 ->
  exists l, run_calc_single_locals sp p_st p_kt p_rt Qin Tc Tmax L gh gc = Ok l.
Proof.
  intros Hder HT HL. unfold run_calc_single_locals.
  rewrite (convolve_nonempty _ _ Hder) by discriminate. cbn [bind].
  rewrite (py_div_nonzero _ _ HT). cbn [bind].
  rewrite (py_div_nonzero _ _ HL). cbn [bind].
  rewrite R_star_of_value. cbn [bind].
  rewrite R_star_of_value. cbn [bind].
  eexists. reflexivity.
Qed.


(** ** The load-curve sampler *)

Lemma aligned_empty : aligned empty_curve.
Proof. repeat split. Qed.

Lemma aligned_append r Th V eta m I Rs :
  aligned r -> aligned (append_sample r Th V eta m I Rs).
Proof.
  intros (H1 & H2 & H3 & H4 & H5). unfold aligned, append_sample; cbn.
  rewrite !length_app; cbn. repeat split; lia.
Qed.

Lemma appends_or_skips_aligned Q step :
  appends_or_skips Q step -> forall r th, aligned r -> aligned (step r th).
Proof.
  intros H r th Hr. destruct (H r th) as [-> | (V & eta & m & I & Rs & -> & _)].
  - exact Hr.
  - apply aligned_append, Hr.
Qed.


Lemma fold_left_aligned (step : curve -> R -> curve) :
  (forall r th, aligned r -> aligned (step r th)) ->
  forall l r, aligned r -> aligned (fold_left step l r).
Proof.
  intros Hstep l. induction l as [| th l IH]; intros r Hr; cbn.
  - exact Hr.
  - apply IH, Hstep, Hr.
Qed.


Lemma close_curve_nonempty r Th_sc Th_oc Voc Isc Ro :
  c_th r <> [] ->
  close_curve r Th_sc Th_oc Voc Isc Ro =
  {| c_th := Th_sc :: c_th r ++ [Th_oc];
     c_v_load := 0 :: c_v_load r ++ [Voc];
     c_eta := 0 :: c_eta r ++ [0];
     c_m := 0 :: c_m r ++ [1e9];
     c_i := Isc :: c_i r ++ [0];
     c_rstar := Ro :: c_rstar r ++ [Ro] |}.
Proof.
  intros H. unfold close_curve. destruct (c_th r); [contradiction | reflexivity].
Qed.

Lemma length_zero_nil {A : Type} (l : list A) : List.length l = 0%nat -> l = [].
Proof. destruct l; [reflexivity | discriminate]. Qed.

Lemma length_pos_not_nil {A : Type} (l : list A) : (1 <= List.length l)%nat -> l <> [].
Proof. destruct l; cbn; [lia | discriminate]. Qed.


Lemma sample_step_single_any sp p Ss Sr St :
  appends_or_skips (fun _ => True) (sample_step_single sp p Ss Sr St).
Proof.
  intros r th. unfold sample_step_single.
  destruct (root_scalar sp _ bracket_lo bracket_hi) as [m |]; [| left; reflexivity].
  destruct (Rle_dec (th - sr_Tc p) 0); [left; reflexivity |].
  destruct (R_star_of _ _ _) as [Rs | e]; [| left; reflexivity].
  destruct (Rle_dec Rs 0); [left; reflexivity |].
  right. do 5 eexists. split; [reflexivity | exact I].
Qed.

Lemma sample_step_Couple_any sp p S1 S2 S3 S4 S5 S6 :
  appends_or_skips (fun _ => True) (sample_step_Couple sp p S1 S2 S3 S4 S5 S6).
Proof.
  intros r th. unfold sample_step_Couple.
  destruct (root_scalar sp _ bracket_lo bracket_hi) as [m |]; [| left; reflexivity].
  destruct (Rle_dec (th - cr_Tc p) 0); [left; reflexivity |].
  destruct (Rle_dec _ 0); [left; reflexivity |].
  right. do 5 eexists. split; [reflexivity | exact I].
Qed.

Lemma sweep_single_aligned sp p Ss Sr St : aligned (sweep_single sp p Ss Sr St).
Proof.
  unfold sweep_single. apply fold_left_aligned; [| apply aligned_empty].
  apply (appends_or_skips_aligned (fun _ => True)), sample_step_single_any.
Qed.

Lemma sweep_Couple_aligned sp p S1 S2 S3 S4 S5 S6 :
  aligned (sweep_Couple sp p S1 S2 S3 S4 S5 S6).
Proof.
  unfold sweep_Couple. apply fold_left_aligned; [| apply aligned_empty].
  apply (appends_or_skips_aligned (fun _ => True)), sample_step_Couple_any.
Qed.

(** The generators return exactly when [np.convolve] does. *)
Lemma generate_single_Ok_inv sp p d :
  generate_single_leg_curve_data sp p = Ok d ->
  d = close_curve
        (sweep_single sp p (polyint (sr_s_poly p)) (polyint (sr_r_poly p))
           (polyint (convolve_full (polyder (sr_s_poly p)) [1; 0])))
        (sr_Th_sc p) (sr_Th_oc p) (sr_Voc p) (sr_Isc p) (sr_R_star_opt p).
Proof.
  unfold generate_single_leg_curve_data. intros H.
  apply bind_Ok_inv in H. destruct H as [pt [Hc H]].
  apply convolve_Ok_inv in Hc. destruct Hc as (_ & _ & ->).
  injection H as <-. reflexivity.
Qed.

Lemma generate_Couple_Ok_inv sp p d :
  generate_Couple_curve_data sp p = Ok d ->
  d = close_curve
        (sweep_Couple sp p
           (polyint (cr_p_s_poly p)) (polyint (cr_p_r_poly p))
           (polyint (convolve_full (polyder (cr_p_s_poly p)) [1; 0]))
           (polyint (cr_n_s_poly p)) (polyint (cr_n_r_poly p))
           (polyint (convolve_full (polyder (cr_n_s_poly p)) [1; 0])))
        (cr_Th_sc p) (cr_Th_oc p) (cr_Voc p) (cr_Isc p) (cr_R_star_opt p).
Proof.
  unfold generate_Couple_curve_data. intros H.
  apply bind_Ok_inv in H. destruct H as [pt [Hc H]].
  apply convolve_Ok_inv in Hc. destruct Hc as (_ & _ & ->).
  apply bind_Ok_inv in H. destruct H as [nt [Hc H]].
  apply convolve_Ok_inv in Hc. destruct Hc as (_ & _ & ->).
  injection H as <-. reflexivity.
Qed.

Lemma n_swept_single_v_load sp p :
  List.length
    (c_v_load (sweep_single sp p (polyint (sr_s_poly p)) (polyint (sr_r_poly p))
                 (polyint (convolve_full (polyder (sr_s_poly p)) [1; 0]))))
  = n_swept_single sp p.
Proof.
  unfold n_swept_single.
  exact (proj1 (sweep_single_aligned sp p _ _ _)).
Qed.

Lemma n_swept_Couple_v_load sp p :
  List.length
    (c_v_load (sweep_Couple sp p
                 (polyint (cr_p_s_poly p)) (polyint (cr_p_r_poly p))
                 (polyint (convolve_full (polyder (cr_p_s_poly p)) [1; 0]))
                 (polyint (cr_n_s_poly p)) (polyint (cr_n_r_poly p))
                 (polyint (convolve_full (polyder (cr_n_s_poly p)) [1; 0]))))
  = n_swept_Couple sp p.
Proof.
  unfold n_swept_Couple.
  exact (proj1 (sweep_Couple_aligned sp p _ _ _ _ _ _)).
Qed.

Lemma n_swept_single_th sp p :
  List.length
    (c_th (sweep_single sp p (polyint (sr_s_poly p)) (polyint (sr_r_poly p))
             (polyint (convolve_full (polyder (sr_s_poly p)) [1; 0]))))
  = n_swept_single sp p.
Proof. unfold n_swept_single. reflexivity. Qed.

Lemma n_swept_Couple_th sp p :
  List.length
    (c_th (sweep_Couple sp p
             (polyint (cr_p_s_poly p)) (polyint (cr_p_r_poly p))
             (polyint (convolve_full (polyder (cr_p_s_poly p)) [1; 0]))
             (polyint (cr_n_s_poly p)) (polyint (cr_n_r_poly p))
             (polyint (convolve_full (polyder (cr_n_s_poly p)) [1; 0]))))
  = n_swept_Couple sp p.
Proof. unfold n_swept_Couple. reflexivity. Qed.

(** The shape of a closed curve over any aligned sweep with a sample. *)
Lemma close_curve_shape r Th_sc Th_oc Voc Isc Ro n :
  aligned r -> List.length (c_th r) = n -> (1 <= n)%nat ->
  c_v_load (close_curve r Th_sc Th_oc Voc Isc Ro) = 0 :: c_v_load r ++ [Voc] /\
  c_i (close_curve r Th_sc Th_oc Voc Isc Ro) = Isc :: c_i r ++ [0] /\
  c_m (close_curve r Th_sc Th_oc Voc Isc Ro) = 0 :: c_m r ++ [1e9] /\
  c_rstar (close_curve r Th_sc Th_oc Voc Isc Ro) = Ro :: c_rstar r ++ [Ro] /\
  List.length (c_v_load r) = n /\ List.length (c_i r) = n /\
  List.length (c_m r) = n /\ List.length (c_rstar r) = n.
Proof.
  intros (H1 & H2 & H3 & H4 & H5) Hn Hpos.
  assert (Hnil : c_th r <> []) by (apply length_pos_not_nil; rewrite Hn; exact Hpos).
  rewrite (close_curve_nonempty _ _ _ _ _ _ Hnil). cbn.
  repeat split; try reflexivity; congruence.
Qed.



(** C10.  In a generated load curve, single-leg or couple, the prepended
    short-circuit element records m = 0, the appended open-circuit element
    records m = 1e9, which lies above the solve bracket [1e-12, 1e7], and
    both record the characteristic resistance [R_star_opt] of the design
    optimum. *)
Theorem C10_endpoint_sentinels (sp : Scipy) :
  (forall p d,
      generate_single_leg_curve_data sp p = Ok d ->
      (1 <= n_swept_single sp p)%nat ->
      exists ms rss,
        c_m d = 0 :: ms ++ [1e9] /\
        c_rstar d = sr_R_star_opt p :: rss ++ [sr_R_star_opt p] /\
        List.length ms = n_swept_single sp p /\
        List.length rss = n_swept_single sp p) /\
  (forall p d,
      generate_Couple_curve_data sp p = Ok d ->
      (1 <= n_swept_Couple sp p)%nat ->
      exists ms rss,
        c_m d = 0 :: ms ++ [1e9] /\
        c_rstar d = cr_R_star_opt p :: rss ++ [cr_R_star_opt p] /\
        List.length ms = n_swept_Couple sp p /\
        List.length rss = n_swept_Couple sp p) /\
  0 < bracket_lo /\ bracket_hi < 1e9.
Proof.
  split; [| split].
  - intros p d Hd Hn. apply generate_single_Ok_inv in Hd. subst d.
    destruct (close_curve_shape _ (sr_Th_sc p) (sr_Th_oc p) (sr_Voc p) (sr_Isc p)
                (sr_R_star_opt p) _ (sweep_single_aligned sp p _ _ _)
                (n_swept_single_th sp p) Hn)
      as (_ & _ & E3 & E4 & _ & _ & L3 & L4).
    eexists. eexists.
    split; [exact E3 |]. split; [exact E4 |]. split; [exact L3 | exact L4].
  - intros p d Hd Hn. apply generate_Couple_Ok_inv in Hd. subst d.
    destruct (close_curve_shape _ (cr_Th_sc p) (cr_Th_oc p) (cr_Voc p) (cr_Isc p)
                (cr_R_star_opt p) _ (sweep_Couple_aligned sp p _ _ _ _ _ _)
                (n_swept_Couple_th sp p) Hn)
      as (_ & _ & E3 & E4 & _ & _ & L3 & L4).
    eexists. eexists.
    split; [exact E3 |]. split; [exact E4 |]. split; [exact L3 | exact L4].
  - unfold bracket_lo, bracket_hi. lra.
Qed.




(** ** Evaluating the model on concrete inputs *)

Lemma polyval1 a x : polyval [a] x = a.
Proof. unfold polyval; simpl; ring. Qed.

Lemma polyval2 a b x : polyval [a; b] x = a * x + b.
Proof. unfold polyval; simpl; ring. Qed.

Lemma polyval3 a b c x : polyval [a; b; c] x = (a * x + b) * x + c.
Proof. unfold polyval; simpl; ring. Qed.

Lemma Rmax_floor_const k : 1e-5 <= k -> Rmax k 1e-5 = k.
Proof. intros; apply Rmax_left; assumption. Qed.

Ltac eval_polys :=
  unfold s_const, s_const_neg, k_const, r_const;
  cbn [polyint polyint_coeffs polyder convolve_full add_front map app List.length INR];
  rewrite ?polyval1, ?polyval2, ?polyval3.

Ltac eval_quads :=
  unfold safe_polyint_k, nested_int, ref_scipy, quad, simpson, safe_polyval_k,
    k_min_default;
  eval_polys; rewrite ?Rmax_floor_const by lra.

Lemma fold_left_skip {A B : Type} (step : A -> B -> A) (l : list B) (r : A) :
  (forall x, In x l -> step r x = r) -> fold_left step l r = r.
Proof.
  induction l as [| x l IH]; intros H; cbn; [reflexivity |].
  rewrite (H x) by (left; reflexivity).
  apply IH. intros y Hy. apply H. right. exact Hy.
Qed.


(** A sample that is not above [Tc] is skipped, whatever the solver says. *)
Lemma sample_step_single_cold sp p Ss Sr St r Th_val :
  Th_val <= sr_Tc p -> sample_step_single sp p Ss Sr St r Th_val = r.
Proof.
  intros H. unfold sample_step_single.
  destruct (root_scalar sp _ bracket_lo bracket_hi); [| reflexivity].
  destruct (Rle_dec (Th_val - sr_Tc p) 0); [reflexivity | lra].
Qed.


(** The sweep from 252 K to 301 K visits 252, 253, ..., 301. *)
Lemma linspace_252_301 :
  linspace 252 301 n_samples = map (fun i => 252 + INR i) (seq 0 49) ++ [301].
Proof.
  unfold linspace, n_samples.
  replace 50%nat with (S 49) at 2 by reflexivity.
  rewrite seq_S, map_app. cbn [map Nat.add Nat.sub].
  assert (H49 : INR 49 = 49) by (rewrite INR_IZR_INZ; reflexivity).
  f_equal.
  - apply map_ext. intros i. rewrite H49. lra.
  - rewrite H49. f_equal. lra.
Qed.

Lemma linspace_252_301_cold x :
  In x (map (fun i => 252 + INR i) (seq 0 49)) -> x <= 300.
Proof.
  intros H. apply in_map_iff in H. destruct H as [i [<- Hi]].
  apply in_seq in Hi.
  assert (INR i <= INR 48) by (apply le_INR; lia).
  assert (H48 : INR 48 = 48) by (rewrite INR_IZR_INZ; reflexivity).
  lra.
Qed.

Section POne.

Let Ss := polyint (sr_s_poly p_one).
Let Sr := polyint (sr_r_poly p_one).
Let St := polyint (convolve_full (polyder (sr_s_poly p_one)) [1; 0]).

(** The residual of [p_one] at 301 K, at the two ends of the bracket. *)
Lemma p_one_balance_301 m :
  m = bracket_lo \/ m = bracket_hi ->
  heat_balance_eq_single ref_scipy p_one Ss Sr St m 301
  = 1e-3 * (1.5 + 3.01 / (1 + m) - 0.005 / (1 + m) ^ 2) - 3e-3.
Proof.
  unfold bracket_lo, bracket_hi. intros Hm.
  unfold heat_balance_eq_single, Ss, Sr, St.
  cbn [p_one sr_s_poly sr_k_poly sr_r_poly sr_Qin sr_Tc sr_Lmax sr_gamma_c_h
       sr_gamma_c_c sr_alpha].
  eval_quads.
  destruct (Rlt_dec m 0); [destruct Hm; lra |].
  destruct (Rle_dec 301 (300 + 1e-6)); [lra |].
  match goal with
  | |- context [Rlt_dec (Rabs ?x) ?y] => destruct (Rlt_dec (Rabs x) y) as [H | H]
  end.
  { exfalso. revert H. rewrite Rabs_right by lra. lra. }
  destruct Hm; subst m; lra.
Qed.


Lemma p_one_brentq_301 :
  exists m, ideal_brentq (fun m => heat_balance_eq_single ref_scipy p_one Ss Sr St m 301)
              bracket_lo bracket_hi = Some m.
Proof.
  unfold ideal_brentq.
  rewrite !p_one_balance_301 by auto.
  destruct (Rlt_dec 0 _) as [H | H].
  - exfalso. revert H. unfold bracket_lo, bracket_hi. lra.
  - eexists. reflexivity.
Qed.


(** The sweep over [p_one] keeps exactly its last sample. *)
Lemma p_one_sweep :
  exists V eta m I Rs,
    sweep_single ref_scipy p_one Ss Sr St = append_sample empty_curve 301 V eta m I Rs.
Proof.
  unfold sweep_single.
  change (sr_Th_sc p_one) with 252. change (sr_Th_oc p_one) with 301.
  rewrite linspace_252_301, fold_left_app.
  rewrite (fold_left_skip _ (map (fun i => 252 + INR i) (seq 0 49))).
  2:{ intros x Hx. apply sample_step_single_cold. cbn [p_one sr_Tc].
      apply linspace_252_301_cold, Hx. }
  cbn [fold_left]. unfold sample_step_single.
  change (root_scalar ref_scipy) with ideal_brentq.
  destruct p_one_brentq_301 as [m Hm]. rewrite Hm.
  cbn [p_one sr_Tc sr_alpha sr_Lmax sr_gamma_c_h sr_gamma_c_c sr_Qin].
  destruct (Rle_dec (301 - 300) 0); [lra |].
  rewrite R_star_of_value.
  destruct (Req_dec_T 1e-3 0); [lra |].
  destruct (Req_dec_T (301 - 300) 0); [lra |].
  unfold Sr. cbn [p_one sr_r_poly]. eval_polys.
  destruct (Rle_dec _ 0) as [H | H]; [exfalso; lra |].
  do 5 eexists. reflexivity.
Qed.

Lemma p_one_n_swept : n_swept_single ref_scipy p_one = 1%nat.
Proof.
  unfold n_swept_single. fold Ss Sr St.
  destruct p_one_sweep as (V & eta & m & I & Rs & ->). reflexivity.
Qed.


Lemma p_one_generates :
  exists d, generate_single_leg_curve_data ref_scipy p_one = Ok d.
Proof.
  unfold generate_single_leg_curve_data.
  rewrite convolve_nonempty by (cbn; discriminate).
  eexists. reflexivity.
Qed.

End POne.

(** The reference [brentq] meets what is assumed of [brentq]. *)
Lemma ideal_brentq_in_bracket : brentq_in_bracket ideal_brentq.
Proof.
  intros f a b r Hab. unfold ideal_brentq.
  destruct (Rlt_dec 0 (f a * f b)); [discriminate |].
  intros H. injection H as <-.
  apply (epsilon_spec (inhabits a)
           (fun r => a <= r <= b /\ ((exists z, a <= z <= b /\ f z = 0) -> f r = 0))).
  destruct (Classical_Prop.classic (exists z, a <= z <= b /\ f z = 0)) as [[z [Hz Hfz]] | Hno].
  - exists z. split; [exact Hz | intros _; exact Hfz].
  - exists a. split; [lra | intros H; contradiction].
Qed.

Lemma ideal_brentq_needs_sign_change : brentq_needs_sign_change ideal_brentq.
Proof.
  intros f a b H. unfold ideal_brentq.
  destruct (Rlt_dec 0 (f a * f b)); [reflexivity | contradiction].
Qed.



(** C10, on [p_one]. *)
Lemma C10_witness :
  exists d ms rss,
    generate_single_leg_curve_data ref_scipy p_one = Ok d /\
    c_m d = 0 :: ms ++ [1e9] /\
    c_rstar d = 4e-3 :: rss ++ [4e-3] /\
    List.length ms = 1%nat /\ List.length rss = 1%nat.
Proof.
  destruct p_one_generates as [d Hd]. exists d.
  destruct (C10_endpoint_sentinels ref_scipy) as (Hs & _).
  destruct (Hs p_one d Hd) as (ms & rss & H1 & H2 & H3 & H4).
  - rewrite p_one_n_swept. apply le_n.
  - exists ms, rss. rewrite p_one_n_swept in H3, H4.
    repeat split; assumption.
Defined.


Section PSwapped.

Let S1 := polyint (cr_p_s_poly p_swapped).
Let S2 := polyint (cr_p_r_poly p_swapped).
Let S3 := polyint (convolve_full (polyder (cr_p_s_poly p_swapped)) [1; 0]).
Let S4 := polyint (cr_n_s_poly p_swapped).
Let S5 := polyint (cr_n_r_poly p_swapped).
Let S6 := polyint (convolve_full (polyder (cr_n_s_poly p_swapped)) [1; 0]).






End PSwapped.


(** ** The floored thermal-conductivity integral *)

Lemma continuity_pt_horner (p : poly) :
  forall (g : R -> R) (x0 : R),
    continuity_pt g x0 ->
    continuity_pt (fun x => fold_left (fun y c => y * x + c) p (g x)) x0.
Proof.
  induction p as [| c q IH]; intros g x0 Hg; cbn [fold_left].
  - exact Hg.
  - apply (IH (fun x => g x * x + c)).
    change (continuity_pt ((g * id) + fct_cte c)%F x0).
    apply continuity_pt_plus.
    + apply continuity_pt_mult; [exact Hg |].
      apply derivable_continuous_pt, derivable_pt_id.
    + apply continuity_pt_const. intros x y. reflexivity.
Qed.

Lemma continuity_pt_polyval (p : poly) (x0 : R) :
  continuity_pt (polyval p) x0.
Proof.
  unfold polyval.
  apply (continuity_pt_horner p (fun _ => 0)).
  apply continuity_pt_const. intros x y. reflexivity.
Qed.

Lemma Rmax_floor_lipschitz (a b k : R) :
  Rabs (Rmax a k - Rmax b k) <= Rabs (a - b).
Proof.
  unfold Rmax.
  destruct (Rle_dec a k), (Rle_dec b k); unfold Rabs;
    repeat match goal with |- context [Rcase_abs ?x] => destruct (Rcase_abs x) end; lra.
Qed.

Lemma continuity_pt_safe_polyval_k (p : poly) (k_min x0 : R) :
  continuity_pt (fun T => safe_polyval_k p T k_min) x0.
Proof.
  pose proof (continuity_pt_polyval p x0) as Hp.
  unfold continuity_pt, continue_in, limit1_in, limit_in in *.
  intros eps Heps. destruct (Hp eps Heps) as [alp [Halp H]].
  exists alp. split; [exact Halp |].
  intros x Hx. specialize (H x Hx).
  cbn [dist R_met] in *. unfold R_dist in *. unfold safe_polyval_k.
  eapply Rle_lt_trans; [apply Rmax_floor_lipschitz | exact H].
Qed.

(** The floor holds pointwise. *)
Lemma safe_polyval_k_floor (p : poly) (T k_min : R) :
  k_min <= safe_polyval_k p T k_min.
Proof. unfold safe_polyval_k. apply Rmax_r. Qed.

(** C5.  For a quadrature that bounds the integral of a continuous
    integrand from below by that of a constant under it (as the exact
    integral and every rule with non-negative weights do), for every
    property curve [p] and bounds [T1 <= T2], the floored
    thermal-conductivity integral with the default floor 1e-5 is at least
    [1e-5 * (T2 - T1)], hence never negative, whatever sign the polynomial
    takes on the interval. *)
Theorem C5_floored_integral_nonnegative (sp : Scipy) (p : poly) (T1 T2 : R) :
  quad_lower_bound (quad sp) ->
  T1 <= T2 ->
  k_min_default * (T2 - T1) <= safe_polyint_k sp p T1 T2 k_min_default /\
  0 <= safe_polyint_k sp p T1 T2 k_min_default.
Proof.
  intros Hq HT.
  assert (Hlow : k_min_default * (T2 - T1) <= safe_polyint_k sp p T1 T2 k_min_default).
  { unfold safe_polyint_k. apply Hq.
    - exact HT.
    - intros x _. apply continuity_pt_safe_polyval_k.
    - intros x _. apply safe_polyval_k_floor. }
  split; [exact Hlow |].
  eapply Rle_trans; [| exact Hlow].
  unfold k_min_default. apply Rmult_le_pos; lra.
Qed.

(** Simpson's rule is such a quadrature. *)
Lemma simpson_lower_bound : quad_lower_bound simpson.
Proof.
  intros f c a b Hab _ Hf. unfold simpson.
  pose proof (Hf a ltac:(lra)) as Ha.
  pose proof (Hf b ltac:(lra)) as Hb.
  pose proof (Hf ((a + b) / 2) ltac:(lra)) as Hm.
  nra.
Qed.

(** C5 on a conductivity curve [kappa(T) = 500 - T] that is negative above
    500 K, over [300, 900]. *)
Lemma C5_witness :
  polyval [-1; 500] 900 < 0 /\
  1e-5 * (900 - 300) <= safe_polyint_k ref_scipy [-1; 500] 300 900 1e-5 /\
  0 <= safe_polyint_k ref_scipy [-1; 500] 300 900 1e-5.
Proof.
  split.
  - rewrite polyval2. lra.
  - apply (C5_floored_integral_nonnegative ref_scipy [-1; 500] 300 900).
    + exact simpson_lower_bound.
    + lra.
Defined.

(** ** Couple optimiser *)

(** Turns the [let]s at the head of an equation into local definitions,
    so that the body of a long function is never expanded. *)
Ltac peel_lets H :=
  repeat
    lazymatch type of H with
    | (let x := ?e in @?b x) = ?r =>
        let y := fresh x in
        pose (y := e); change (b y = r) in H; cbv beta in H
    end.

(** What a successful run of [run_calc_Couple] has established. *)
Lemma run_calc_Couple_locals_inv sp Qin Tc Th L rc_nh rc_nc rc_ph rc_pc
    p_st p_kt p_rt n_st n_kt n_rt l :
  run_calc_Couple_locals sp Qin Tc Th L rc_nh rc_nc rc_ph rc_pc
    p_st p_kt p_rt n_st n_kt n_rt = Ok l ->
  polyder p_st <> [] /\ polyder n_st <> [] /\ Th <> 0 /\ L <> 0 /\
  cl_deltaT l = Th - Tc /\
  cl_KengP l = safe_polyint_k sp p_kt Tc Th k_min_default /\
  cl_KengN l = safe_polyint_k sp n_kt Tc Th k_min_default /\
  cl_RengP l = polyval (polyint p_rt) Th - polyval (polyint p_rt) Tc /\
  cl_RengN l = polyval (polyint n_rt) Th - polyval (polyint n_rt) Tc /\
  cl_RengP1 l = cl_RengP l + (Th - Tc) * (rc_ph + rc_pc) / L /\
  cl_RengN1 l = cl_RengN l + (Th - Tc) * (rc_nh + rc_nc) / L /\
  cl_beta l = (if Req_dec_T (cl_RengP1 l * cl_KengN l) 0 then 1
               else sqrt (cl_RengN1 l * cl_KengP l / (cl_RengP1 l * cl_KengN l))) /\
  cl_alphaN l = cl_beta l * cl_alphaP l /\
  cl_R_star_opt l =
    R_star_couple_of (cl_alphaP l) (cl_alphaN l) (cl_deltaT l) (cl_RengP1 l) (cl_RengN1 l) /\
  cl_R_L_opt l = cl_m l * cl_R_star_opt l /\
  cl_dt_sc l = cl_Th_sc l - Tc /\
  cl_SengP_sc l = polyval (polyint p_st) (cl_Th_sc l) - polyval (polyint p_st) Tc /\
  cl_SengN_sc l = polyval (polyint n_st) (cl_Th_sc l) - polyval (polyint n_st) Tc /\
  cl_R_star_sc l =
    R_star_couple_of (cl_alphaP l) (cl_alphaN l) (cl_dt_sc l)
      (cl_RengP1_sc l) (cl_RengN1_sc l) /\
  cl_Isc l = (if Req_dec_T (cl_R_star_sc l) 0 then 0
              else (cl_SengP_sc l - cl_SengN_sc l) / cl_R_star_sc l).
Proof.
  unfold run_calc_Couple_locals. intros H.
  apply bind_Ok_inv in H. destruct H as [p_taut [Hc H]].
  apply convolve_Ok_inv in Hc. destruct Hc as [Hpder [_ ->]].
  apply bind_Ok_inv in H. destruct H as [n_taut [Hc H]].
  apply convolve_Ok_inv in Hc. destruct Hc as [Hnder [_ ->]].
  apply bind_Ok_inv in H. destruct H as [effc [He H]].
  apply py_div_Ok_inv in He. destruct He as [HT ->].
  apply bind_Ok_inv in H. destruct H as [cP [Hk H]].
  apply py_div_Ok_inv in Hk. destruct Hk as [HL ->].
  apply bind_Ok_inv in H. destruct H as [cN [Hk H]].
  apply py_div_Ok_inv in Hk. destruct Hk as [_ ->].
  peel_lets H.
  apply Ok_inj in H. rewrite <- H.
  cbn [cl_deltaT cl_KengP cl_KengN cl_RengP cl_RengN cl_RengP1 cl_RengN1 cl_beta
       cl_alphaN cl_alphaP cl_R_star_opt cl_R_L_opt cl_m cl_dt_sc cl_Th_sc
       cl_SengP_sc cl_SengN_sc cl_R_star_sc cl_RengP1_sc cl_RengN1_sc cl_Isc].
  split; [exact Hpder |]. split; [exact Hnder |]. split; [exact HT |]. split; [exact HL |].
  repeat (split; [reflexivity |]). reflexivity.
Qed.

(** [run_calc_Couple] returns whenever both Seebeck polynomials have at
    least two coefficients and neither [Th] nor [L] is zero. *)
Lemma run_calc_Couple_locals_returns sp Qin Tc Th L rc_nh rc_nc rc_ph rc_pc
    p_st p_kt p_rt n_st n_kt n_rt :
  polyder p_st <> [] -> polyder n_st <> [] -> Th <> 0 -> L <> 0 ->
  exists l, run_calc_Couple_locals sp Qin Tc Th L rc_nh rc_nc rc_ph rc_pc
              p_st p_kt p_rt n_st n_kt n_rt = Ok l.
Proof.
  intros Hp Hn HT HL. unfold run_calc_Couple_locals.
  rewrite (convolve_nonempty _ _ Hp) by discriminate. cbn [bind].
  rewrite (convolve_nonempty _ _ Hn) by discriminate. cbn [bind].
  rewrite (py_div_nonzero _ _ HT). cbn [bind].
  rewrite !(py_div_nonzero _ _ HL). cbn [bind].
  eexists. reflexivity.
Qed.

(** C8.  Whenever [run_calc_Couple] returns and [RengP1 * KengN] is not
    zero, the area ratio it returns is
    [sqrt (RengN1 * KengP / (RengP1 * KengN))], where [RengP1], [RengN1] are
    the integrated resistivities plus the contact term
    [(Th - Tc) * (rc_h + rc_c) / L] and [KengP], [KengN] the floored
    conductivity integrals over [Tc, Th]. *)
Theorem C8_couple_area_ratio sp Qin Tc Th L rc_nh rc_nc rc_ph rc_pc
    p_st p_kt p_rt n_st n_kt n_rt l
    eff m alpha beta alphaP alphaN Pmax Vopt Th_sc Isc R_star_opt R_L_opt :
  run_calc_Couple_locals sp Qin Tc Th L rc_nh rc_nc rc_ph rc_pc
    p_st p_kt p_rt n_st n_kt n_rt = Ok l ->
  run_calc_Couple sp Qin Tc Th L rc_nh rc_nc rc_ph rc_pc
    p_st p_kt p_rt n_st n_kt n_rt
    = Ok (eff, m, alpha, beta, alphaP, alphaN, Pmax, Vopt, Th_sc, Isc, R_star_opt, R_L_opt) ->
  cl_RengP1 l * cl_KengN l <> 0 ->
  beta = sqrt (cl_RengN1 l * cl_KengP l / (cl_RengP1 l * cl_KengN l)) /\
  cl_RengP1 l = polyval (polyint p_rt) Th - polyval (polyint p_rt) Tc
                + (Th - Tc) * (rc_ph + rc_pc) / L /\
  cl_RengN1 l = polyval (polyint n_rt) Th - polyval (polyint n_rt) Tc
                + (Th - Tc) * (rc_nh + rc_nc) / L /\
  cl_KengP l = safe_polyint_k sp p_kt Tc Th k_min_default /\
  cl_KengN l = safe_polyint_k sp n_kt Tc Th k_min_default.
Proof.
  intros Hl Hr Hnz.
  unfold run_calc_Couple, fmap in Hr. rewrite Hl in Hr. cbn [bind] in Hr.
  unfold couple_return in Hr. injection Hr as _ _ _ Hbeta _ _ _ _ _ _ _ _.
  apply run_calc_Couple_locals_inv in Hl.
  destruct Hl as (_ & _ & _ & _ & _ & HKP & HKN & HRP & HRN & HRP1 & HRN1 & Hb & _).
  subst beta. rewrite Hb.
  destruct (Req_dec_T (cl_RengP1 l * cl_KengN l) 0) as [H0 | H0]; [contradiction |].
  rewrite HRP1, HRN1, HRP, HRN.
  repeat split; assumption.
Qed.

(** ** Degenerate geometry *)





(** ** The optimisation run *)

Lemma solve_Th_I_at_m_single_returns sp m Tc Qin Lmax gh gc s k r alpha :
  polyder s <> [] ->
  exists ti, solve_Th_I_at_m_single sp m Tc Qin Lmax gh gc s k r alpha = Ok ti.
Proof.
  intros Hs. unfold solve_Th_I_at_m_single.
  rewrite (convolve_nonempty _ _ Hs) by discriminate. cbn [bind]. cbv zeta.
  rewrite R_star_of_value. cbn [bind]. eexists. reflexivity.
Qed.

Lemma solve_Th_I_at_m_Couple_returns sp m beta Tc Qin Lmax rc_nh rc_nc rc_ph rc_pc
    p_s p_k p_r n_s n_k n_r alphaP :
  polyder p_s <> [] -> polyder n_s <> [] ->
  exists ti, solve_Th_I_at_m_Couple sp m beta Tc Qin Lmax rc_nh rc_nc rc_ph rc_pc
               p_s p_k p_r n_s n_k n_r alphaP = Ok ti.
Proof.
  intros Hp Hn. unfold solve_Th_I_at_m_Couple.
  rewrite (convolve_nonempty _ _ Hp) by discriminate. cbn [bind].
  rewrite (convolve_nonempty _ _ Hn) by discriminate. cbn [bind].
  eexists. reflexivity.
Qed.

(** What [on_calc] stores after a single-leg run. *)
Lemma on_calc_single_inv sp s k r Tmax Tc Qin use_resist L gh gc res :
  on_calc_single sp s k r Tmax Tc Qin use_resist L gh gc = Ok res ->
  exists l,
    run_calc_single_locals sp s k r Qin Tc Tmax
      (if use_resist then L else 1) (if use_resist then gh else 0)
      (if use_resist then gc else 0) = Ok l /\
    sr_alpha res = sl_alpha l /\
    sr_Isc res = sl_Isc l /\
    sr_Th_oc res = fsolve sp (eq_oc_single sp (sl_alpha l) k Tc Qin) Tmax /\
    sr_Voc res = Rabs (polyval (polyint s) (sr_Th_oc res) - polyval (polyint s) Tc).
Proof.
  unfold on_calc_single. intros H. cbv zeta in H.
  apply bind_Ok_inv in H. destruct H as [l [Hl H]].
  exists l. split; [exact Hl |].
  unfold single_return in H. cbv beta iota zeta in H.
  apply bind_Ok_inv in H. destruct H as [[Th_opt Iopt] [_ H]].
  apply Ok_inj in H. rewrite <- H. cbn [sr_alpha sr_Isc sr_Th_oc sr_Voc].
  repeat split; reflexivity.
Qed.

(** ... and after a couple run. *)
Lemma on_calc_Couple_inv sp ps pk pr ns nk nr Tmax Tc Qin use_resist L gph gpc gnh gnc res :
  on_calc_Couple sp ps pk pr ns nk nr Tmax Tc Qin use_resist L gph gpc gnh gnc = Ok res ->
  exists l,
    run_calc_Couple_locals sp Qin Tc Tmax (if use_resist then L else 1)
      (if use_resist then gnh else 0) (if use_resist then gnc else 0)
      (if use_resist then gph else 0) (if use_resist then gpc else 0)
      ps pk pr ns nk nr = Ok l /\
    cr_alphaP res = cl_alphaP l /\
    cr_alphaN res = cl_alphaN l /\
    cr_Isc res = cl_Isc l /\
    cr_Th_oc res
      = fsolve sp (eq_oc_Couple sp (cl_alphaP l) (cl_alphaN l) pk nk Tc Qin) Tmax /\
    cr_Voc res = (polyval (polyint ps) (cr_Th_oc res) - polyval (polyint ps) Tc)
                 - (polyval (polyint ns) (cr_Th_oc res) - polyval (polyint ns) Tc).
Proof.
  unfold on_calc_Couple. intros H. cbv zeta in H.
  apply bind_Ok_inv in H. destruct H as [l [Hl H]].
  exists l. split; [exact Hl |].
  unfold couple_return in H. cbv beta iota zeta in H.
  apply bind_Ok_inv in H. destruct H as [[Th_opt Iopt] [_ H]].
  apply Ok_inj in H. rewrite <- H. cbn [cr_alphaP cr_alphaN cr_Isc cr_Th_oc cr_Voc].
  repeat split; reflexivity.
Qed.

Lemma on_calc_single_returns sp s k r Tmax Tc Qin (use_resist : bool) (L : R) gh gc :
  polyder s <> [] -> Tmax <> 0 -> (if use_resist then L else 1) <> 0 ->
  exists res, on_calc_single sp s k r Tmax Tc Qin use_resist L gh gc = Ok res.
Proof.
  intros Hs HT HL. unfold on_calc_single. cbv zeta.
  destruct (run_calc_single_locals_returns sp s k r Qin Tc Tmax
              (if use_resist then L else 1) (if use_resist then gh else 0)
              (if use_resist then gc else 0) Hs HT HL) as [l Hl].
  rewrite Hl. cbn [bind]. unfold single_return. cbv beta iota zeta.
  destruct (solve_Th_I_at_m_single_returns sp (sl_m l) Tc Qin
              (if use_resist then L else 1) (if use_resist then gh else 0)
              (if use_resist then gc else 0) s k r (sl_alpha l) Hs) as [[Th_opt Iopt] Hti].
  rewrite Hti. cbn [bind]. eexists. reflexivity.
Qed.

Lemma on_calc_Couple_returns sp ps pk pr ns nk nr Tmax Tc Qin (use_resist : bool) (L : R)
    gph gpc gnh gnc :
  polyder ps <> [] -> polyder ns <> [] -> Tmax <> 0 -> (if use_resist then L else 1) <> 0 ->
  exists res,
    on_calc_Couple sp ps pk pr ns nk nr Tmax Tc Qin use_resist L gph gpc gnh gnc = Ok res.
Proof.
  intros Hp Hn HT HL. unfold on_calc_Couple. cbv zeta.
  destruct (run_calc_Couple_locals_returns sp Qin Tc Tmax (if use_resist then L else 1)
              (if use_resist then gnh else 0) (if use_resist then gnc else 0)
              (if use_resist then gph else 0) (if use_resist then gpc else 0)
              ps pk pr ns nk nr Hp Hn HT HL) as [l Hl].
  rewrite Hl. cbn [bind]. unfold couple_return. cbv beta iota zeta.
  destruct (solve_Th_I_at_m_Couple_returns sp (cl_m l) (cl_beta l) Tc Qin
              (if use_resist then L else 1)
              (if use_resist then gnh else 0) (if use_resist then gnc else 0)
              (if use_resist then gph else 0) (if use_resist then gpc else 0)
              ps pk pr ns nk nr (cl_alphaP l) Hp Hn) as [[Th_opt Iopt] Hti].
  rewrite Hti. cbn [bind]. eexists. reflexivity.
Qed.


(** C7.  The open-circuit hot-side temperature that [on_calc] stores is
    what [fsolve], seeded at [Tmax], returns for the pure-conduction
    residual.  Above [Tc] that residual is [alpha * K_int(Tc, Th) - Qin]
    in single-leg mode and [alphaP * K_P + alphaN * K_N - Qin] in couple
    mode, with no Seebeck, Joule or Thomson term; so whenever the solver has
    converged to a temperature above [Tc], that temperature is a root of
    the conduction identity. *)
Theorem C7_open_circuit_root (sp : Scipy) :
  (forall s k r Tmax Tc Qin use_resist L gh gc res,
      on_calc_single sp s k r Tmax Tc Qin use_resist L gh gc = Ok res ->
      sr_Th_oc res = fsolve sp (eq_oc_single sp (sr_alpha res) k Tc Qin) Tmax /\
      (forall Th, Tc < Th ->
         eq_oc_single sp (sr_alpha res) k Tc Qin Th
         = sr_alpha res * safe_polyint_k sp k Tc Th k_min_default - Qin) /\
      (converged (eq_oc_single sp (sr_alpha res) k Tc Qin) (sr_Th_oc res) ->
       Tc < sr_Th_oc res ->
       sr_alpha res * safe_polyint_k sp k Tc (sr_Th_oc res) k_min_default - Qin = 0)) /\
  (forall ps pk pr ns nk nr Tmax Tc Qin use_resist L gph gpc gnh gnc res,
      on_calc_Couple sp ps pk pr ns nk nr Tmax Tc Qin use_resist L gph gpc gnh gnc = Ok res ->
      cr_Th_oc res
        = fsolve sp (eq_oc_Couple sp (cr_alphaP res) (cr_alphaN res) pk nk Tc Qin) Tmax /\
      (forall Th, Tc < Th ->
         eq_oc_Couple sp (cr_alphaP res) (cr_alphaN res) pk nk Tc Qin Th
         = cr_alphaP res * safe_polyint_k sp pk Tc Th k_min_default
           + cr_alphaN res * safe_polyint_k sp nk Tc Th k_min_default - Qin) /\
      (converged (eq_oc_Couple sp (cr_alphaP res) (cr_alphaN res) pk nk Tc Qin)
         (cr_Th_oc res) ->
       Tc < cr_Th_oc res ->
       cr_alphaP res * safe_polyint_k sp pk Tc (cr_Th_oc res) k_min_default
       + cr_alphaN res * safe_polyint_k sp nk Tc (cr_Th_oc res) k_min_default - Qin = 0)).
Proof.
  assert (Hs : forall alpha k Tc Qin Th, Tc < Th ->
            eq_oc_single sp alpha k Tc Qin Th
            = alpha * safe_polyint_k sp k Tc Th k_min_default - Qin).
  { intros alpha k Tc Qin Th HTh. unfold eq_oc_single.
    destruct (Rlt_dec Tc Th); [reflexivity | contradiction]. }
  assert (Hc : forall aP aN pk nk Tc Qin Th, Tc < Th ->
            eq_oc_Couple sp aP aN pk nk Tc Qin Th
            = aP * safe_polyint_k sp pk Tc Th k_min_default
              + aN * safe_polyint_k sp nk Tc Th k_min_default - Qin).
  { intros aP aN pk nk Tc Qin Th HTh. unfold eq_oc_Couple.
    destruct (Rle_dec Th Tc); [lra | reflexivity]. }
  split.
  - intros s k r Tmax Tc Qin use_resist L gh gc res H.
    apply on_calc_single_inv in H. destruct H as (l & _ & Ha & _ & HTh & _).
    rewrite Ha. split; [exact HTh |]. split.
    + intros Th HT. apply Hs, HT.
    + unfold converged. intros Hconv HT. rewrite <- Hs by exact HT. exact Hconv.
  - intros ps pk pr ns nk nr Tmax Tc Qin use_resist L gph gpc gnh gnc res H.
    apply on_calc_Couple_inv in H. destruct H as (l & _ & HaP & HaN & _ & HTh & _).
    rewrite HaP, HaN. split; [exact HTh |]. split.
    + intros Th HT. apply Hc, HT.
    + unfold converged. intros Hconv HT. rewrite <- Hc by exact HT. exact Hconv.
Qed.

(** C2 (as amended).  In single-leg mode the short-circuit current and the
    open-circuit voltage are absolute values and so never negative.  In
    couple mode both carry the sign of the integrated Seebeck difference,
    P leg minus N leg: the open-circuit voltage is that difference over
    [Tc, Th_oc], and the short-circuit current is non-negative when the
    difference over [Tc, Th_sc] and the short-circuit characteristic
    resistance are. *)
Theorem C2_isc_voc_sign (sp : Scipy) :
  (forall s k r Tmax Tc Qin use_resist L gh gc res,
      on_calc_single sp s k r Tmax Tc Qin use_resist L gh gc = Ok res ->
      0 <= sr_Isc res /\ 0 <= sr_Voc res) /\
  (forall ps pk pr ns nk nr Tmax Tc Qin use_resist L gph gpc gnh gnc res,
      on_calc_Couple sp ps pk pr ns nk nr Tmax Tc Qin use_resist L gph gpc gnh gnc = Ok res ->
      cr_Voc res = (polyval (polyint ps) (cr_Th_oc res) - polyval (polyint ps) Tc)
                   - (polyval (polyint ns) (cr_Th_oc res) - polyval (polyint ns) Tc) /\
      exists l,
        run_calc_Couple_locals sp Qin Tc Tmax (if use_resist then L else 1)
          (if use_resist then gnh else 0) (if use_resist then gnc else 0)
          (if use_resist then gph else 0) (if use_resist then gpc else 0)
          ps pk pr ns nk nr = Ok l /\
        cr_Isc res = cl_Isc l /\
        (0 <= cl_SengP_sc l - cl_SengN_sc l -> 0 <= cl_R_star_sc l -> 0 <= cr_Isc res) /\
        (cl_SengP_sc l - cl_SengN_sc l < 0 -> 0 < cl_R_star_sc l -> cr_Isc res < 0)).
Proof.
  split.
  - intros s k r Tmax Tc Qin use_resist L gh gc res H.
    apply on_calc_single_inv in H. destruct H as (l & Hl & _ & HI & _ & HV).
    split.
    + rewrite HI. apply run_calc_single_locals_inv in Hl.
      destruct Hl as (_ & _ & _ & _ & _ & _ & _ & _ & _ & _ & _ & _ & _ & _ & HIsc & _).
      rewrite HIsc. destruct (Req_dec_T (sl_R_star_sc l) 0); [lra | apply Rabs_pos].
    + rewrite HV. apply Rabs_pos.
  - intros ps pk pr ns nk nr Tmax Tc Qin use_resist L gph gpc gnh gnc res H.
    apply on_calc_Couple_inv in H. destruct H as (l & Hl & _ & _ & HI & _ & HV).
    split; [exact HV |].
    exists l. split; [exact Hl |]. split; [exact HI |].
    apply run_calc_Couple_locals_inv in Hl.
    destruct Hl as (_ & _ & _ & _ & _ & _ & _ & _ & _ & _ & _ & _ & _ & _ & _ & _ & _ & _
                    & _ & HIsc).
    rewrite HI, HIsc.
    destruct (Req_dec_T (cl_R_star_sc l) 0) as [Hz | Hz]; split.
    + intros _ _. lra.
    + intros _ HR. lra.
    + intros HS HR. unfold Rdiv. apply Rmult_le_pos; [exact HS |].
      apply Rlt_le, Rinv_0_lt_compat. lra.
    + intros HS HR. unfold Rdiv. apply Rmult_neg_pos; [exact HS |].
      apply Rinv_0_lt_compat, HR.
Qed.


(** ** The reference root finder *)

Lemma ideal_fsolve_converges (f : R -> R) (x0 : R) :
  (exists x, f x = 0) -> converged f (ideal_fsolve f x0).
Proof.
  intros H. unfold converged, ideal_fsolve.
  apply (epsilon_spec (inhabits x0) (fun x => f x = 0)). exact H.
Qed.

(** ** Constant properties between 300 K and 600 K, single leg *)

Lemma sqrt_4 : sqrt 4 = 2.
Proof. replace 4 with (2 * 2) by lra. apply sqrt_square. lra. Qed.

Lemma demo_single_locals :
  exists l,
    run_calc_single_locals ref_scipy s_const k_const r_const 1 300 600 1 0 0 = Ok l /\
    sl_m l = 2 /\ sl_alpha l = 1e-3.
Proof.
  unfold run_calc_single_locals.
  rewrite convolve_nonempty by (cbn; discriminate). cbn [bind].
  rewrite (py_div_nonzero _ 600) by lra. cbn [bind].
  rewrite (py_div_nonzero _ 1) by lra. cbn [bind].
  rewrite !R_star_of_value. cbn [bind].
  eexists. split; [reflexivity |].
  cbn [sl_m sl_alpha]. eval_quads.
  match goal with
  | |- sqrt ?e = 2 /\ _ =>
      assert (Hm : sqrt e = 2) by (replace e with 4 by lra; exact sqrt_4)
  end.
  rewrite !Hm. split; [reflexivity | lra].
Qed.


Lemma demo_single_on_calc :
  exists res,
    on_calc_single ref_scipy s_const k_const r_const 600 300 1 false 1 0 0 = Ok res /\
    sr_alpha res = 1e-3 /\
    converged (eq_oc_single ref_scipy (sr_alpha res) k_const 300 1) (sr_Th_oc res) /\
    300 < sr_Th_oc res.
Proof.
  destruct (on_calc_single_returns ref_scipy s_const k_const r_const 600 300 1 false 1 0 0)
    as [res Hres]; [cbn; discriminate | lra | lra |].
  exists res. split; [exact Hres |].
  destruct (on_calc_single_inv _ _ _ _ _ _ _ _ _ _ _ _ Hres) as (l' & Hl' & Ha & _ & HTh & _).
  cbv iota in Hl'.
  destruct demo_single_locals as (l & Hl & _ & Hal).
  rewrite Hl in Hl'. apply Ok_inj in Hl'. subst l'.
  rewrite Hal in Ha, HTh.
  assert (Hconv : converged (eq_oc_single ref_scipy 1e-3 k_const 300 1) (sr_Th_oc res)).
  { rewrite HTh. change (fsolve ref_scipy) with ideal_fsolve.
    apply ideal_fsolve_converges. exists (300 + 2000 / 3).
    unfold eq_oc_single. destruct (Rlt_dec 300 (300 + 2000 / 3)); [| lra].
    eval_quads. lra. }
  rewrite Ha. split; [reflexivity |]. split; [exact Hconv |].
  unfold converged, eq_oc_single in Hconv.
  destruct (Rlt_dec 300 (sr_Th_oc res)); [assumption | lra].
Qed.

(** C7 on constant properties between 300 K and 600 K. *)
Lemma C7_witness :
  exists res,
    on_calc_single ref_scipy s_const k_const r_const 600 300 1 false 1 0 0 = Ok res /\
    300 < sr_Th_oc res /\
    sr_alpha res * safe_polyint_k ref_scipy k_const 300 (sr_Th_oc res) k_min_default - 1 = 0.
Proof.
  destruct demo_single_on_calc as (res & Hres & _ & Hconv & HTh).
  exists res. split; [exact Hres |]. split; [exact HTh |].
  destruct (C7_open_circuit_root ref_scipy) as [Hs _].
  destruct (Hs _ _ _ _ _ _ _ _ _ _ res Hres) as (_ & _ & Hroot).
  exact (Hroot Hconv HTh).
Defined.

(** C2 (as amended) on the same single-leg run. *)
Lemma C2_witness :
  exists res,
    on_calc_single ref_scipy s_const k_const r_const 600 300 1 false 1 0 0 = Ok res /\
    0 <= sr_Isc res /\ 0 <= sr_Voc res.
Proof.
  destruct demo_single_on_calc as (res & Hres & _).
  exists res. split; [exact Hres |].
  destruct (C2_isc_voc_sign ref_scipy) as [Hs _].
  exact (Hs _ _ _ _ _ _ _ _ _ _ res Hres).
Defined.


(** ** Constant properties between 300 K and 600 K, couple with swapped legs *)

Lemma sqrt_sum_sqr (x : R) : 0 <= x -> (sqrt x + sqrt x) ^ 2 = 4 * x.
Proof. intros Hx. pose proof (sqrt_sqrt x Hx). nra. Qed.

Ltac eval_couple_sqrts :=
  match goal with
  | |- context [Req_dec_T ?x 0] =>
      destruct (Req_dec_T x 0) as [H0 | H0]; [exfalso; lra |]
  end;
  match goal with
  | |- context [sqrt (?a / ?b)] =>
      replace (sqrt (a / b)) with 1
        by (replace (a / b) with 1 by lra; rewrite sqrt_1; reflexivity)
  end;
  match goal with
  | |- context [(sqrt ?a + sqrt ?b) ^ 2] =>
      replace b with a by lra;
      rewrite (sqrt_sum_sqr a) by lra
  end;
  match goal with
  | |- context [sqrt (1 + ?e)] =>
      replace (sqrt (1 + e)) with 2 by (replace (1 + e) with 4 by lra; symmetry; exact sqrt_4)
  end.

Lemma demo_couple_locals :
  exists l,
    run_calc_Couple_locals ref_scipy 1 300 600 1 0 0 0 0
      s_const_neg k_const r_const s_const k_const r_const = Ok l /\
    cl_beta l = 1 /\ cl_alphaP l = 5e-4.
Proof.
  unfold run_calc_Couple_locals.
  rewrite !convolve_nonempty by (cbn; discriminate). cbn [bind].
  rewrite (py_div_nonzero _ 600) by lra. cbn [bind].
  rewrite !(py_div_nonzero _ 1) by lra. cbn [bind].
  eexists. split; [reflexivity |].
  cbn [cl_beta cl_alphaP]. eval_quads.
  eval_couple_sqrts. split; [reflexivity | lra].
Qed.


(** C2 as stated fails: with the legs of a couple swapped (the P leg given
    the negative Seebeck coefficient), the run succeeds and stores a
    negative open-circuit voltage. *)
Lemma C2_counterexample :
  exists res,
    on_calc_Couple ref_scipy s_const_neg k_const r_const s_const k_const r_const
      600 300 1 false 1 0 0 0 0 = Ok res /\
    cr_Voc res < 0.
Proof.
  destruct (on_calc_Couple_returns ref_scipy s_const_neg k_const r_const
              s_const k_const r_const 600 300 1 false 1 0 0 0 0)
    as [res Hres]; [cbn; discriminate | cbn; discriminate | lra | lra |].
  exists res. split; [exact Hres |].
  destruct (on_calc_Couple_inv _ _ _ _ _ _ _ _ _ _ _ _ _ _ _ _ _ Hres)
    as (l' & Hl' & _ & _ & _ & HTh & HV).
  cbv iota in Hl'.
  destruct demo_couple_locals as (l & Hl & Hb & HaP).
  rewrite Hl in Hl'. apply Ok_inj in Hl'. subst l'.
  pose proof (run_calc_Couple_locals_inv _ _ _ _ _ _ _ _ _ _ _ _ _ _ _ _ Hl) as Hinv.
  destruct Hinv as (_ & _ & _ & _ & _ & _ & _ & _ & _ & _ & _ & _ & HaN & _).
  rewrite Hb, HaP in HaN. rewrite HaP, HaN in HTh.
  assert (Hconv : converged (eq_oc_Couple ref_scipy 5e-4 (1 * 5e-4) k_const k_const 300 1)
                    (cr_Th_oc res)).
  { rewrite HTh. change (fsolve ref_scipy) with ideal_fsolve.
    apply ideal_fsolve_converges. exists (300 + 2000 / 3).
    unfold eq_oc_Couple. destruct (Rle_dec (300 + 2000 / 3) 300); [lra |].
    eval_quads. lra. }
  assert (Hhot : 300 < cr_Th_oc res).
  { unfold converged, eq_oc_Couple in Hconv.
    destruct (Rle_dec (cr_Th_oc res) 300); lra. }
  rewrite HV. eval_polys. lra.
Qed.

(** C8 on a couple with constant, equal properties: the run returns with
    [RengP1 * KengN] non-zero and the area ratio is the square root. *)
Lemma C8_witness :
  exists l,
    run_calc_Couple_locals ref_scipy 1 300 600 1 0 0 0 0
      s_const k_const r_const s_const_neg k_const r_const = Ok l /\
    cl_RengP1 l * cl_KengN l <> 0 /\
    cl_beta l = sqrt (cl_RengN1 l * cl_KengP l / (cl_RengP1 l * cl_KengN l)).
Proof.
  destruct (run_calc_Couple_locals_returns ref_scipy 1 300 600 1 0 0 0 0
              s_const k_const r_const s_const_neg k_const r_const)
    as [l Hl]; [cbn; discriminate | cbn; discriminate | lra | lra |].
  exists l. split; [exact Hl |].
  assert (Hnz : cl_RengP1 l * cl_KengN l <> 0).
  { destruct (run_calc_Couple_locals_inv _ _ _ _ _ _ _ _ _ _ _ _ _ _ _ _ Hl)
      as (_ & _ & _ & _ & _ & _ & HKN & HRP & _ & HRP1 & _).
    rewrite HRP1, HRP, HKN. eval_quads. lra. }
  split; [exact Hnz |].
  apply (C8_couple_area_ratio ref_scipy 1 300 600 1 0 0 0 0
           s_const k_const r_const s_const_neg k_const r_const l
           (cl_eff l) (cl_m l) (cl_alpha l) (cl_beta l) (cl_alphaP l) (cl_alphaN l)
           (1 * cl_eff l) (cl_Vopt l) (cl_Th_sc l) (cl_Isc l) (cl_R_star_opt l)
           (cl_R_L_opt l) Hl).
  - unfold run_calc_Couple, fmap. rewrite Hl. reflexivity.
  - exact Hnz.
Defined.


(** ** The curve fitter *)

Import Parse.








(** * Further properties of the kernel *)

(** ** Which inputs the optimisers accept *)

Lemma polyder_nil_iff (p : poly) : polyder p = [] <-> (List.length p < 2)%nat.
Proof.
  destruct p as [| c [| d q]]; cbn [polyder List.length]; split; intros H;
    try reflexivity; try lia; discriminate H.
Qed.





(** ** The polynomial helpers as calculus *)

Lemma horner_from (q : poly) (x y0 : R) :
  fold_left (fun y c => y * x + c) q y0 = y0 * x ^ List.length q + polyval q x.
Proof.
  unfold polyval. revert y0. induction q as [| c q IH]; intros y0; cbn [fold_left List.length].
  - cbn. ring.
  - rewrite IH. rewrite (IH (0 * x + c)). cbn [pow]. ring.
Qed.

Lemma polyval_cons (c : R) (q : poly) (x : R) :
  polyval (c :: q) x = c * x ^ List.length q + polyval q x.
Proof.
  unfold polyval at 1. cbn [fold_left]. rewrite horner_from. ring.
Qed.

Lemma polyval_snoc (p : poly) (c x : R) : polyval (p ++ [c]) x = polyval p x * x + c.
Proof. unfold polyval. rewrite fold_left_app. reflexivity. Qed.

Lemma derivable_pt_lim_ext (f g : R -> R) (x l : R) :
  (forall y, f y = g y) -> derivable_pt_lim f x l -> derivable_pt_lim g x l.
Proof.
  intros Hfg Hf eps Heps. destruct (Hf eps Heps) as [delta Hd].
  exists delta. intros h Hh Hlt. rewrite <- !Hfg. apply Hd; assumption.
Qed.

Lemma derivable_pt_lim_monomial (c : R) (n : nat) (x : R) :
  derivable_pt_lim (fun y => c * y ^ n) x (c * (INR n * x ^ pred n)).
Proof.
  apply (derivable_pt_lim_ext (mult_real_fct c (fun y => y ^ n))).
  - intros y. reflexivity.
  - apply derivable_pt_lim_scal, derivable_pt_lim_pow.
Qed.

Lemma length_polyder (p : poly) : List.length (polyder p) = pred (List.length p).
Proof.
  induction p as [| c q IH]; [reflexivity |].
  destruct q as [| d q']; [reflexivity |].
  change (polyder (c :: d :: q')) with (c * INR (List.length (d :: q')) :: polyder (d :: q')).
  cbn [List.length]. rewrite IH. reflexivity.
Qed.

(** [np.polyder] is the derivative of the polynomial. *)
Lemma polyder_derivative (p : poly) (x : R) :
  derivable_pt_lim (polyval p) x (polyval (polyder p) x).
Proof.
  induction p as [| c q IH].
  - apply (derivable_pt_lim_ext (fct_cte 0)); [intros y; reflexivity |].
    apply derivable_pt_lim_const.
  - destruct q as [| d q'].
    + apply (derivable_pt_lim_ext (fct_cte c)).
      * intros y. unfold polyval, fct_cte. cbn. ring.
      * apply derivable_pt_lim_const.
    + change (polyder (c :: d :: q')) with (c * INR (List.length (d :: q')) :: polyder (d :: q')).
      rewrite polyval_cons, length_polyder.
      apply (derivable_pt_lim_ext
               (plus_fct (fun y => c * y ^ List.length (d :: q')) (polyval (d :: q')))).
      * intros y. rewrite polyval_cons. reflexivity.
      * replace (c * INR (List.length (d :: q')) * x ^ pred (List.length (d :: q')))
          with (c * (INR (List.length (d :: q')) * x ^ pred (List.length (d :: q')))) by ring.
        apply derivable_pt_lim_plus; [apply derivable_pt_lim_monomial | exact IH].
Qed.

Lemma length_polyint_coeffs (p : poly) : List.length (polyint_coeffs p) = List.length p.
Proof. induction p as [| c q IH]; cbn [polyint_coeffs List.length]; congruence. Qed.

Lemma length_polyint (p : poly) : List.length (polyint p) = S (List.length p).
Proof.
  unfold polyint. rewrite length_app, length_polyint_coeffs. cbn [List.length]. lia.
Qed.

(** [np.polyint] is an antiderivative of the polynomial. *)
Lemma polyint_antiderivative (p : poly) (x : R) :
  derivable_pt_lim (polyval (polyint p)) x (polyval p x).
Proof.
  induction p as [| c q IH].
  - apply (derivable_pt_lim_ext (fct_cte 0)).
    + intros y. unfold polyval, fct_cte. cbn. ring.
    + apply derivable_pt_lim_const.
  - rewrite polyval_cons.
    apply (derivable_pt_lim_ext
             (plus_fct (fun y => c / INR (S (List.length q)) * y ^ S (List.length q))
                (polyval (polyint q)))).
    + intros y. unfold plus_fct.
      change (polyint (c :: q)) with ((c / INR (List.length (c :: q))) :: polyint q).
      rewrite polyval_cons, length_polyint. reflexivity.
    + apply derivable_pt_lim_plus; [| exact IH].
      replace (c * x ^ List.length q)
        with (c / INR (S (List.length q))
              * (INR (S (List.length q)) * x ^ pred (S (List.length q)))).
      * apply derivable_pt_lim_monomial.
      * cbn [pred]. field. apply not_0_INR. discriminate.
Qed.

(** Convolution with [[1, 0]] appends a zero coefficient. *)
Lemma convolve_full_shift (a : poly) : a <> [] -> convolve_full a [1; 0] = a ++ [0].
Proof.
  induction a as [| x a IH]; [intros H; contradiction |]. intros _.
  destruct a as [| y a'].
  - cbn. f_equal; [ring | f_equal; ring].
  - change (convolve_full (x :: y :: a') [1; 0])
      with (add_front (map (Rmult x) [1; 0]) (0 :: convolve_full (y :: a') [1; 0])).
    rewrite IH by discriminate.
    cbn. f_equal; [ring | f_equal; ring].
Qed.

Lemma polyval_thomson (a : poly) (T : R) :
  a <> [] -> polyval (convolve_full a [1; 0]) T = T * polyval a T.
Proof.
  intros Ha. rewrite (convolve_full_shift a Ha), polyval_snoc. ring.
Qed.


(** The integrated quantities of a successful run of [run_calc_single]. *)
Lemma run_calc_single_locals_integrals sp p_st p_kt p_rt Qin Tc Tmax L gh gc l :
  run_calc_single_locals sp p_st p_kt p_rt Qin Tc Tmax L gh gc = Ok l ->
  sl_SengP l = polyval (polyint p_st) Tmax - polyval (polyint p_st) Tc /\
  sl_RengP l = polyval (polyint p_rt) Tmax - polyval (polyint p_rt) Tc /\
  sl_int_taut l = nested_int sp (polyint (convolve_full (polyder p_st) [1; 0])) Tc Tmax /\
  sl_int_rt l = nested_int sp (polyint p_rt) Tc Tmax /\
  sl_den l =
    sl_KengP l
    + 1 / (1 + sl_m l)
      * (sl_deltaT l * sl_SengP l * Tmax * polyval p_st Tmax - sl_SengP l * sl_int_taut l)
      / sl_RengP1 l
    - 1 / (1 + sl_m l) ^ 2 * sl_SengP l ^ 2
      * (sl_int_rt l + sl_deltaT l ^ 2 * gh / L) / (sl_RengP1 l ^ 2) /\
  sl_Vopt l = Rabs (sl_SengP l * sl_m l / (1 + sl_m l)) /\
  sl_Th_sc l =
    fsolve sp (sc_eq_single sp p_st p_kt Qin Tc L gh gc (polyint p_st) (polyint p_rt)
                 (polyint (convolve_full (polyder p_st) [1; 0])) (sl_alpha l)) (Tc + 20) /\
  sl_SengP_sc l = polyval (polyint p_st) (sl_Th_sc l) - polyval (polyint p_st) Tc /\
  sl_RengP1_sc l = polyval (polyint p_rt) (sl_Th_sc l) - polyval (polyint p_rt) Tc
                   + sl_dt_sc l * (gh + gc) / L.
Proof.
  unfold run_calc_single_locals. intros H.
  apply bind_Ok_inv in H. destruct H as [p_taut [Hc H]].
  apply convolve_Ok_inv in Hc. destruct Hc as [Hder [_ ->]].
  apply bind_Ok_inv in H. destruct H as [effc [He H]].
  apply py_div_Ok_inv in He. destruct He as [HT ->].
  apply bind_Ok_inv in H. destruct H as [contact [Hk H]].
  apply py_div_Ok_inv in Hk. destruct Hk as [HL ->].
  apply bind_Ok_inv in H. destruct H as [Rso [Hso H]].
  apply bind_Ok_inv in H. destruct H as [Rsc [Hsc H]].
  injection H as <-.
  cbn [sl_deltaT sl_KengP sl_RengP1 sl_RengP sl_SengP sl_int_taut sl_int_rt
       sl_m sl_alpha sl_den sl_Vopt sl_dt_sc sl_RengP1_sc sl_Th_sc sl_SengP_sc].
  repeat split; reflexivity.
Qed.


(** X3.  For a Seebeck polynomial [S] with at least two coefficients,
    [np.convolve(np.polyder(p_st), [1, 0])] succeeds and the polynomial it
    returns evaluates to [T * S'(T)], the Thomson coefficient, at every
    temperature [T]. *)
Theorem X3_thomson_polynomial (p_st : poly) :
  (2 <= List.length p_st)%nat ->
  exists p_taut,
    convolve (polyder p_st) [1; 0] = Ok p_taut /\
    forall T, exists dS,
      derivable_pt_lim (polyval p_st) T dS /\ polyval p_taut T = T * dS.
Proof.
  intros Hlen.
  assert (Hder : polyder p_st <> []).
  { intros H. apply polyder_nil_iff in H. lia. }
  exists (convolve_full (polyder p_st) [1; 0]). split.
  - apply convolve_nonempty; [exact Hder | discriminate].
  - intros T. exists (polyval (polyder p_st) T). split.
    + apply polyder_derivative.
    + apply polyval_thomson, Hder.
Qed.

(** X3 on the Seebeck polynomial [2e-4] written with two coefficients. *)
Lemma X3_witness :
  exists p_taut,
    convolve (polyder s_const) [1; 0] = Ok p_taut /\
    forall T, exists dS,
      derivable_pt_lim (polyval s_const) T dS /\ polyval p_taut T = T * dS.
Proof.
  apply (X3_thomson_polynomial s_const). unfold s_const. cbn [List.length]. lia.
Defined.

(** X4.  In a successful run of [run_calc_single] the integrated Seebeck
    coefficient and resistivity are differences [F(Tmax) - F(Tc)] of an
    antiderivative [F] of the fitted polynomial, and the two nested
    quadratures integrate [G(Tmax) - G(T)] over [[Tc, Tmax]] for an
    antiderivative [G] of the resistivity and of the Thomson coefficient
    [T * S'(T)]. *)
Theorem X4_integrated_quantities sp p_st p_kt p_rt Qin Tc Tmax L gh gc l :
  run_calc_single_locals sp p_st p_kt p_rt Qin Tc Tmax L gh gc = Ok l ->
  exists FS FR Ftau : R -> R,
    (forall T, derivable_pt_lim FS T (polyval p_st T)) /\
    (forall T, derivable_pt_lim FR T (polyval p_rt T)) /\
    (forall T, exists dS,
        derivable_pt_lim (polyval p_st) T dS /\ derivable_pt_lim Ftau T (T * dS)) /\
    sl_SengP l = FS Tmax - FS Tc /\
    sl_RengP l = FR Tmax - FR Tc /\
    sl_int_rt l = quad sp (fun T => FR Tmax - FR T) Tc Tmax /\
    sl_int_taut l = quad sp (fun T => Ftau Tmax - Ftau T) Tc Tmax.
Proof.
  intros H.
  destruct (run_calc_single_locals_inv _ _ _ _ _ _ _ _ _ _ _ H) as (Hder & _).
  destruct (run_calc_single_locals_integrals _ _ _ _ _ _ _ _ _ _ _ H)
    as (HS & HR & Htau & Hrt & _).
  exists (polyval (polyint p_st)), (polyval (polyint p_rt)),
         (polyval (polyint (convolve_full (polyder p_st) [1; 0]))).
  split; [intros T; apply polyint_antiderivative |].
  split; [intros T; apply polyint_antiderivative |].
  split.
  { intros T. exists (polyval (polyder p_st) T). split; [apply polyder_derivative |].
    rewrite <- (polyval_thomson _ T Hder). apply polyint_antiderivative. }
  split; [exact HS |]. split; [exact HR |].
  split; [exact Hrt | exact Htau].
Qed.

(** X4 on constant properties between 300 K and 600 K. *)
Lemma X4_witness :
  exists l,
    run_calc_single_locals ref_scipy s_const k_const r_const 1 300 600 1 0 0 = Ok l /\
    exists FS FR Ftau : R -> R,
      (forall T, derivable_pt_lim FS T (polyval s_const T)) /\
      (forall T, derivable_pt_lim FR T (polyval r_const T)) /\
      (forall T, exists dS,
          derivable_pt_lim (polyval s_const) T dS /\ derivable_pt_lim Ftau T (T * dS)) /\
      sl_SengP l = FS 600 - FS 300 /\
      sl_RengP l = FR 600 - FR 300 /\
      sl_int_rt l = quad ref_scipy (fun T => FR 600 - FR T) 300 600 /\
      sl_int_taut l = quad ref_scipy (fun T => Ftau 600 - Ftau T) 300 600.
Proof.
  destruct (run_calc_single_locals_returns ref_scipy s_const k_const r_const 1 300 600 1 0 0)
    as [l Hl].
  - cbn. discriminate.
  - lra.
  - lra.
  - exists l. split; [exact Hl |].
    exact (X4_integrated_quantities ref_scipy s_const k_const r_const 1 300 600 1 0 0 l Hl).
Defined.


(** ** The stored results and the sampler's heat balance *)

(** Every field [on_calc] stores in single-leg mode, in terms of the
    inputs and of the locals of [run_calc_single]. *)
Lemma on_calc_single_fields sp s k r Tmax Tc Qin use_resist L gh gc res :
  on_calc_single sp s k r Tmax Tc Qin use_resist L gh gc = Ok res ->
  exists l,
    run_calc_single_locals sp s k r Qin Tc Tmax
      (if use_resist then L else 1) (if use_resist then gh else 0)
      (if use_resist then gc else 0) = Ok l /\
    sr_s_poly res = s /\ sr_k_poly res = k /\ sr_r_poly res = r /\
    sr_Qin res = Qin /\ sr_Tc res = Tc /\ sr_Tmax res = Tmax /\
    sr_Lmax res = (if use_resist then L else 1) /\
    sr_gamma_c_h res = (if use_resist then gh else 0) /\
    sr_gamma_c_c res = (if use_resist then gc else 0) /\
    sr_alpha res = sl_alpha l /\ sr_m_opt res = sl_m l /\
    sr_eff res = sl_eff l /\ sr_Vopt res = sl_Vopt l /\
    sr_Th_sc res = sl_Th_sc l /\ sr_Isc res = sl_Isc l /\
    sr_R_star_opt res = sl_R_star_opt l /\ sr_R_L_opt res = sl_R_L_opt l.
Proof.
  unfold on_calc_single. intros H. cbv zeta in H.
  apply bind_Ok_inv in H. destruct H as [l [Hl H]].
  exists l. split; [exact Hl |].
  unfold single_return in H. cbv beta iota zeta in H.
  apply bind_Ok_inv in H. destruct H as [[Th_opt Iopt] [_ H]].
  apply Ok_inj in H. rewrite <- H.
  cbn [sr_s_poly sr_k_poly sr_r_poly sr_Qin sr_Tc sr_Tmax sr_Lmax sr_gamma_c_h
       sr_gamma_c_c sr_alpha sr_m_opt sr_eff sr_Vopt sr_Th_sc sr_Isc sr_R_star_opt
       sr_R_L_opt].
  repeat split; reflexivity.
Qed.

(** The sampler's residual at the design point is [alpha * den - Qin] for
    the [den] of [run_calc_single]. *)
Lemma heat_balance_at_design sp s k r Tmax Tc Qin use_resist L gh gc res l :
  on_calc_single sp s k r Tmax Tc Qin use_resist L gh gc = Ok res ->
  run_calc_single_locals sp s k r Qin Tc Tmax
    (if use_resist then L else 1) (if use_resist then gh else 0)
    (if use_resist then gc else 0) = Ok l ->
  Tc + 1e-6 < Tmax ->
  1e-12 <= Rabs (sl_RengP1 l) ->
  heat_balance_eq_single sp res (polyint s) (polyint r)
    (polyint (convolve_full (polyder s) [1; 0])) (sr_m_opt res) Tmax
  = sl_alpha l * sl_den l - Qin.
Proof.
  intros Hres Hl HT HR1.
  destruct (on_calc_single_fields _ _ _ _ _ _ _ _ _ _ _ _ Hres)
    as (l' & Hl' & Hs & Hk & Hr & HQ & HTc & _ & HL & Hgh & Hgc & Ha & Hm & _).
  rewrite Hl in Hl'. apply Ok_inj in Hl'. subst l'.
  destruct (run_calc_single_locals_inv _ _ _ _ _ _ _ _ _ _ _ Hl)
    as (_ & _ & _ & HdT & _ & HK & HRP1 & _ & Hsqrt & _).
  destruct (run_calc_single_locals_integrals _ _ _ _ _ _ _ _ _ _ _ Hl)
    as (HS & HR & Htau & Hrt & Hden & _).
  assert (Hm0 : 0 <= sl_m l) by (rewrite Hsqrt; apply sqrt_pos).
  rewrite HR in HRP1.
  rewrite HK, HdT, HS, Htau, Hrt, HRP1 in Hden.
  rewrite HRP1 in HR1.
  unfold heat_balance_eq_single.
  rewrite Hs, Hk, HQ, HTc, HL, Hgh, Hgc, Ha, Hm.
  destruct (Rlt_dec (sl_m l) 0) as [Hneg | _]; [lra |].
  destruct (Rle_dec Tmax (Tc + 1e-6)) as [Hcold | _]; [lra |].
  cbv zeta.
  match goal with
  | |- context [Rlt_dec (Rabs ?x) ?y] => destruct (Rlt_dec (Rabs x) y) as [Hsmall | _]
  end.
  { exfalso. lra. }
  rewrite <- Hden. reflexivity.
Qed.


(** The locals of the run on constant properties between 300 K and 600 K. *)
Lemma demo_single_values :
  exists l,
    run_calc_single_locals ref_scipy s_const k_const r_const 1 300 600 1 0 0 = Ok l /\
    sl_SengP l = 0.06 /\ sl_KengP l = 450 /\ sl_RengP1 l = 1.2e-3 /\
    1 + sl_ZT_eng l * sl_a1 l / sl_effc l = 4 /\
    sl_m l = 2 /\ sl_den l = 1000 /\ sl_alpha l = 1e-3 /\ sl_Vopt l = 0.04.
Proof.
  unfold run_calc_single_locals.
  rewrite convolve_nonempty by (cbn; discriminate). cbn [bind].
  rewrite (py_div_nonzero _ 600) by lra. cbn [bind].
  rewrite (py_div_nonzero _ 1) by lra. cbn [bind].
  rewrite !R_star_of_value. cbn [bind].
  eexists. split; [reflexivity |].
  cbn [sl_m sl_alpha sl_SengP sl_KengP sl_RengP1 sl_ZT_eng sl_a1 sl_effc sl_den sl_Vopt].
  eval_quads.
  match goal with
  | |- _ /\ _ /\ _ /\ ?e = 4 /\ _ =>
      assert (He : e = 4) by lra;
      assert (Hm : sqrt e = 2) by (rewrite He; exact sqrt_4)
  end.
  rewrite !Hm.
  split; [lra |]. split; [lra |]. split; [lra |]. split; [exact He |].
  split; [reflexivity |]. split; [lra |]. split; [lra |].
  rewrite Rabs_right; lra.
Qed.


(** X5.  After a successful single-leg run the design optimum lies on the
    heat balance the load-curve sampler solves: at [Th = Tmax] the
    residual [heat_balance_eq] vanishes at the stored load ratio [m_opt].
    It is assumed that [Tmax] exceeds [Tc] by more than [1e-6], that the
    divisors of the run ([SengP], [KengP], [RengP1], [den]) are not zero,
    [RengP1] not being below the sampler's threshold [1e-12], and that
    the square root is taken of a non-negative number. *)
Theorem X5_design_point_on_heat_balance
    sp s k r Tmax Tc Qin (use_resist : bool) (L gh gc : R) res l :
  on_calc_single sp s k r Tmax Tc Qin use_resist L gh gc = Ok res ->
  run_calc_single_locals sp s k r Qin Tc Tmax
    (if use_resist then L else 1) (if use_resist then gh else 0)
    (if use_resist then gc else 0) = Ok l ->
  Tc + 1e-6 < Tmax ->
  sl_SengP l <> 0 -> sl_KengP l <> 0 -> 1e-12 <= Rabs (sl_RengP1 l) ->
  0 <= 1 + sl_ZT_eng l * sl_a1 l / sl_effc l ->
  sl_den l <> 0 ->
  converged
    (fun m => heat_balance_eq_single sp res (polyint s) (polyint r)
                (polyint (convolve_full (polyder s) [1; 0])) m Tmax)
    (sr_m_opt res).
Proof.
  intros Hres Hl HT _ _ HR1 _ Hden. unfold converged.
  rewrite (heat_balance_at_design _ _ _ _ _ _ _ _ _ _ _ _ _ Hres Hl HT HR1).
  destruct (run_calc_single_locals_inv _ _ _ _ _ _ _ _ _ _ _ Hl)
    as (_ & _ & _ & _ & _ & _ & _ & _ & _ & _ & Ha & _).
  rewrite Ha. field. exact Hden.
Qed.

(** X5 on constant properties between 300 K and 600 K. *)
Lemma X5_witness :
  exists res,
    on_calc_single ref_scipy s_const k_const r_const 600 300 1 false 1 0 0 = Ok res /\
    converged
      (fun m => heat_balance_eq_single ref_scipy res (polyint s_const) (polyint r_const)
                  (polyint (convolve_full (polyder s_const) [1; 0])) m 600)
      (sr_m_opt res).
Proof.
  destruct (on_calc_single_returns ref_scipy s_const k_const r_const 600 300 1 false 1 0 0)
    as [res Hres]; [cbn; discriminate | lra | lra |].
  destruct demo_single_values as (l & Hl & HS & HK & HR & He & _ & Hd & _).
  exists res. split; [exact Hres |].
  apply (X5_design_point_on_heat_balance ref_scipy s_const k_const r_const 600 300 1
           false 1 0 0 res l Hres Hl).
  - lra.
  - rewrite HS. lra.
  - rewrite HK. lra.
  - rewrite HR. rewrite Rabs_right; lra.
  - rewrite He. lra.
  - rewrite Hd. lra.
Defined.


(** ** The guards of the residuals *)

(** X6.  Each residual handed to [fsolve] by the optimisers (short circuit
    and open circuit, single leg and couple) returns [Qin] at and below
    [Tc]; so, for a non-zero heat input, any temperature at which one of
    them vanishes is strictly above [Tc]. *)
Theorem X6_fsolve_roots_above_Tc sp Qin Tc
    (p_st p_kt n_st n_kt : poly) (L gh gc rc_nh rc_nc rc_ph rc_pc : R)
    (S1 S2 S3 S4 S5 S6 : poly) (SengP beta alpha alphaN Th : R) :
  Qin <> 0 ->
  converged (sc_eq_single sp p_st p_kt Qin Tc L gh gc S1 S2 S3 alpha) Th \/
  converged (eq_oc_single sp alpha p_kt Tc Qin) Th \/
  converged (sc_eq_couple sp Qin Tc L rc_nh rc_nc rc_ph rc_pc p_st p_kt n_st n_kt
               S1 S2 S3 S4 S5 S6 SengP beta alpha) Th \/
  converged (eq_oc_Couple sp alpha alphaN p_kt n_kt Tc Qin) Th ->
  Tc < Th.
Proof.
  intros HQ H. unfold converged in H.
  destruct H as [H | [H | [H | H]]].
  - unfold sc_eq_single in H. cbv zeta in H.
    destruct (Rle_dec (Th - Tc) 0) as [Hc | Hc]; [contradiction | lra].
  - unfold eq_oc_single in H.
    destruct (Rlt_dec Tc Th) as [Hc | Hc]; [exact Hc | contradiction].
  - unfold sc_eq_couple in H. cbv zeta in H.
    destruct (Rle_dec (Th - Tc) 0) as [Hc | Hc]; [contradiction | lra].
  - unfold eq_oc_Couple in H.
    destruct (Rle_dec Th Tc) as [Hc | Hc]; [contradiction | lra].
Qed.

(** X6 on the open-circuit residual of a leg of conductivity 1.5 W/(m K):
    with [alpha = 1e-3] and [Qin = 3e-3] it vanishes at 302 K. *)
Lemma X6_witness :
  3e-3 <> 0 /\
  converged (eq_oc_single ref_scipy 1e-3 k_const 300 3e-3) 302 /\
  300 < 302.
Proof.
  assert (HQ : 3e-3 <> 0) by lra.
  assert (Hc : converged (eq_oc_single ref_scipy 1e-3 k_const 300 3e-3) 302).
  { unfold converged, eq_oc_single.
    destruct (Rlt_dec 300 302) as [_ | Hc]; [| lra].
    eval_quads. lra. }
  split; [exact HQ |]. split; [exact Hc |].
  apply (X6_fsolve_roots_above_Tc ref_scipy 3e-3 300 s_const k_const s_const k_const
           1 0 0 0 0 0 0 [] [] [] [] [] [] 0 1 1e-3 1e-3 302 HQ).
  right. left. exact Hc.
Defined.

(** The run on constant properties stores a design point at which the
    sampler's residual vanishes. *)
Lemma demo_design_root :
  exists res,
    on_calc_single ref_scipy s_const k_const r_const 600 300 1 false 1 0 0 = Ok res /\
    sr_Qin res = 1 /\ sr_Tc res = 300 /\ sr_m_opt res = 2 /\
    heat_balance_eq_single ref_scipy res (polyint s_const) (polyint r_const)
      (polyint (convolve_full (polyder s_const) [1; 0])) (sr_m_opt res) 600 = 0.
Proof.
  destruct (on_calc_single_returns ref_scipy s_const k_const r_const 600 300 1 false 1 0 0)
    as [res Hres]; [cbn; discriminate | lra | lra |].
  destruct demo_single_values as (l & Hl & _ & _ & HR & _ & Hm & Hd & Ha & _).
  destruct (on_calc_single_fields _ _ _ _ _ _ _ _ _ _ _ _ Hres)
    as (l' & Hl' & _ & _ & _ & HQ & HTc & _ & _ & _ & _ & _ & Hmo & _).
  cbv iota in Hl'. rewrite Hl in Hl'. apply Ok_inj in Hl'. subst l'.
  exists res. split; [exact Hres |]. split; [exact HQ |]. split; [exact HTc |].
  split; [rewrite Hmo; exact Hm |].
  rewrite (heat_balance_at_design _ _ _ _ _ _ _ _ _ _ _ _ _ Hres Hl).
  - rewrite Ha, Hd. lra.
  - lra.
  - rewrite HR. rewrite Rabs_right; lra.
Qed.

(** X7.  The residual the load-curve sampler hands to [brentq] returns
    [Qin] for a negative load ratio and [-Qin] up to [Tc + 1e-6]; so, for
    a non-zero heat input, it vanishes only at a non-negative load ratio
    and a temperature above [Tc + 1e-6], in both modes. *)
Theorem X7_sampler_roots_are_admissible sp (ps : single_results) (pc : couple_results)
    (S1 S2 S3 S4 S5 S6 : poly) (Tc m Th : R) :
  (converged (fun m' => heat_balance_eq_single sp ps S1 S2 S3 m' Th) m /\
   sr_Qin ps <> 0 /\ sr_Tc ps = Tc) \/
  (converged (fun m' => heat_balance_eq_Couple sp pc S1 S2 S3 S4 S5 S6 m' Th) m /\
   cr_Qin pc <> 0 /\ cr_Tc pc = Tc) ->
  0 <= m /\ Tc + 1e-6 < Th.
Proof.
  unfold converged. intros [(H & HQ & <-) | (H & HQ & <-)].
  - unfold heat_balance_eq_single in H.
    destruct (Rlt_dec m 0) as [Hm | Hm]; [contradiction |].
    destruct (Rle_dec Th (sr_Tc ps + 1e-6)) as [Hc | Hc]; [lra | lra].
  - unfold heat_balance_eq_Couple in H.
    destruct (Rlt_dec m 0) as [Hm | Hm]; [contradiction |].
    destruct (Rle_dec Th (cr_Tc pc + 1e-6)) as [Hc | Hc]; [lra | lra].
Qed.

(** X7 at the design point of the run on constant properties. *)
Lemma X7_witness :
  exists res,
    on_calc_single ref_scipy s_const k_const r_const 600 300 1 false 1 0 0 = Ok res /\
    0 <= sr_m_opt res /\ 300 + 1e-6 < 600.
Proof.
  destruct demo_design_root as (res & Hres & HQ & HTc & _ & Hroot).
  exists res. split; [exact Hres |].
  apply (X7_sampler_roots_are_admissible ref_scipy res p_swapped
           (polyint s_const) (polyint r_const)
           (polyint (convolve_full (polyder s_const) [1; 0])) [] [] []
           300 (sr_m_opt res) 600).
  left. split; [exact Hroot |]. split; [rewrite HQ; lra | exact HTc].
Defined.


(** X8.  In single-leg mode the short-circuit residual of the optimiser
    is the sampler's heat balance at load ratio zero: for the stored
    polynomials, geometry and [alpha], [sc_eq] and [heat_balance_eq] at
    [m = 0] agree at every temperature above [Tc + 1e-6] at which the
    resistance integral is not below the sampler's threshold [1e-12]. *)
Theorem X8_short_circuit_is_zero_load sp (p : single_results) (Ss Sr St : poly) (Th : R) :
  sr_Tc p + 1e-6 < Th ->
  1e-12 <= Rabs (polyval Sr Th - polyval Sr (sr_Tc p)
                 + (Th - sr_Tc p) * (sr_gamma_c_h p + sr_gamma_c_c p) / sr_Lmax p) ->
  sc_eq_single sp (sr_s_poly p) (sr_k_poly p) (sr_Qin p) (sr_Tc p) (sr_Lmax p)
    (sr_gamma_c_h p) (sr_gamma_c_c p) Ss Sr St (sr_alpha p) Th
  = heat_balance_eq_single sp p Ss Sr St 0 Th.
Proof.
  intros HT HR. unfold sc_eq_single, heat_balance_eq_single. cbv zeta.
  destruct (Rle_dec (Th - sr_Tc p) 0) as [Hc | _]; [lra |].
  destruct (Rlt_dec 0 0) as [H0 | _]; [lra |].
  destruct (Rle_dec Th (sr_Tc p + 1e-6)) as [Hc | _]; [lra |].
  match goal with
  | |- context [Rlt_dec (Rabs ?x) ?y] => destruct (Rlt_dec (Rabs x) y) as [Hsmall | _]
  end.
  { exfalso. lra. }
  replace (1 + 0) with 1 by ring.
  replace (1 / 1 ^ 2) with 1 by (simpl; field).
  replace (1 / 1) with 1 by field.
  unfold Rdiv. ring.
Qed.

(** X8 on constant properties at 301 K, one kelvin above [Tc]. *)
Lemma X8_witness :
  sc_eq_single ref_scipy (sr_s_poly p_one) (sr_k_poly p_one) (sr_Qin p_one) (sr_Tc p_one)
    (sr_Lmax p_one) (sr_gamma_c_h p_one) (sr_gamma_c_c p_one)
    (polyint s_const) (polyint r_const) (polyint (convolve_full (polyder s_const) [1; 0]))
    (sr_alpha p_one) 301
  = heat_balance_eq_single ref_scipy p_one
      (polyint s_const) (polyint r_const) (polyint (convolve_full (polyder s_const) [1; 0]))
      0 301.
Proof.
  apply (X8_short_circuit_is_zero_load ref_scipy p_one).
  - cbn [p_one sr_Tc]. lra.
  - cbn [p_one sr_Tc sr_gamma_c_h sr_gamma_c_c sr_Lmax]. eval_polys.
    rewrite Rabs_right; lra.
Defined.


(** ** The samples the sweep keeps *)

Lemma samples_empty : samples empty_curve = [].
Proof. reflexivity. Qed.

Lemma samples_append r th V eta m I Rs :
  aligned r ->
  samples (append_sample r th V eta m I Rs)
  = samples r ++ [{| s_th := th; s_v_load := V; s_eta := eta;
                     s_m := m; s_i := I; s_rstar := Rs |}].
Proof.
  intros (H1 & H2 & H3 & H4 & H5). unfold samples.
  cbn [append_sample c_th]. rewrite length_app. cbn [List.length].
  rewrite seq_app, map_app. cbn [seq map Nat.add]. f_equal.
  - apply map_ext_in. intros i Hi. apply in_seq in Hi.
    unfold sample_at. cbn [append_sample c_th c_v_load c_eta c_m c_i c_rstar].
    rewrite !app_nth1 by lia. reflexivity.
  - unfold sample_at. cbn [append_sample c_th c_v_load c_eta c_m c_i c_rstar].
    rewrite !app_nth2 by lia.
    rewrite H1, H2, H3, H4, H5, Nat.sub_diag. reflexivity.
Qed.

Lemma keeps_or_skips_aligned Q step :
  keeps_or_skips Q step -> forall r th, aligned r -> aligned (step r th).
Proof.
  intros H r th Hr. destruct (H r th) as [-> | (V & eta & m & I & Rs & -> & _)].
  - exact Hr.
  - apply aligned_append, Hr.
Qed.

(** The samples a fold of such iterations adds: a sub-sequence of the
    swept temperatures, each sample satisfying [Q]. *)
Lemma fold_left_samples Q step :
  keeps_or_skips Q step ->
  forall l r, aligned r ->
    exists new,
      samples (fold_left step l r) = samples r ++ new /\
      subseq (map s_th new) l /\
      Forall (fun s => In (s_th s) l /\ Q (s_th s) s) new.
Proof.
  intros Hstep l. induction l as [| th l IH]; intros r Hr.
  - exists []. cbn [fold_left]. rewrite app_nil_r.
    split; [reflexivity |]. split; [constructor | constructor].
  - cbn [fold_left].
    assert (Hr' : aligned (step r th)) by (apply (keeps_or_skips_aligned Q), Hr; exact Hstep).
    destruct (IH (step r th) Hr') as (new & Hnew & Hsub & Hall).
    destruct (Hstep r th) as [Heq | (V & eta & m & I & Rs & Heq & HQ)].
    + exists new. rewrite Hnew, Heq. split; [reflexivity |].
      split; [apply subseq_skip; exact Hsub |].
      apply Forall_impl with (2 := Hall). intros s [Hin Hs].
      split; [right; exact Hin | exact Hs].
    + eexists (_ :: new). rewrite Hnew, Heq, (samples_append _ _ _ _ _ _ _ Hr).
      rewrite <- app_assoc. split; [reflexivity |].
      split; [cbn [map s_th]; apply subseq_keep; exact Hsub |].
      constructor.
      * cbn [s_th]. split; [left; reflexivity | exact HQ].
      * apply Forall_impl with (2 := Hall). intros s [Hin Hs].
        split; [right; exact Hin | exact Hs].
Qed.

Lemma map_nth_seq_id (l : list R) :
  map (fun i => nth i l 0) (seq 0 (List.length l)) = l.
Proof.
  induction l as [| x l IH]; [reflexivity |].
  cbn [List.length seq map nth]. f_equal.
  rewrite <- seq_shift, map_map. exact IH.
Qed.

Lemma map_s_th_samples r : map s_th (samples r) = c_th r.
Proof.
  unfold samples. rewrite map_map. cbn [sample_at s_th]. apply map_nth_seq_id.
Qed.


(** What one iteration of the single-leg sampling loop stores. *)
Lemma sample_step_single_keeps sp p Ss Sr St :
  keeps_or_skips
    (fun th s =>
       sr_Tc p < th /\ 0 < s_rstar s /\
       s_i s = Rabs ((polyval Ss th - polyval Ss (sr_Tc p)) / (s_rstar s * (1 + s_m s))) /\
       s_v_load s = s_i s * s_m s * s_rstar s /\
       s_eta s = s_i s * s_v_load s / sr_Qin p * 100 /\
       root_scalar sp (fun m => heat_balance_eq_single sp p Ss Sr St m th)
         bracket_lo bracket_hi = Some (s_m s))
    (sample_step_single sp p Ss Sr St).
Proof.
  intros r th. unfold sample_step_single.
  destruct (root_scalar sp _ bracket_lo bracket_hi) as [m |] eqn:Hm; [| left; reflexivity].
  destruct (Rle_dec (th - sr_Tc p) 0) as [| Hdt]; [left; reflexivity |].
  destruct (R_star_of _ _ _) as [Rs | e]; [| left; reflexivity].
  destruct (Rle_dec Rs 0) as [| HRs]; [left; reflexivity |].
  right. do 5 eexists. split; [reflexivity |].
  cbn [s_rstar s_i s_m s_v_load s_eta].
  split; [lra |]. split; [lra |]. repeat split; reflexivity.
Qed.

(** What one iteration of the couple sampling loop stores. *)
Lemma sample_step_Couple_keeps sp p S1 S2 S3 S4 S5 S6 :
  keeps_or_skips
    (fun th s =>
       cr_Tc p < th /\ 0 < s_rstar s /\
       s_i s = ((polyval S1 th - polyval S1 (cr_Tc p))
                - (polyval S4 th - polyval S4 (cr_Tc p))) / (s_rstar s * (1 + s_m s)) /\
       s_v_load s = s_i s * s_m s * s_rstar s /\
       s_eta s = s_i s * s_v_load s / cr_Qin p * 100 /\
       root_scalar sp (fun m => heat_balance_eq_Couple sp p S1 S2 S3 S4 S5 S6 m th)
         bracket_lo bracket_hi = Some (s_m s))
    (sample_step_Couple sp p S1 S2 S3 S4 S5 S6).
Proof.
  intros r th. unfold sample_step_Couple.
  destruct (root_scalar sp _ bracket_lo bracket_hi) as [m |] eqn:Hm; [| left; reflexivity].
  destruct (Rle_dec (th - cr_Tc p) 0) as [| Hdt]; [left; reflexivity |].
  cbv zeta.
  destruct (Rle_dec _ 0) as [| HRs]; [left; reflexivity |].
  right. do 5 eexists. split; [reflexivity |].
  cbn [s_rstar s_i s_m s_v_load s_eta].
  split; [lra |]. split; [lra |]. repeat split; reflexivity.
Qed.

(** The samples of the single-leg sweep. *)
Lemma sweep_single_samples sp p Ss Sr St :
  subseq (c_th (sweep_single sp p Ss Sr St)) (linspace (sr_Th_sc p) (sr_Th_oc p) n_samples) /\
  Forall
    (fun s =>
       In (s_th s) (linspace (sr_Th_sc p) (sr_Th_oc p) n_samples) /\
       sr_Tc p < s_th s /\ 0 < s_rstar s /\
       s_i s = Rabs ((polyval Ss (s_th s) - polyval Ss (sr_Tc p))
                     / (s_rstar s * (1 + s_m s))) /\
       s_v_load s = s_i s * s_m s * s_rstar s /\
       s_eta s = s_i s * s_v_load s / sr_Qin p * 100 /\
       root_scalar sp (fun m => heat_balance_eq_single sp p Ss Sr St m (s_th s))
         bracket_lo bracket_hi = Some (s_m s))
    (samples (sweep_single sp p Ss Sr St)).
Proof.
  unfold sweep_single.
  destruct (fold_left_samples _ _ (sample_step_single_keeps sp p Ss Sr St)
              (linspace (sr_Th_sc p) (sr_Th_oc p) n_samples) empty_curve aligned_empty)
    as (new & Hnew & Hsub & Hall).
  rewrite samples_empty in Hnew. cbn [app] in Hnew.
  rewrite <- map_s_th_samples, Hnew. split; [exact Hsub |].
  apply Forall_impl with (2 := Hall). intros s [Hin Hs]. split; [exact Hin | exact Hs].
Qed.

(** The samples of the couple sweep. *)
Lemma sweep_Couple_samples sp p S1 S2 S3 S4 S5 S6 :
  subseq (c_th (sweep_Couple sp p S1 S2 S3 S4 S5 S6))
    (linspace (cr_Th_sc p) (cr_Th_oc p) n_samples) /\
  Forall
    (fun s =>
       In (s_th s) (linspace (cr_Th_sc p) (cr_Th_oc p) n_samples) /\
       cr_Tc p < s_th s /\ 0 < s_rstar s /\
       s_i s = ((polyval S1 (s_th s) - polyval S1 (cr_Tc p))
                - (polyval S4 (s_th s) - polyval S4 (cr_Tc p)))
               / (s_rstar s * (1 + s_m s)) /\
       s_v_load s = s_i s * s_m s * s_rstar s /\
       s_eta s = s_i s * s_v_load s / cr_Qin p * 100 /\
       root_scalar sp (fun m => heat_balance_eq_Couple sp p S1 S2 S3 S4 S5 S6 m (s_th s))
         bracket_lo bracket_hi = Some (s_m s))
    (samples (sweep_Couple sp p S1 S2 S3 S4 S5 S6)).
Proof.
  unfold sweep_Couple.
  destruct (fold_left_samples _ _ (sample_step_Couple_keeps sp p S1 S2 S3 S4 S5 S6)
              (linspace (cr_Th_sc p) (cr_Th_oc p) n_samples) empty_curve aligned_empty)
    as (new & Hnew & Hsub & Hall).
  rewrite samples_empty in Hnew. cbn [app] in Hnew.
  rewrite <- map_s_th_samples, Hnew. split; [exact Hsub |].
  apply Forall_impl with (2 := Hall). intros s [Hin Hs]. split; [exact Hin | exact Hs].
Qed.


(** X9.  Every sample the single-leg sweep keeps was taken at one of the
    swept temperatures, lies above [Tc], has a positive characteristic
    resistance and a non-negative current, and its stored load voltage
    and efficiency are [V = I * m * R_star] and
    [eta = I * V / Qin * 100]. *)
Theorem X9_single_samples_are_consistent sp p Ss Sr St :
  Forall
    (fun s =>
       In (s_th s) (linspace (sr_Th_sc p) (sr_Th_oc p) n_samples) /\
       sr_Tc p < s_th s /\ 0 < s_rstar s /\ 0 <= s_i s /\
       s_v_load s = s_i s * s_m s * s_rstar s /\
       s_eta s = s_i s * s_v_load s / sr_Qin p * 100)
    (samples (sweep_single sp p Ss Sr St)).
Proof.
  destruct (sweep_single_samples sp p Ss Sr St) as [_ H].
  apply Forall_impl with (2 := H).
  intros s (Hin & HT & HR & HI & HV & He & _).
  split; [exact Hin |]. split; [exact HT |]. split; [exact HR |].
  split; [rewrite HI; apply Rabs_pos |]. split; [exact HV | exact He].
Qed.

Lemma Rabs_div_pos (a b : R) : 0 < b -> Rabs (a / b) = Rabs a / b.
Proof.
  intros Hb. unfold Rdiv. rewrite Rabs_mult.
  rewrite (Rabs_right (/ b)); [reflexivity |].
  apply Rle_ge. left. apply Rinv_0_lt_compat. exact Hb.
Qed.

(** X10.  When [brentq] returns a point of its bracket, every sample the
    single-leg sweep keeps has its load ratio in [[1e-12, 1e7]], and its
    load voltage and the drop [I * R_star] over the leg add up to the
    magnitude of the integrated Seebeck voltage at the sample's
    temperature; so the load voltage lies between zero and that
    magnitude. *)
Theorem X10_single_load_voltage_bounded sp p Ss Sr St :
  brentq_in_bracket (root_scalar sp) ->
  Forall
    (fun s =>
       bracket_lo <= s_m s <= bracket_hi /\
       s_v_load s + s_i s * s_rstar s = Rabs (polyval Ss (s_th s) - polyval Ss (sr_Tc p)) /\
       0 <= s_v_load s <= Rabs (polyval Ss (s_th s) - polyval Ss (sr_Tc p)))
    (samples (sweep_single sp p Ss Sr St)).
Proof.
  intros Hb.
  destruct (sweep_single_samples sp p Ss Sr St) as [_ H].
  apply Forall_impl with (2 := H).
  intros s (_ & _ & HR & HI & HV & _ & Hm).
  apply Hb in Hm; [| unfold bracket_lo, bracket_hi; lra].
  split; [exact Hm |].
  unfold bracket_lo in Hm.
  assert (Hpos : 0 < s_rstar s * (1 + s_m s)) by (apply Rmult_lt_0_compat; lra).
  rewrite Rabs_div_pos in HI by exact Hpos.
  set (A := Rabs (polyval Ss (s_th s) - polyval Ss (sr_Tc p))) in *.
  assert (HA : 0 <= A) by apply Rabs_pos.
  assert (Hsum : s_v_load s + s_i s * s_rstar s = A).
  { rewrite HV, HI. field. lra. }
  assert (HI0 : 0 <= s_i s).
  { rewrite HI. apply Rmult_le_pos; [exact HA |].
    left. apply Rinv_0_lt_compat. exact Hpos. }
  assert (HV0 : 0 <= s_v_load s).
  { rewrite HV. apply Rmult_le_pos; [apply Rmult_le_pos |]; lra. }
  assert (HIR : 0 <= s_i s * s_rstar s) by (apply Rmult_le_pos; lra).
  split; [exact Hsum |]. lra.
Qed.

(** X10 for the reference library routines on the stored result [p_one]. *)
Lemma X10_witness :
  Forall
    (fun s =>
       bracket_lo <= s_m s <= bracket_hi /\
       s_v_load s + s_i s * s_rstar s
       = Rabs (polyval (polyint s_const) (s_th s) - polyval (polyint s_const) (sr_Tc p_one)) /\
       0 <= s_v_load s
         <= Rabs (polyval (polyint s_const) (s_th s) - polyval (polyint s_const) (sr_Tc p_one)))
    (samples (sweep_single ref_scipy p_one (polyint s_const) (polyint r_const)
                (polyint (convolve_full (polyder s_const) [1; 0])))).
Proof.
  apply (X10_single_load_voltage_bounded ref_scipy p_one).
  exact ideal_brentq_in_bracket.
Defined.

(** X11.  When [brentq] returns a point of its bracket, every sample the
    couple sweep keeps was taken at one of the swept temperatures, lies
    above [Tc], has a positive characteristic resistance and a load ratio
    in [[1e-12, 1e7]]; its load voltage is [I * m * R_star], and together
    with the drop [I * R_star] it adds up to the signed Seebeck voltage
    [SengP - SengN] at the sample's temperature. *)
Theorem X11_couple_samples_are_consistent sp p S1 S2 S3 S4 S5 S6 :
  brentq_in_bracket (root_scalar sp) ->
  Forall
    (fun s =>
       In (s_th s) (linspace (cr_Th_sc p) (cr_Th_oc p) n_samples) /\
       cr_Tc p < s_th s /\ 0 < s_rstar s /\
       bracket_lo <= s_m s <= bracket_hi /\
       s_v_load s = s_i s * s_m s * s_rstar s /\
       s_eta s = s_i s * s_v_load s / cr_Qin p * 100 /\
       s_v_load s + s_i s * s_rstar s
       = (polyval S1 (s_th s) - polyval S1 (cr_Tc p))
         - (polyval S4 (s_th s) - polyval S4 (cr_Tc p)))
    (samples (sweep_Couple sp p S1 S2 S3 S4 S5 S6)).
Proof.
  intros Hb.
  destruct (sweep_Couple_samples sp p S1 S2 S3 S4 S5 S6) as [_ H].
  apply Forall_impl with (2 := H).
  intros s (Hin & HT & HR & HI & HV & He & Hm).
  apply Hb in Hm; [| unfold bracket_lo, bracket_hi; lra].
  split; [exact Hin |]. split; [exact HT |]. split; [exact HR |].
  split; [exact Hm |]. split; [exact HV |]. split; [exact He |].
  unfold bracket_lo in Hm.
  rewrite HV, HI. field. lra.
Qed.

(** X11 for the reference library routines on the stored result
    [p_swapped]. *)
Lemma X11_witness :
  Forall
    (fun s =>
       In (s_th s) (linspace (cr_Th_sc p_swapped) (cr_Th_oc p_swapped) n_samples) /\
       cr_Tc p_swapped < s_th s /\ 0 < s_rstar s /\
       bracket_lo <= s_m s <= bracket_hi /\
       s_v_load s = s_i s * s_m s * s_rstar s /\
       s_eta s = s_i s * s_v_load s / cr_Qin p_swapped * 100 /\
       s_v_load s + s_i s * s_rstar s
       = (polyval (polyint s_const_neg) (s_th s)
          - polyval (polyint s_const_neg) (cr_Tc p_swapped))
         - (polyval (polyint s_const) (s_th s)
            - polyval (polyint s_const) (cr_Tc p_swapped)))
    (samples (sweep_Couple ref_scipy p_swapped
                (polyint s_const_neg) (polyint r_const)
                (polyint (convolve_full (polyder s_const_neg) [1; 0]))
                (polyint s_const) (polyint r_const)
                (polyint (convolve_full (polyder s_const) [1; 0])))).
Proof.
  apply (X11_couple_samples_are_consistent ref_scipy p_swapped).
  exact ideal_brentq_in_bracket.
Defined.

(** X12.  In both modes the hot-side temperatures the sweep keeps are the
    swept temperatures with some left out, in the order of the sweep:
    the loop does not reorder them and stores none more often than it
    was swept. *)
Theorem X12_kept_temperatures_in_sweep_order sp ps pc S1 S2 S3 S4 S5 S6 :
  subseq (c_th (sweep_single sp ps S1 S2 S3))
    (linspace (sr_Th_sc ps) (sr_Th_oc ps) n_samples) /\
  subseq (c_th (sweep_Couple sp pc S1 S2 S3 S4 S5 S6))
    (linspace (cr_Th_sc pc) (cr_Th_oc pc) n_samples).
Proof.
  split.
  - exact (proj1 (sweep_single_samples sp ps S1 S2 S3)).
  - exact (proj1 (sweep_Couple_samples sp pc S1 S2 S3 S4 S5 S6)).
Qed.


(** ** The curve at fixed [Th = Tmax] and the exported table *)

Lemma dash_curve_single_inv sp lr data dc :
  dash_curve_single sp lr data = Some dc ->
  sr_Tc lr < sr_Tmax lr /\ (2 <= List.length (c_m data))%nat /\
  exists bracket,
    dc = dash_points (sr_Tmax lr)
           (Rabs (polyval (polyint (sr_s_poly lr)) (sr_Tmax lr)
                  - polyval (polyint (sr_s_poly lr)) (sr_Tc lr)))
           bracket (c_m data).
Proof.
  unfold dash_curve_single. cbv zeta.
  destruct (Rlt_dec 0 (sr_Tmax lr - sr_Tc lr)) as [HdT | _]; [| discriminate].
  destruct (2 <=? List.length (c_m data))%nat eqn:Hlen; [| discriminate].
  destruct (py_div _ _) as [contact | e]; [| discriminate].
  destruct (convolve _ _) as [taut | e]; [| discriminate].
  intros H. injection H as <-.
  split; [lra |]. split; [apply Nat.leb_le; exact Hlen |].
  eexists. reflexivity.
Qed.

Lemma dash_curve_Couple_inv sp lr data dc :
  dash_curve_Couple sp lr data = Some dc ->
  cr_Tc lr < cr_Tmax lr /\ (2 <= List.length (c_m data))%nat /\
  exists bracket,
    dc = dash_points (cr_Tmax lr)
           (Rabs ((polyval (polyint (cr_p_s_poly lr)) (cr_Tmax lr)
                   - polyval (polyint (cr_p_s_poly lr)) (cr_Tc lr))
                  - (polyval (polyint (cr_n_s_poly lr)) (cr_Tmax lr)
                     - polyval (polyint (cr_n_s_poly lr)) (cr_Tc lr))))
           bracket (c_m data).
Proof.
  unfold dash_curve_Couple. cbv zeta.
  destruct (Rlt_dec 0 (cr_Tmax lr - cr_Tc lr)) as [HdT | _]; [| discriminate].
  destruct (2 <=? List.length (c_m data))%nat eqn:Hlen; [| discriminate].
  destruct (py_div _ _) as [cP | e]; [| discriminate].
  destruct (py_div _ _) as [cN | e]; [| discriminate].
  destruct (convolve (polyder (cr_p_s_poly lr)) _) as [ptaut | e]; [| discriminate].
  destruct (convolve (polyder (cr_n_s_poly lr)) _) as [ntaut | e]; [| discriminate].
  intros H. injection H as <-.
  split; [lra |]. split; [apply Nat.leb_le; exact Hlen |].
  eexists. reflexivity.
Qed.

(** The points of the dashed curve: one per load ratio, a non-negative
    efficiency, and a voltage between zero and [Voc_fixed] at a
    non-negative load ratio. *)
Lemma dash_points_bounds Th_fix Voc bracket m_arr :
  0 <= Voc -> Forall (fun m => 0 <= m) m_arr ->
  d_m (dash_points Th_fix Voc bracket m_arr) = m_arr /\
  List.length (d_v (dash_points Th_fix Voc bracket m_arr)) = List.length m_arr /\
  List.length (d_eta (dash_points Th_fix Voc bracket m_arr)) = List.length m_arr /\
  Forall (fun e => 0 <= e) (d_eta (dash_points Th_fix Voc bracket m_arr)) /\
  Forall (fun v => 0 <= v <= Voc) (d_v (dash_points Th_fix Voc bracket m_arr)).
Proof.
  intros HV Hm. unfold dash_points. cbn [d_m d_v d_eta].
  split; [reflexivity |]. rewrite !length_map.
  split; [reflexivity |]. split; [reflexivity |]. split.
  - apply Forall_map, Forall_forall. intros m _.
    apply Rmult_le_pos; [apply Rmax_l | lra].
  - apply Forall_map. apply Forall_impl with (2 := Hm). intros m Hm0.
    assert (Hq : 0 <= m / (1 + m) <= 1).
    { split.
      - apply Rmult_le_pos; [exact Hm0 |]. left. apply Rinv_0_lt_compat. lra.
      - apply Rmult_le_reg_r with (1 + m); [lra |].
        unfold Rdiv. rewrite Rmult_assoc, Rinv_l by lra. lra. }
    split; [apply Rmult_le_pos; lra |].
    rewrite <- (Rmult_1_r Voc) at 2. apply Rmult_le_compat_l; lra.
Qed.

(** X13.  When [_plot_curves] draws the curve at fixed [Th = Tmax], in
    either mode, [Tmax] exceeds [Tc] and there are at least two sampled
    load ratios; the curve has one point per sampled load ratio, its
    efficiencies are never negative, and, the sampled load ratios being
    non-negative, its voltages lie between zero and the magnitude [Voc]
    of the Seebeck voltage integrated from [Tc] to [Tmax]. *)
Theorem X13_fixed_temperature_curve sp (ps : single_results) (pc : couple_results)
    (data : curve) (dc : dash_curve) (dT Voc : R) :
  (dash_curve_single sp ps data = Some dc /\
   dT = sr_Tmax ps - sr_Tc ps /\
   Voc = Rabs (polyval (polyint (sr_s_poly ps)) (sr_Tmax ps)
               - polyval (polyint (sr_s_poly ps)) (sr_Tc ps))) \/
  (dash_curve_Couple sp pc data = Some dc /\
   dT = cr_Tmax pc - cr_Tc pc /\
   Voc = Rabs ((polyval (polyint (cr_p_s_poly pc)) (cr_Tmax pc)
                - polyval (polyint (cr_p_s_poly pc)) (cr_Tc pc))
               - (polyval (polyint (cr_n_s_poly pc)) (cr_Tmax pc)
                  - polyval (polyint (cr_n_s_poly pc)) (cr_Tc pc)))) ->
  Forall (fun m => 0 <= m) (c_m data) ->
  0 < dT /\
  (2 <= List.length (c_m data))%nat /\
  d_m dc = c_m data /\
  List.length (d_v dc) = List.length (c_m data) /\
  List.length (d_eta dc) = List.length (c_m data) /\
  Forall (fun e => 0 <= e) (d_eta dc) /\
  Forall (fun v => 0 <= v <= Voc) (d_v dc).
Proof.
  intros H Hm.
  assert (Hdc : 0 < dT /\ (2 <= List.length (c_m data))%nat /\
                exists Th_fix bracket, dc = dash_points Th_fix Voc bracket (c_m data)).
  { destruct H as [(H & -> & ->) | (H & -> & ->)].
    - apply dash_curve_single_inv in H. destruct H as (HT & Hlen & bracket & ->).
      split; [lra |]. split; [exact Hlen |]. eexists. eexists. reflexivity.
    - apply dash_curve_Couple_inv in H. destruct H as (HT & Hlen & bracket & ->).
      split; [lra |]. split; [exact Hlen |]. eexists. eexists. reflexivity. }
  destruct Hdc as (HT & Hlen & Th_fix & bracket & ->).
  split; [exact HT |]. split; [exact Hlen |].
  apply dash_points_bounds; [| exact Hm].
  destruct H as [(_ & _ & ->) | (_ & _ & ->)]; apply Rabs_pos.
Qed.

Lemma demo_data_nonneg : Forall (fun m => 0 <= m) (c_m demo_data).
Proof. cbn [demo_data c_m]. repeat constructor; lra. Qed.

Lemma p_one_dash :
  exists dc, dash_curve_single ref_scipy p_one demo_data = Some dc.
Proof.
  unfold dash_curve_single. cbv zeta.
  cbn [p_one sr_Tc sr_Tmax sr_Lmax sr_gamma_c_h sr_gamma_c_c sr_s_poly].
  destruct (Rlt_dec 0 (600 - 300)) as [_ | H]; [| exfalso; lra].
  cbn [demo_data c_m List.length Nat.leb].
  rewrite py_div_nonzero by lra.
  rewrite convolve_nonempty by (cbn; discriminate).
  eexists. reflexivity.
Qed.

(** X13 for the stored result [p_one] and three sampled load ratios. *)
Lemma X13_witness :
  exists dc,
    dash_curve_single ref_scipy p_one demo_data = Some dc /\
    0 < sr_Tmax p_one - sr_Tc p_one /\
    (2 <= List.length (c_m demo_data))%nat /\
    d_m dc = c_m demo_data /\
    List.length (d_v dc) = List.length (c_m demo_data) /\
    List.length (d_eta dc) = List.length (c_m demo_data) /\
    Forall (fun e => 0 <= e) (d_eta dc) /\
    Forall (fun v => 0 <= v <= Rabs (polyval (polyint (sr_s_poly p_one)) (sr_Tmax p_one)
                                     - polyval (polyint (sr_s_poly p_one)) (sr_Tc p_one)))
      (d_v dc).
Proof.
  destruct p_one_dash as [dc Hdc]. exists dc. split; [exact Hdc |].
  apply (X13_fixed_temperature_curve ref_scipy p_one p_swapped demo_data dc).
  - left. split; [exact Hdc |]. split; reflexivity.
  - exact demo_data_nonneg.
Defined.

(** X14.  In single-leg mode the curve at fixed [Th = Tmax] passes through
    the optimum load voltage: wherever a sampled load ratio equals the
    stored [m_opt], the voltage of the curve equals the stored [Vopt].
    The square root that gives [m_opt] is assumed to be taken of a
    non-negative number. *)
Theorem X14_fixed_temperature_curve_meets_optimum
    sp s k r Tmax Tc Qin (use_resist : bool) (L gh gc : R) res l data dc i :
  on_calc_single sp s k r Tmax Tc Qin use_resist L gh gc = Ok res ->
  run_calc_single_locals sp s k r Qin Tc Tmax
    (if use_resist then L else 1) (if use_resist then gh else 0)
    (if use_resist then gc else 0) = Ok l ->
  0 <= 1 + sl_ZT_eng l * sl_a1 l / sl_effc l ->
  dash_curve_single sp res data = Some dc ->
  nth_error (c_m data) i = Some (sr_m_opt res) ->
  nth_error (d_v dc) i = Some (sr_Vopt res).
Proof.
  intros Hres Hl _ Hdc Hi.
  destruct (on_calc_single_fields _ _ _ _ _ _ _ _ _ _ _ _ Hres)
    as (l' & Hl' & Hs & _ & _ & _ & HTc & HTm & _ & _ & _ & _ & Hm & _ & HV & _).
  rewrite Hl in Hl'. apply Ok_inj in Hl'. subst l'.
  destruct (run_calc_single_locals_inv _ _ _ _ _ _ _ _ _ _ _ Hl)
    as (_ & _ & _ & _ & _ & _ & _ & _ & Hsqrt & _).
  destruct (run_calc_single_locals_integrals _ _ _ _ _ _ _ _ _ _ _ Hl)
    as (HS & _ & _ & _ & _ & HVopt & _).
  assert (Hm0 : 0 <= sl_m l) by (rewrite Hsqrt; apply sqrt_pos).
  apply dash_curve_single_inv in Hdc. destruct Hdc as (_ & _ & bracket & ->).
  unfold dash_points. cbn [d_v].
  rewrite nth_error_map, Hi. cbn [option_map]. f_equal.
  rewrite HV, HVopt, Hm, Hs, HTm, HTc, <- HS.
  replace (sl_SengP l * sl_m l / (1 + sl_m l))
    with (sl_SengP l * (sl_m l / (1 + sl_m l))) by (unfold Rdiv; ring).
  rewrite Rabs_mult. f_equal. symmetry. apply Rabs_right, Rle_ge.
  apply Rmult_le_pos; [exact Hm0 |]. left. apply Rinv_0_lt_compat. lra.
Qed.

(** X14 on constant properties between 300 K and 600 K, whose optimum
    load ratio is 2. *)
Lemma X14_witness :
  exists res dc,
    on_calc_single ref_scipy s_const k_const r_const 600 300 1 false 1 0 0 = Ok res /\
    dash_curve_single ref_scipy res demo_data = Some dc /\
    nth_error (d_v dc) 1 = Some (sr_Vopt res).
Proof.
  destruct demo_design_root as (res & Hres & _ & HTc & Hm & _).
  destruct demo_single_values as (l & Hl & _ & _ & _ & He & _).
  destruct (on_calc_single_fields _ _ _ _ _ _ _ _ _ _ _ _ Hres)
    as (_ & _ & Hs & _ & _ & _ & _ & HTm & HL & Hgh & Hgc & _).
  assert (Hdc : exists dc, dash_curve_single ref_scipy res demo_data = Some dc).
  { unfold dash_curve_single. cbv zeta. rewrite Hs, HTc, HTm, HL, Hgh, Hgc.
    destruct (Rlt_dec 0 (600 - 300)) as [_ | H]; [| exfalso; lra].
    cbn [demo_data c_m List.length Nat.leb].
    rewrite py_div_nonzero by lra.
    rewrite convolve_nonempty by (cbn; discriminate).
    eexists. reflexivity. }
  destruct Hdc as [dc Hdc]. exists res, dc.
  split; [exact Hres |]. split; [exact Hdc |].
  apply (X14_fixed_temperature_curve_meets_optimum ref_scipy s_const k_const r_const
           600 300 1 false 1 0 0 res l demo_data dc 1 Hres Hl).
  - rewrite He. lra.
  - exact Hdc.
  - rewrite Hm. reflexivity.
Defined.











(** ** Generating curves after a run *)






(** ** The curve fitter on a text without [=] *)


















(** ** Unit conversion and the inputs of a run *)

(** X19.  What the three unit converters return: [unit_convert_temp]
    returns [float(val)] for ["K"] and [float(val) + 273.15] for ["°C"],
    [unit_convert_length] returns [float(val)] for ["m"] and a thousandth
    of it for ["mm"], [unit_convert_resist] returns [float(val)] times
    [1], [1e-4] or [1e-6] for ohm square metres, square centimetres or
    square millimetres; they return in no other case, that is, for no
    other unit and only when [float] accepts the text. *)
Theorem X19_unit_conversion (rt : Runtime) (val unit : string) (v : R) :
  (unit_convert_temp rt val unit = Ok v <->
   exists x, py_float rt val = Ok x /\
             ((unit = "K"%string /\ v = x) \/ (unit = "°C"%string /\ v = x + 273.15))) /\
  (unit_convert_length rt val unit = Ok v <->
   exists x, py_float rt val = Ok x /\
             ((unit = "m"%string /\ v = x) \/ (unit = "mm"%string /\ v = x / 1000))) /\
  (unit_convert_resist rt val unit = Ok v <->
   exists x, py_float rt val = Ok x /\
             ((unit = "Ω·m²"%string /\ v = x) \/
              (unit = "Ω·cm²"%string /\ v = x * 1e-4) \/
              (unit = "Ω·mm²"%string /\ v = x * 1e-6))).
Proof.
  split; [| split].
  - unfold unit_convert_temp.
    destruct (String.eqb_spec unit "K") as [-> | HK].
    { split.
      - intros H. exists v. split; [exact H | left; split; reflexivity].
      - intros (x & Hx & [[_ ->] | [Hu _]]); [exact Hx | discriminate Hu]. }
    destruct (String.eqb_spec unit "°C") as [-> | HC].
    { split.
      - intros H. apply bind_Ok_inv in H. destruct H as (x & Hx & H).
        injection H as <-. exists x. split; [exact Hx | right; split; reflexivity].
      - intros (x & Hx & [[Hu _] | [_ ->]]); [discriminate Hu |].
        rewrite Hx. reflexivity. }
    split; [intros H; discriminate H |].
    intros (x & _ & [[Hu _] | [Hu _]]); contradiction.
  - unfold unit_convert_length.
    destruct (String.eqb_spec unit "m") as [-> | Hm].
    { split.
      - intros H. exists v. split; [exact H | left; split; reflexivity].
      - intros (x & Hx & [[_ ->] | [Hu _]]); [exact Hx | discriminate Hu]. }
    destruct (String.eqb_spec unit "mm") as [-> | Hmm].
    { split.
      - intros H. apply bind_Ok_inv in H. destruct H as (x & Hx & H).
        injection H as <-. exists x. split; [exact Hx | right; split; reflexivity].
      - intros (x & Hx & [[Hu _] | [_ ->]]); [discriminate Hu |].
        rewrite Hx. reflexivity. }
    split; [intros H; discriminate H |].
    intros (x & _ & [[Hu _] | [Hu _]]); contradiction.
  - unfold unit_convert_resist. split.
    + intros H. apply bind_Ok_inv in H. destruct H as (x & Hx & H).
      exists x. split; [exact Hx |].
      destruct (String.eqb_spec unit "Ω·m²") as [-> | H1].
      { injection H as <-. left. split; reflexivity. }
      destruct (String.eqb_spec unit "Ω·cm²") as [-> | H2].
      { injection H as <-. right. left. split; reflexivity. }
      destruct (String.eqb_spec unit "Ω·mm²") as [-> | H3].
      { injection H as <-. right. right. split; reflexivity. }
      discriminate H.
    + intros (x & Hx & [[-> ->] | [[-> ->] | [-> ->]]]); rewrite Hx; reflexivity.
Qed.


(** X20.  Unless "Consider contact resistance" is set to ["Yes"],
    [on_calc] does not read the contact-resistance area: whatever the
    leg-length and contact-resistivity entries and units hold, even
    texts [float] rejects, the run and the results it stores are the
    same. *)
Theorem X20_contact_inputs_ignored (rt : Runtime) (sp : Scipy) (f : inputs)
    (c1 c2 : resist_inputs) :
  use_resist_var f <> "Yes"%string ->
  on_calc_run rt sp f c1 = on_calc_run rt sp f c2 /\
  on_calc rt sp f c1 = on_calc rt sp f c2.
Proof.
  intros H.
  assert (Hrun : on_calc_run rt sp f c1 = on_calc_run rt sp f c2).
  { unfold on_calc_run. cbv zeta.
    destruct (String.eqb_spec (use_resist_var f) "Yes") as [E | _]; [contradiction |].
    reflexivity. }
  split; [exact Hrun |]. unfold on_calc. rewrite Hrun. reflexivity.
Qed.

(** X20 on a run without contact resistance, the area left empty or
    filled in. *)
Lemma X20_witness :
  on_calc_run decimal_runtime ref_scipy demo_inputs blank_resist
  = on_calc_run decimal_runtime ref_scipy demo_inputs demo_resist /\
  on_calc decimal_runtime ref_scipy demo_inputs blank_resist
  = on_calc decimal_runtime ref_scipy demo_inputs demo_resist.
Proof.
  apply (X20_contact_inputs_ignored decimal_runtime ref_scipy demo_inputs
           blank_resist demo_resist).
  cbn [demo_inputs use_resist_var]. discriminate.
Defined.




(** ** The custom material library *)

Section CustomLibFacts.

Variable material : Type.
Variable name_key : material -> option string.

Let save := save_material_to_custom_lib material name_key.
Let name := get_name material name_key.

(** [save_material_to_custom_lib] by recursion on the stored list. *)
Lemma save_nil (entry : material) (n : string) :
  name_key entry = Some n -> save entry [] = Some [entry].
Proof.
  intros Hn. unfold save, save_material_to_custom_lib. rewrite Hn. reflexivity.
Qed.

Lemma save_cons (entry m : material) (mats : list material) (n : string) :
  name_key entry = Some n ->
  save entry (m :: mats)
  = if String.eqb (name m) n then Some (entry :: mats)
    else option_map (cons m) (save entry mats).
Proof.
  intros Hn. unfold save, name, save_material_to_custom_lib. rewrite Hn.
  cbn [map existsb list_index].
  rewrite (String.eqb_sym n (get_name material name_key m)).
  destruct (String.eqb (get_name material name_key m) n); [reflexivity |].
  cbn [orb].
  destruct (existsb (String.eqb n) (map (get_name material name_key) mats)).
  - destruct (list_index n (map (get_name material name_key) mats)) as [i |];
      reflexivity.
  - reflexivity.
Qed.

Lemma save_returns (entry : material) (n : string) (mats : list material) :
  name_key entry = Some n -> exists mats', save entry mats = Some mats'.
Proof.
  intros Hn. induction mats as [| m mats IH].
  - exists [entry]. apply (save_nil entry n Hn).
  - rewrite (save_cons entry m mats n Hn).
    destruct (String.eqb (name m) n); [eexists; reflexivity |].
    destruct IH as [mats' ->]. eexists. reflexivity.
Qed.

Lemma name_of_entry (entry : material) (n : string) :
  name_key entry = Some n -> name entry = n.
Proof. intros Hn. unfold name, get_name. rewrite Hn. reflexivity. Qed.

Lemma save_spec (entry : material) (n : string) (mats mats' : list material) :
  name_key entry = Some n ->
  save entry mats = Some mats' ->
  find (fun m => String.eqb (name m) n) mats' = Some entry /\
  filter (fun m => negb (String.eqb (name m) n)) mats'
  = filter (fun m => negb (String.eqb (name m) n)) mats /\
  List.length mats'
  = (if existsb (fun m => String.eqb (name m) n) mats
     then List.length mats else S (List.length mats)) /\
  save entry mats' = Some mats'.
Proof.
  intros Hn. pose proof (name_of_entry entry n Hn) as He.
  revert mats'. induction mats as [| m mats IH]; intros mats' H.
  - rewrite (save_nil entry n Hn) in H. injection H as <-.
    cbn [find filter existsb List.length]. rewrite He, String.eqb_refl. cbn [negb].
    repeat split; try reflexivity.
    rewrite (save_cons entry entry [] n Hn), He, String.eqb_refl. reflexivity.
  - rewrite (save_cons entry m mats n Hn) in H.
    cbn [find filter existsb List.length].
    destruct (String.eqb (name m) n) eqn:Hm.
    + injection H as <-. cbn [find filter List.length negb orb].
      rewrite He, String.eqb_refl. cbn [negb].
      repeat split; try reflexivity.
      rewrite (save_cons entry entry mats n Hn), He, String.eqb_refl. reflexivity.
    + destruct (save entry mats) as [mats0 |] eqn:Hs; [| discriminate H].
      injection H as <-.
      destruct (IH mats0 eq_refl) as (Hf & Hfil & Hlen & Hidem).
      cbn [find filter List.length negb orb]. rewrite Hm. cbn [negb].
      split; [exact Hf |]. split; [rewrite Hfil; reflexivity |].
      split.
      * rewrite Hlen.
        destruct (existsb (fun m0 => String.eqb (name m0) n) mats); reflexivity.
      * rewrite (save_cons entry m mats0 n Hn), Hm, Hidem. reflexivity.
Qed.

Lemma save_names_NoDup (entry : material) (n : string) (mats mats' : list material) :
  name_key entry = Some n ->
  save entry mats = Some mats' ->
  NoDup (map name mats) -> NoDup (map name mats').
Proof.
  intros Hn. pose proof (name_of_entry entry n Hn) as He.
  revert mats'. induction mats as [| m mats IH]; intros mats' H Hnd.
  - rewrite (save_nil entry n Hn) in H. injection H as <-.
    cbn [map]. constructor; [intros [] | constructor].
  - rewrite (save_cons entry m mats n Hn) in H.
    cbn [map] in Hnd. inversion Hnd as [| x l Hnotin Hnd' E]; subst x l.
    destruct (String.eqb_spec (name m) n) as [Hm | Hm].
    + injection H as <-. cbn [map]. rewrite He, <- Hm. exact Hnd.
    + destruct (save entry mats) as [mats0 |] eqn:Hs; [| discriminate H].
      injection H as <-. cbn [map]. constructor; [| apply (IH mats0 eq_refl Hnd')].
      intros Hin. apply in_map_iff in Hin. destruct Hin as (m0 & Hm0 & Hin0).
      (* a material of [mats0] is [entry] or a material of [mats] *)
      assert (Hfrom : forall l l', save entry l = Some l' ->
                        forall x, In x l' -> x = entry \/ In x l).
      { intros l. induction l as [| a l IHl]; intros l' Hl x Hx.
        - destruct (name_key entry) as [n0 |] eqn:Hk.
          + rewrite (save_nil entry n0 Hk) in Hl. injection Hl as <-.
            destruct Hx as [<- | []]. left. reflexivity.
          + unfold save, save_material_to_custom_lib in Hl. rewrite Hk in Hl.
            discriminate Hl.
        - destruct (name_key entry) as [n0 |] eqn:Hk.
          + rewrite (save_cons entry a l n0 Hk) in Hl.
            destruct (String.eqb (name a) n0).
            * injection Hl as <-. destruct Hx as [<- | Hx];
                [left; reflexivity | right; right; exact Hx].
            * destruct (save entry l) as [l0 |] eqn:Hl0; [| discriminate Hl].
              injection Hl as <-. destruct Hx as [<- | Hx].
              -- right. left. reflexivity.
              -- destruct (IHl l0 eq_refl x Hx) as [-> | Hin];
                   [left; reflexivity | right; right; exact Hin].
          + unfold save, save_material_to_custom_lib in Hl. rewrite Hk in Hl.
            discriminate Hl. }
      destruct (Hfrom mats mats0 Hs m0 Hin0) as [-> | Hin].
      * apply Hm. rewrite <- Hm0. exact He.
      * apply Hnotin. rewrite <- Hm0. apply in_map. exact Hin.
Qed.

End CustomLibFacts.


(** X22.  Saving an entry that has a name to the custom library always
    succeeds and stores the entry under its name: in the list written
    back the first material of that name is the entry, the materials of
    other names are the same, in the same order, the list is one longer
    exactly when no stored material had the name, and saving the same
    entry once more changes nothing. *)
Theorem X22_save_material_upserts (material : Type) (name_key : material -> option string)
    (entry : material) (n : string) (mats : list material) :
  name_key entry = Some n ->
  exists mats',
    save_material_to_custom_lib material name_key entry mats = Some mats' /\
    find (fun m => String.eqb (get_name material name_key m) n) mats' = Some entry /\
    filter (fun m => negb (String.eqb (get_name material name_key m) n)) mats'
    = filter (fun m => negb (String.eqb (get_name material name_key m) n)) mats /\
    List.length mats'
    = (if existsb (fun m => String.eqb (get_name material name_key m) n) mats
       then List.length mats else S (List.length mats)) /\
    save_material_to_custom_lib material name_key entry mats' = Some mats'.
Proof.
  intros Hn.
  destruct (save_returns material name_key entry n mats Hn) as [mats' Hs].
  exists mats'. split; [exact Hs |].
  exact (save_spec material name_key entry n mats mats' Hn Hs).
Qed.

(** X22 on materials given as a name and a text: the stored material
    ["A"] is replaced, ["B"] is kept. *)
Lemma X22_witness :
  exists mats',
    save_material_to_custom_lib (string * string) (fun m => Some (fst m))
      ("A"%string, "new"%string)
      [("A"%string, "old"%string); ("B"%string, "b"%string)] = Some mats' /\
    find (fun m => String.eqb (get_name (string * string) (fun m => Some (fst m)) m) "A")
      mats' = Some ("A"%string, "new"%string) /\
    filter (fun m => negb (String.eqb (get_name (string * string)
                                         (fun m => Some (fst m)) m) "A")) mats'
    = filter (fun m => negb (String.eqb (get_name (string * string)
                                           (fun m => Some (fst m)) m) "A"))
        [("A"%string, "old"%string); ("B"%string, "b"%string)] /\
    List.length mats'
    = (if existsb (fun m => String.eqb (get_name (string * string)
                                          (fun m => Some (fst m)) m) "A")
            [("A"%string, "old"%string); ("B"%string, "b"%string)]
       then List.length [("A"%string, "old"%string); ("B"%string, "b"%string)]
       else S (List.length [("A"%string, "old"%string); ("B"%string, "b"%string)])) /\
    save_material_to_custom_lib (string * string) (fun m => Some (fst m))
      ("A"%string, "new"%string) mats' = Some mats'.
Proof.
  apply (X22_save_material_upserts (string * string) (fun m => Some (fst m))
           ("A"%string, "new"%string) "A"
           [("A"%string, "old"%string); ("B"%string, "b"%string)]).
  reflexivity.
Defined.

(** X23.  Saving to the custom library introduces no duplicate name:
    when the stored materials have pairwise different names, so have the
    materials written back. *)
Theorem X23_save_material_keeps_names_unique
    (material : Type) (name_key : material -> option string)
    (entry : material) (n : string) (mats mats' : list material) :
  name_key entry = Some n ->
  save_material_to_custom_lib material name_key entry mats = Some mats' ->
  NoDup (map (get_name material name_key) mats) ->
  NoDup (map (get_name material name_key) mats').
Proof. apply save_names_NoDup. Qed.

(** X23 on the same library. *)
Lemma X23_witness :
  NoDup (map (get_name (string * string) (fun m => Some (fst m)))
           [("A"%string, "new"%string); ("B"%string, "b"%string)]).
Proof.
  apply (X23_save_material_keeps_names_unique (string * string) (fun m => Some (fst m))
           ("A"%string, "new"%string) "A"
           [("A"%string, "old"%string); ("B"%string, "b"%string)]
           [("A"%string, "new"%string); ("B"%string, "b"%string)]).
  - reflexivity.
  - reflexivity.
  - cbn. constructor.
    + intros [H | []]. discriminate H.
    + constructor; [intros [] | constructor].
Defined.
